(** * Tag-pair highlighting of the WXML plugin: model and verification

    The development follows [WxmlDocumentHighlight]: the three blanking
    passes of [normalize], the shared pattern [TagRegexp], the two stack
    matchers [findMatchedEndTag] and [findMatchedStartTag], the helpers
    [prev] and [next], and the provider method [provideDocumentHighlights].

    JavaScript strings are sequences of UTF-16 code units, modelled as
    lists of [N].  The regular expressions of the source are written in a
    small abstract syntax and run by a backtracking matcher that follows
    the ECMAScript matching order (greedy and lazy quantifiers over a
    character class, ordered alternation, capture groups, [^]). *)

From Stdlib Require Import String Ascii.
From Stdlib Require Import List Bool Arith NArith ZArith Lia.
From Equations Require Import Equations.
From Equations.Prop Require Import Logic.
Import ListNotations.

(* ================================================================== *)
(** ** JavaScript strings *)
(* ================================================================== *)

Module JS.

Definition char := N.
Definition str := list char.

(** An ASCII literal as a JavaScript string. *)
Definition lit (s : string) : str := map N_of_ascii (list_ascii_of_string s).

Definition ch_lt : char := 60%N.      (* < *)
Definition ch_gt : char := 62%N.      (* > *)
Definition ch_slash : char := 47%N.   (* / *)
Definition ch_bang : char := 33%N.    (* ! *)
Definition ch_dash : char := 45%N.    (* - *)
Definition ch_colon : char := 58%N.   (* : *)
Definition ch_dquote : char := 34%N.  (* double quote *)
Definition ch_squote : char := 39%N.  (* single quote *)
Definition ch_space : char := 32%N.

Definition between (lo hi c : char) : bool := ((lo <=? c) && (c <=? hi))%N.

(** [\w] without the unicode flag: [A-Za-z0-9_]. *)
Definition isWord (c : char) : bool :=
  between 48%N 57%N c || between 65%N 90%N c || between 97%N 122%N c || (c =? 95)%N.

(** [\s]: the ECMAScript WhiteSpace and LineTerminator code units. *)
Definition isSpace (c : char) : bool :=
  between 9%N 13%N c || (c =? 32)%N || (c =? 160)%N || (c =? 5760)%N
  || between 8192%N 8202%N c || (c =? 8232)%N || (c =? 8233)%N
  || (c =? 8239)%N || (c =? 8287)%N || (c =? 12288)%N || (c =? 65279)%N.

(** Line terminators, the code units [.] does not match. *)
Definition isLineTerminator (c : char) : bool :=
  (c =? 10)%N || (c =? 13)%N || (c =? 8232)%N || (c =? 8233)%N.

(** [.] without the [s] flag. *)
Definition isDot (c : char) : bool := negb (isLineTerminator c).

(** [String.prototype.slice] for non-negative bounds and the substring
    between two indices. *)
Definition sliceFrom (s : str) (a : nat) : str := skipn a s.
Definition substring (s : str) (a b : nat) : str := firstn (b - a) (skipn a s).

(* ------------------------------------------------------------------ *)
(** *** Regular expressions *)

(** The fragment of the pattern language the plugin uses.  Quantifiers
    range over one character class, as they do in every pattern of the
    source. *)
Inductive regex : Type :=
| Chr (c : char)                  (* a literal code unit *)
| Cls (p : char -> bool)          (* a character class *)
| Seq (r1 r2 : regex)             (* r1 r2 *)
| Alt (r1 r2 : regex)             (* r1|r2, left first *)
| Star (p : char -> bool)         (* [p]*  greedy *)
| Plus (p : char -> bool)         (* [p]+  greedy *)
| LazyStar (p : char -> bool)     (* [p]*? lazy *)
| Group (i : nat) (r : regex)     (* capture group number i *)
| Bol.                            (* ^ without the m flag *)

(** Captures: group number and captured text, most recent first. *)
Definition caps := list (nat * str).

Fixpoint capture (i : nat) (cs : caps) : option str :=
  match cs with
  | [] => None
  | (j, v) :: cs' => if Nat.eqb i j then Some v else capture i cs'
  end.

Section Matcher.
Context {R : Type}.

(** A continuation receives the position reached, the rest of the
    subject and the captures so far. *)
Definition cont := nat -> str -> caps -> option R.

Definition orelse (a b : option R) : option R :=
  match a with Some _ => a | None => b end.

(** Greedy star: take one more code unit first, give it back when the
    rest of the pattern fails. *)
Fixpoint star (p : char -> bool) (pos : nat) (s : str) (cs : caps) (k : cont)
  : option R :=
  match s with
  | c :: s' =>
      if p c then orelse (star p (S pos) s' cs k) (k pos s cs) else k pos s cs
  | [] => k pos s cs
  end.

(** Lazy star: try the rest of the pattern first, take one more code
    unit when it fails. *)
Fixpoint lazy_star (p : char -> bool) (pos : nat) (s : str) (cs : caps) (k : cont)
  : option R :=
  match s with
  | c :: s' =>
      orelse (k pos s cs) (if p c then lazy_star p (S pos) s' cs k else None)
  | [] => k pos s cs
  end.

Fixpoint m (r : regex) (pos : nat) (s : str) (cs : caps) (k : cont) : option R :=
  match r with
  | Chr c =>
      match s with
      | x :: s' => if (x =? c)%N then k (S pos) s' cs else None
      | [] => None
      end
  | Cls p =>
      match s with
      | x :: s' => if p x then k (S pos) s' cs else None
      | [] => None
      end
  | Seq r1 r2 => m r1 pos s cs (fun pos' s' cs' => m r2 pos' s' cs' k)
  | Alt r1 r2 => orelse (m r1 pos s cs k) (m r2 pos s cs k)
  | Star p => star p pos s cs k
  | Plus p =>
      match s with
      | x :: s' => if p x then star p (S pos) s' cs k else None
      | [] => None
      end
  | LazyStar p => lazy_star p pos s cs k
  | Group i r =>
      m r pos s cs (fun pos' s' cs' => k pos' s' ((i, firstn (pos' - pos) s) :: cs'))
  | Bol => if Nat.eqb pos 0 then k pos s cs else None
  end.
End Matcher.
Arguments cont R : clear implicits.

(** The result of [RegExp.prototype.exec]: where the match starts, where
    it ends (the new [lastIndex] of a global pattern) and its captures. *)
Record Match : Type := mkMatch {
  index : nat;
  lastIndex : nat;
  groups : caps
}.

(** A match that starts exactly at [pos], [s] being the subject from
    [pos] on. *)
Definition match_at (re : regex) (pos : nat) (s : str) : option Match :=
  m re pos s [] (fun pos' _ cs => Some (mkMatch pos pos' cs)).

(** The leftmost match at or after [pos]. *)
Fixpoint search (re : regex) (pos : nat) (s : str) : option Match :=
  match match_at re pos s with
  | Some mat => Some mat
  | None =>
      match s with
      | [] => None
      | _ :: s' => search re (S pos) s'
      end
  end.

(** [re.exec(text)] for a pattern whose scan cursor is [from]. *)
Definition exec (re : regex) (text : str) (from : nat) : option Match :=
  if length text <? from then None else search re from (skipn from text).

(** [re.test(text)] for a pattern without the [g] flag. *)
Definition test (re : regex) (text : str) : bool :=
  match exec re text 0 with Some _ => true | None => false end.

(** A literal sequence of code units. *)
Fixpoint Lit (s : str) : regex :=
  match s with
  | [] => Star (fun _ => false)
  | [c] => Chr c
  | c :: s' => Seq (Chr c) (Lit s')
  end.

(* ------------------------------------------------------------------ *)
(** *** Where a match can end

    Every success of the matcher is a success of its continuation at a
    suffix of the subject.  The loops below terminate because of it. *)

Lemma orelse_Some R (a b : option R) x :
  orelse a b = Some x -> a = Some x \/ b = Some x.
Proof. destruct a; simpl; auto. Qed.

Lemma star_inv R p (k : cont R) x : forall s pos cs,
  star p pos s cs k = Some x ->
  exists n, n <= length s /\ k (pos + n) (skipn n s) cs = Some x.
Proof.
  induction s as [|c s IH]; simpl; intros pos cs H.
  - exists 0. rewrite Nat.add_0_r. auto.
  - destruct (p c).
    + apply orelse_Some in H. destruct H as [H|H].
      * apply IH in H. destruct H as (n & Hn & H). exists (S n).
        rewrite <- Nat.add_succ_comm. simpl. split; [lia | exact H].
      * exists 0. rewrite Nat.add_0_r. simpl. split; [lia | exact H].
    + exists 0. rewrite Nat.add_0_r. simpl. split; [lia | exact H].
Qed.

Lemma lazy_star_inv R p (k : cont R) x : forall s pos cs,
  lazy_star p pos s cs k = Some x ->
  exists n, n <= length s /\ k (pos + n) (skipn n s) cs = Some x.
Proof.
  induction s as [|c s IH]; simpl; intros pos cs H.
  - exists 0. rewrite Nat.add_0_r. auto.
  - apply orelse_Some in H. destruct H as [H|H].
    + exists 0. rewrite Nat.add_0_r. simpl. split; [lia | exact H].
    + destruct (p c); [|discriminate].
      apply IH in H. destruct H as (n & Hn & H). exists (S n).
      rewrite <- Nat.add_succ_comm. simpl. split; [lia | exact H].
Qed.

Lemma m_inv R (r : regex) : forall pos s cs (k : cont R) x,
  m r pos s cs k = Some x ->
  exists n cs', n <= length s /\ k (pos + n) (skipn n s) cs' = Some x.
Proof.
  induction r as [c|p|r1 IH1 r2 IH2|r1 IH1 r2 IH2|p|p|p|i r IH|];
    simpl; intros pos s cs k x H.
  - destruct s as [|y s]; [discriminate|]. destruct (y =? c)%N; [|discriminate].
    exists 1, cs. rewrite Nat.add_1_r. simpl. split; [lia | exact H].
  - destruct s as [|y s]; [discriminate|]. destruct (p y); [|discriminate].
    exists 1, cs. rewrite Nat.add_1_r. simpl. split; [lia | exact H].
  - apply IH1 in H. destruct H as (n1 & cs1 & Hn1 & H).
    apply IH2 in H. destruct H as (n2 & cs2 & Hn2 & H).
    rewrite length_skipn in Hn2.
    exists (n1 + n2), cs2. rewrite skipn_skipn in H.
    rewrite Nat.add_assoc, (Nat.add_comm n1 n2). split; [lia | exact H].
  - apply orelse_Some in H. destruct H as [H|H]; [apply IH1 in H | apply IH2 in H]; exact H.
  - apply star_inv in H. destruct H as (n & Hn & H). exists n, cs. auto.
  - destruct s as [|y s]; [discriminate|]. destruct (p y); [|discriminate].
    apply star_inv in H. destruct H as (n & Hn & H). exists (S n), cs.
    rewrite <- Nat.add_succ_comm. simpl. split; [lia | exact H].
  - apply lazy_star_inv in H. destruct H as (n & Hn & H). exists n, cs. auto.
  - apply IH in H. destruct H as (n & cs' & Hn & H). eauto.
  - destruct (Nat.eqb pos 0); [|discriminate].
    exists 0, cs. rewrite Nat.add_0_r. simpl. split; [lia | exact H].
Qed.

Lemma match_at_bounds re pos s mat :
  match_at re pos s = Some mat ->
  index mat = pos /\ pos <= lastIndex mat <= pos + length s.
Proof.
  unfold match_at. intros H. apply m_inv in H.
  destruct H as (n & cs & Hn & H). inversion H; subst; simpl. lia.
Qed.

Lemma search_bounds re : forall s pos mat,
  search re pos s = Some mat ->
  pos <= index mat <= lastIndex mat /\ lastIndex mat <= pos + length s.
Proof.
  induction s as [|c s IH]; simpl; intros pos mat H.
  - destruct (match_at re pos []) eqn:E; [|discriminate].
    inversion H; subst. apply match_at_bounds in E. simpl in E. lia.
  - destruct (match_at re pos (c :: s)) eqn:E.
    + inversion H; subst. apply match_at_bounds in E. simpl in E. lia.
    + apply IH in H. lia.
Qed.

Lemma exec_bounds re text from mat :
  exec re text from = Some mat ->
  from <= index mat <= lastIndex mat /\ lastIndex mat <= length text.
Proof.
  unfold exec. destruct (Nat.ltb_spec (length text) from) as [|Hle]; [discriminate|].
  intros H. apply search_bounds in H. rewrite length_skipn in H. lia.
Qed.

(* ------------------------------------------------------------------ *)
(** *** [String.prototype.replace] with a global pattern and a function

    The pattern is run from its cursor; the text between the end of the
    previous match and the start of this one is copied, the matched text
    is handed to [f], and the cursor moves to the end of the match (one
    further when the match is empty).  [from] is the pattern's cursor,
    [copied] the end of the previous match. *)

Equations? replace_loop (re : regex) (f : str -> str) (text : str)
    (from copied : nat) : str by wf (S (length text) - from) lt :=
  replace_loop re f text from copied with inspect (exec re text from) := {
    | exist _ None _ => sliceFrom text copied
    | exist _ (Some mat) Hexec =>
        substring text copied (index mat)
          ++ f (substring text (index mat) (lastIndex mat))
          ++ replace_loop re f text
               (if Nat.eqb (lastIndex mat) (index mat)
                then S (lastIndex mat) else lastIndex mat)
               (lastIndex mat)
  }.
Proof.
  apply exec_bounds in Hexec.
  destruct (Nat.eqb_spec (lastIndex mat) (index mat)), from, (lastIndex mat); lia.
Qed.

Definition replace (re : regex) (f : str -> str) (text : str) : str :=
  replace_loop re f text 0 0.

(** [===] on strings. *)
Fixpoint str_eqb (a b : str) : bool :=
  match a, b with
  | [], [] => true
  | x :: a', y :: b' => (x =? y)%N && str_eqb a' b'
  | _, _ => false
  end.

(** Truthiness of a value that is a string or [undefined]. *)
Definition truthy (v : option str) : bool :=
  match v with
  | Some (_ :: _) => true
  | _ => false
  end.

End JS.

Import JS.

(* ================================================================== *)
(** ** The editor's document interface

    The part of the [vscode] API the provider calls: positions, ranges
    and a text document kept as its lines and one end-of-line sequence.
    [new Position] refuses a negative line or character; the document
    clamps the positions and ranges it is given to its own text. *)
(* ================================================================== *)

Module VSCode.

Inductive outcome (A : Type) : Type :=
| Ok (a : A)
| Throw (reason : string).
Arguments Ok {A} a.
Arguments Throw {A} reason.

Definition bind {A B : Type} (x : outcome A) (f : A -> outcome B) : outcome B :=
  match x with
  | Ok a => f a
  | Throw e => Throw e
  end.

Record Position : Type := mkPosition { line : Z; character : Z }.

(** [new Position(line, character)] *)
Definition newPosition (l c : Z) : outcome Position :=
  if (l <? 0)%Z then Throw "Illegal argument: line must be non-negative"
  else if (c <? 0)%Z then Throw "Illegal argument: character must be non-negative"
  else Ok (mkPosition l c).

Definition isBefore (a b : Position) : bool :=
  ((line a <? line b) || ((line a =? line b) && (character a <? character b)))%Z.

Record Range : Type := mkRange { start : Position; end_ : Position }.

(** [new Range(start, end)]: the earlier position becomes the start. *)
Definition newRange (a b : Position) : Range :=
  if isBefore b a then mkRange b a else mkRange a b.

Record DocumentHighlight : Type := mkDocumentHighlight { range : Range }.

Record TextDocument : Type := mkTextDocument {
  lines : list str;   (* the lines, without their terminators *)
  eol : str           (* the end-of-line sequence joining them *)
}.

Definition lineAt (doc : TextDocument) (l : nat) : str := nth l (lines doc) [].

Fixpoint join (sep : str) (ls : list str) : str :=
  match ls with
  | [] => []
  | [l] => l
  | l :: ls' => l ++ sep ++ join sep ls'
  end.

(** [doc.getText()] *)
Definition getText (doc : TextDocument) : str := join (eol doc) (lines doc).

Definition validatePosition (doc : TextDocument) (p : Position) : Position :=
  let n := Z.of_nat (length (lines doc)) in
  if (n =? 0)%Z then mkPosition 0 0
  else if (line p <? 0)%Z then mkPosition 0 0
  else if (line p >=? n)%Z then
    mkPosition (n - 1) (Z.of_nat (length (lineAt doc (Z.to_nat (n - 1)))))
  else
    let maxCharacter := Z.of_nat (length (lineAt doc (Z.to_nat (line p)))) in
    mkPosition (line p) (Z.max 0 (Z.min (character p) maxCharacter)).

Definition validateRange (doc : TextDocument) (r : Range) : Range :=
  mkRange (validatePosition doc (start r)) (validatePosition doc (end_ r)).

(** The offset at which line [l] starts. *)
Fixpoint lineStart (sep : nat) (ls : list str) (l : nat) : nat :=
  match l, ls with
  | S l', x :: ls' => length x + sep + lineStart sep ls' l'
  | _, _ => 0
  end.

(** [doc.offsetAt(position)] *)
Definition offsetAt (doc : TextDocument) (p : Position) : Z :=
  let q := validatePosition doc p in
  (Z.of_nat (lineStart (length (eol doc)) (lines doc) (Z.to_nat (line q)))
   + character q)%Z.

(** The line an offset falls on and the distance from its start; an
    offset past the end falls on the last line. *)
Fixpoint indexOf (sep : nat) (ls : list str) (l : nat) (offset : nat) : nat * nat :=
  match ls with
  | [] => (l, offset)
  | [x] => (l, offset)
  | x :: ls' =>
      if offset <? length x + sep then (l, offset)
      else indexOf sep ls' (S l) (offset - (length x + sep))
  end.

(** [doc.positionAt(offset)] *)
Definition positionAt (doc : TextDocument) (offset : Z) : Position :=
  let (l, rest) := indexOf (length (eol doc)) (lines doc) 0 (Z.to_nat (Z.max 0 offset)) in
  mkPosition (Z.of_nat l) (Z.of_nat (Nat.min rest (length (lineAt doc l)))).

(** The lines strictly between two line numbers, each followed by the
    end-of-line sequence. *)
Fixpoint middleLines (doc : TextDocument) (l : nat) (count : nat) : str :=
  match count with
  | 0 => []
  | S count' => lineAt doc l ++ eol doc ++ middleLines doc (S l) count'
  end.

(** [doc.getText(range)] *)
Definition getTextIn (doc : TextDocument) (r : Range) : str :=
  let v := validateRange doc r in
  let sl := Z.to_nat (line (start v)) in
  let el := Z.to_nat (line (end_ v)) in
  let sc := Z.to_nat (character (start v)) in
  let ec := Z.to_nat (character (end_ v)) in
  if Nat.eqb sl el then substring (lineAt doc sl) sc ec
  else if sl <? el then
    skipn sc (lineAt doc sl) ++ eol doc
      ++ middleLines doc (S sl) (el - sl - 1)
      ++ firstn ec (lineAt doc el)
  else [].

(** *** The word at a column

    [getWordAtText] of the editor, which [getWordRangeAtPosition] calls
    with the 1-based column, the line and a text offset of 0.  The
    configuration is the editor's default: a text of more than [maxLen]
    code units is cut to the stretch from [maxLen / 2] code units
    before the column to [maxLen / 2] after it, and the pattern is run
    from [windowSize] code units before the column, then from twice as
    far back, and so on.  The editor also leaves the loop when its time
    budget of 150 ms is used up: the model is of a run that stays
    within it.  The editor refuses a pattern that matches the empty
    string; the cursor steps over an empty match here. *)
Definition maxLen : nat := 1000.
Definition windowSize : nat := 15.

(** [_findRegexMatchEnclosingPosition]: the pattern is run from its
    cursor [from]; the first match with [index <= pos <= lastIndex] is
    returned, and the scan gives up at the first other match that
    starts after a positive [stopPos]. *)
Equations? findRegexMatchEnclosingPosition (re : regex) (text : str) (pos : nat)
    (stopPos : Z) (from : nat) : option Match by wf (S (length text) - from) lt :=
  findRegexMatchEnclosingPosition re text pos stopPos from
    with inspect (exec re text from) := {
    | exist _ None _ => None
    | exist _ (Some mat) Hexec =>
        if (index mat <=? pos) && (pos <=? lastIndex mat) then Some mat
        else if ((0 <? stopPos) && (stopPos <? Z.of_nat (index mat)))%Z then None
        else findRegexMatchEnclosingPosition re text pos stopPos
               (if Nat.eqb (lastIndex mat) (index mat)
                then S (lastIndex mat) else lastIndex mat)
  }.
Proof.
  apply exec_bounds in Hexec.
  destruct (Nat.eqb_spec (lastIndex mat) (index mat)), from, (lastIndex mat); lia.
Qed.

(** The [for] loop of [getWordAtText]: search [i] starts
    [windowSize * i] code units before [pos], or at the front of the
    text; [prevRegexIndex] is where the search before it started and
    [mat] what that one found.  The loop ends when a search finds
    nothing after an earlier one found the word, or after the search
    from the front of the text. *)
Equations? searchWindows (re : regex) (text : str) (pos i : nat)
    (prevRegexIndex : Z) (mat : option Match) : option Match
    by wf (pos + 1 - windowSize * i) lt :=
  searchWindows re text pos i prevRegexIndex mat
    with findRegexMatchEnclosingPosition re text pos prevRegexIndex
           (Z.to_nat (Z.max 0 (Z.of_nat pos - Z.of_nat (windowSize * i)))), mat := {
    | None, Some found => Some found
    | thisMatch, _
        with inspect ((Z.of_nat pos - Z.of_nat (windowSize * i) <=? 0)%Z) := {
        | exist _ true _ => thisMatch
        | exist _ false Hmore =>
            searchWindows re text pos (S i)
              (Z.of_nat pos - Z.of_nat (windowSize * i)) thisMatch
      }
  }.
Proof.
  all: apply Z.leb_gt in Hmore; unfold windowSize in *; lia.
Qed.

(** The part of [getWordAtText] that runs once the text has at most
    [maxLen] code units: the loop, and the 1-based columns of the word
    it finds. *)
Definition wordInText (column : nat) (re : regex) (text : str) (textOffset : nat)
  : option (nat * nat) :=
  let pos := column - 1 - textOffset in
  match searchWindows re text pos 1 (-1) None with
  | Some mat =>
      Some (textOffset + 1 + index mat,
            textOffset + 1 + index mat + (lastIndex mat - index mat))
  | None => None
  end.

(** [getWordAtText(column, wordDefinition, text, textOffset)]; the
    source calls itself on the cut text, which has at most [maxLen]
    code units, so that this call goes straight to the loop. *)
Definition getWordAtText (column : nat) (re : regex) (text : str) (textOffset : nat)
  : option (nat * nat) :=
  if maxLen <? length text then
    let start := (Z.of_nat column - Z.of_nat (maxLen / 2))%Z in
    if (start <? 0)%Z
    then wordInText column re (substring text 0 (column + maxLen / 2)) textOffset
    else wordInText column re
           (substring text (Z.to_nat start) (column + maxLen / 2))
           (textOffset + Z.to_nat start)
  else wordInText column re text textOffset.

(** [doc.getWordRangeAtPosition(position, regexp)] *)
Definition getWordRangeAtPosition (doc : TextDocument) (p : Position) (re : regex)
  : option Range :=
  let q := validatePosition doc p in
  match getWordAtText (Z.to_nat (character q) + 1) re
          (lineAt doc (Z.to_nat (line q))) 0 with
  | Some (startColumn, endColumn) =>
      Some (mkRange (mkPosition (line q) (Z.of_nat (startColumn - 1)))
                    (mkPosition (line q) (Z.of_nat (endColumn - 1))))
  | None => None
  end.

End VSCode.

Import VSCode.

Notation "x <- c ;; k" := (bind c (fun x => k))
  (at level 61, c at next level, right associativity).

(** [String.prototype.slice(a, b)]: a negative bound counts from the end
    of the string; [b] is the length when it is left out. *)
Definition slice (s : str) (a : Z) (b : option Z) : str :=
  let len := Z.of_nat (length s) in
  let bound (i : Z) := if (i <? 0)%Z then Z.max (len + i) 0 else Z.min i len in
  let from := bound a in
  let to := match b with Some e => bound e | None => len end in
  substring s (Z.to_nat from) (Z.to_nat to).

(* ================================================================== *)
(** ** The patterns of the plugin *)
(* ================================================================== *)

(** [[\w:-]] *)
Definition isTagChar (c : char) : bool :=
  isWord c || (c =? ch_colon)%N || (c =? ch_dash)%N.

(** [[^<>]] *)
Definition notAngle (c : char) : bool :=
  negb ((c =? ch_lt)%N || (c =? ch_gt)%N).

Definition notDquote (c : char) : bool := negb (c =? ch_dquote)%N.
Definition notSquote (c : char) : bool := negb (c =? ch_squote)%N.

(** [const TagRegexp = /<([\w:-]+)|<\/([\w:-]+)>/g] *)
Definition TagRegexp : regex :=
  Alt (Seq (Chr ch_lt) (Group 1 (Plus isTagChar)))
      (Seq (Chr ch_lt) (Seq (Chr ch_slash) (Seq (Group 2 (Plus isTagChar)) (Chr ch_gt)))).

(** [/<!--.*?-->/g] *)
Definition CommentRegexp : regex :=
  Seq (Lit (lit "<!--")) (Seq (LazyStar isDot) (Lit (lit "-->"))).

(** [/(D[^D]*D|S[^S]*S)/g], D the double and S the single quote. *)
Definition QuotedRegexp : regex :=
  Group 1 (Alt (Seq (Chr ch_dquote) (Seq (Star notDquote) (Chr ch_dquote)))
               (Seq (Chr ch_squote) (Seq (Star notSquote) (Chr ch_squote)))).

(** [/<[\w:-]+\s+[^<>]*\/>/g] *)
Definition SelfClosingRegexp : regex :=
  Seq (Chr ch_lt)
      (Seq (Plus isTagChar)
           (Seq (Plus isSpace) (Seq (Star notAngle) (Seq (Chr ch_slash) (Chr ch_gt))))).

(** [/^[^<>]*\/>/], the test on the text after a start-tag name. *)
Definition SelfClosedRegexp : regex :=
  Seq Bol (Seq (Star notAngle) (Seq (Chr ch_slash) (Chr ch_gt))).

(** [/[\w:-]+/], the word pattern handed to the editor. *)
Definition WordRegexp : regex := Plus isTagChar.

(* ================================================================== *)
(** ** normalize *)
(* ================================================================== *)

(** [(raw) => new Array(raw.length).fill(' ').join('')] *)
Definition replacer (raw : str) : str := repeat ch_space (length raw).

Definition normalize (content : str) : str :=
  replace SelfClosingRegexp replacer
    (replace QuotedRegexp replacer
       (replace CommentRegexp replacer content)).

(* ================================================================== *)
(** ** The two matchers *)
(* ================================================================== *)

(** [TagRegexp] never matches the empty string, so its cursor moves at
    every iteration of the [while ((mat = TagRegexp.exec(...)))] loops. *)
Lemma search_found re : forall s pos mat,
  search re pos s = Some mat ->
  exists n, n <= length s /\ match_at re (pos + n) (skipn n s) = Some mat.
Proof.
  induction s as [|c s IH]; simpl; intros pos mat H.
  - destruct (match_at re pos []) eqn:E; [|discriminate].
    exists 0. rewrite Nat.add_0_r. simpl. rewrite E. auto.
  - destruct (match_at re pos (c :: s)) eqn:E.
    + exists 0. rewrite Nat.add_0_r. simpl. rewrite E. split; [lia | exact H].
    + apply IH in H. destruct H as (n & Hn & H). exists (S n).
      rewrite <- Nat.add_succ_comm. simpl. split; [lia | exact H].
Qed.

Lemma TagRegexp_match_at_progress pos s mat :
  match_at TagRegexp pos s = Some mat -> index mat < lastIndex mat.
Proof.
  unfold match_at, TagRegexp. simpl. intros H.
  destruct s as [|x s]; [discriminate|]. simpl in H.
  apply orelse_Some in H. destruct H as [H|H].
  - destruct (x =? ch_lt)%N; [|discriminate].
    destruct s as [|y s]; [discriminate|]. destruct (isTagChar y); [|discriminate].
    apply star_inv in H. destruct H as (n & _ & H). inversion H; subst; simpl. lia.
  - destruct (x =? ch_lt)%N; [|discriminate].
    destruct s as [|y s]; [discriminate|]. destruct (y =? ch_slash)%N; [|discriminate].
    destruct s as [|z s]; [discriminate|]. destruct (isTagChar z); [|discriminate].
    apply star_inv in H. destruct H as (n & _ & H).
    destruct (skipn n s) as [|w s']; [discriminate|].
    destruct (w =? ch_gt)%N; [|discriminate]. inversion H; subst; simpl. lia.
Qed.

Lemma TagRegexp_progress text from mat :
  exec TagRegexp text from = Some mat ->
  from < lastIndex mat /\ lastIndex mat <= length text.
Proof.
  intros H. pose proof (exec_bounds _ _ _ _ H) as Hb.
  unfold exec in H. destruct (length text <? from); [discriminate|].
  apply search_found in H. destruct H as (n & _ & H).
  apply TagRegexp_match_at_progress in H. lia.
Qed.

(** [stack.pop()]: the top of the stack is the head of the list. *)
Definition pop {A : Type} (stack : list A) : option A * list A :=
  match stack with
  | [] => (None, [])
  | x :: stack' => (Some x, stack')
  end.

(** The loop of [findMatchedEndTag]; [from] is [TagRegexp.lastIndex]. *)
Equations? findMatchedEndTag_loop (name nextContent : str) (from : nat)
    (stack : list str) : option nat by wf (S (length nextContent) - from) lt :=
  findMatchedEndTag_loop name nextContent from stack
    with inspect (exec TagRegexp nextContent from) := {
    | exist _ None _ => None
    | exist _ (Some mat) Hexec =>
        let startName := capture 1 (groups mat) in
        let endName := capture 2 (groups mat) in
        if truthy startName then
          findMatchedEndTag_loop name nextContent (lastIndex mat)
            (match startName with Some n => n :: stack | None => stack end)
        else if truthy endName then
          let (last, stack') := pop stack in
          if negb (truthy last) then
            if str_eqb (match endName with Some n => n | None => [] end) name
            then Some (index mat)
            else findMatchedEndTag_loop name nextContent (lastIndex mat) stack'
          else if negb (str_eqb (match last with Some n => n | None => [] end)
                                (match endName with Some n => n | None => [] end))
          then None
          else findMatchedEndTag_loop name nextContent (lastIndex mat) stack'
        else findMatchedEndTag_loop name nextContent (lastIndex mat) stack
  }.
Proof.
  all: apply TagRegexp_progress in Hexec;
    destruct from, (lastIndex mat); lia.
Qed.

Definition findMatchedEndTag (name nextContent : str) : option nat :=
  findMatchedEndTag_loop name nextContent 0 [].

(** The loop of [findMatchedStartTag].  It yields the stack as the loop
    leaves it: the source reads [stack[stack.length - 1]] afterwards,
    whether the loop ran to the end of the text or left by [break]. *)
Equations? findMatchedStartTag_loop (name prevContent : str) (from : nat)
    (stack : list (str * nat)) : list (str * nat)
    by wf (S (length prevContent) - from) lt :=
  findMatchedStartTag_loop name prevContent from stack
    with inspect (exec TagRegexp prevContent from) := {
    | exist _ None _ => stack
    | exist _ (Some mat) Hexec =>
        let startName := capture 1 (groups mat) in
        let endName := capture 2 (groups mat) in
        if truthy startName then
          findMatchedStartTag_loop name prevContent (lastIndex mat)
            (match startName with Some n => (n, index mat) :: stack | None => stack end)
        else if truthy endName then
          let (last, stack') := pop stack in
          match last with
          | None => stack'
          | Some l =>
              if negb (str_eqb (fst l) (match endName with Some n => n | None => [] end))
              then stack'
              else findMatchedStartTag_loop name prevContent (lastIndex mat) stack'
          end
        else findMatchedStartTag_loop name prevContent (lastIndex mat) stack
  }.
Proof.
  all: apply TagRegexp_progress in Hexec;
    destruct from, (lastIndex mat); lia.
Qed.

Definition findMatchedStartTag (name prevContent : str) : option nat :=
  match findMatchedStartTag_loop name prevContent 0 [] with
  | [] => None
  | l :: _ => Some (snd l)
  end.

(* ================================================================== *)
(** ** The provider *)
(* ================================================================== *)

(** [next(doc, pos, length = 1)] *)
Definition next (doc : TextDocument) (pos : Position) (length : Z) : outcome str :=
  start <- newPosition (line pos) (character pos) ;;
  end_ <- newPosition (line pos) (character pos + length) ;;
  Ok (getTextIn doc (newRange start end_)).

(** [prev(doc, pos, length = 1)] *)
Definition prev (doc : TextDocument) (pos : Position) (length : Z) : outcome str :=
  start <- newPosition (line pos) (character pos - length) ;;
  end_ <- newPosition (line pos) (character pos) ;;
  Ok (getTextIn doc (newRange start end_)).

Definition provideDocumentHighlights (doc : TextDocument) (pos : Position)
  : outcome (list DocumentHighlight) :=
  match getWordRangeAtPosition doc pos WordRegexp with
  | None => Ok []
  | Some range =>
      let content := getText doc in
      let name := getTextIn doc range in
      let res := [range] in
      p1 <- prev doc (start range) 1 ;;
      res' <-
        (if str_eqb p1 (lit "<") then
           let nextStartIndex := offsetAt doc (end_ range) in
           let nextText := normalize (slice content nextStartIndex None) in
           if negb (test SelfClosedRegexp nextText) then
             match findMatchedEndTag name nextText with
             | Some nextEndIndex =>
                 Ok (res ++
                       [newRange
                          (positionAt doc (nextStartIndex + Z.of_nat nextEndIndex + 2))
                          (positionAt doc (nextStartIndex + Z.of_nat nextEndIndex + 2
                                           + Z.of_nat (length name)))])
             | None => Ok res
             end
           else Ok res
         else
           p2 <- prev doc (start range) 2 ;;
           if str_eqb p2 (lit "</") then
             n1 <- next doc (end_ range) 1 ;;
             if str_eqb n1 (lit ">") then
               let prevEndIndex := (offsetAt doc (start range) - 2)%Z in
               let prevText := normalize (slice content 0 (Some prevEndIndex)) in
               match findMatchedStartTag name prevText with
               | Some prevStartIndex =>
                   Ok (res ++
                         [newRange
                            (positionAt doc (Z.of_nat prevStartIndex + 1))
                            (positionAt doc (Z.of_nat prevStartIndex + 1
                                             + Z.of_nat (length name)))])
               | None => Ok res
               end
             else Ok res
           else Ok res) ;;
      Ok (map mkDocumentHighlight res')
  end.

(* ================================================================== *)
(** ** The vocabulary of the statements

    What the theorems below talk about: texts built from tags, the
    places of a document, and the shapes of text on which the patterns
    of the plugin behave in a known way.  Nothing here is part of the
    plugin. *)
(* ================================================================== *)

(** [blanked a b]: [b] is [a] with some code units turned into spaces. *)
Definition blanked (a b : str) : Prop :=
  Forall2 (fun c d => d = c \/ d = ch_space) a b.

(** The two shapes of a token: [<name] and [</name>]. *)
Inductive tag_match (pos : nat) (s : str) (mat : Match) : Prop :=
| StartMatch (n rest : str) :
    s = ch_lt :: n ++ rest -> n <> [] ->
    mat = mkMatch pos (pos + 1 + length n) [(1, n)] ->
    tag_match pos s mat
| EndMatch (n rest : str) :
    s = ch_lt :: ch_slash :: n ++ ch_gt :: rest -> n <> [] ->
    mat = mkMatch pos (pos + 3 + length n) [(2, n)] ->
    tag_match pos s mat.

(** [s] does not go on with a code unit of the class [p]. *)
Definition stops (p : char -> bool) (s : str) : bool :=
  match s with
  | [] => true
  | c :: _ => negb (p c)
  end.

Definition notLt (c : char) : bool := negb (c =? ch_lt)%N.

Definition startTag (n : str) : str := ch_lt :: n ++ [ch_gt].
Definition endTag (n : str) : str := ch_lt :: ch_slash :: n ++ [ch_gt].

(** [dead re blk]: no match of [re] starts inside [blk], whatever text
    follows it. *)
Definition dead (re : regex) (blk : str) : Prop :=
  forall pos s, search re pos (blk ++ s) = search re (pos + length blk) s.

(** Plain text: no [<] and no quote. *)
Definition plain (c : char) : bool := notLt c && notDquote c && notSquote c.

Definition notQuote (c : char) : bool := notDquote c && notSquote c.

(** A tag name: one code unit of [[\w:-]] or more. *)
Definition tagName (n : str) : Prop := n <> [] /\ forallb isTagChar n = true.

(** Properly nested content: plain text and elements [<n>...</n>]
    without attributes. *)
Inductive balanced : str -> Prop :=
| balanced_nil : balanced []
| balanced_text (t : str) : forallb plain t = true -> balanced t
| balanced_elem (n b : str) :
    tagName n -> balanced b -> balanced (startTag n ++ b ++ endTag n)
| balanced_app (a b : str) : balanced a -> balanced b -> balanced (a ++ b).

(** The same name nested [n] levels deep around [b]. *)
Fixpoint nested (n : nat) (name b : str) : str :=
  match n with
  | 0 => b
  | S n' => startTag name ++ nested n' name b ++ endTag name
  end.

(** What the three blanking patterns have in common. *)
Record blind (re : regex) : Prop := {
  blind_plain : forall pos c s, plain c = true -> match_at re pos (c :: s) = None;
  blind_start : forall n, tagName n -> dead re (startTag n);
  blind_end : forall n, tagName n -> dead re (endTag n);
  blind_nil : forall pos, match_at re pos [] = None
}.

(** [u] is empty or ends with a code unit that is not a name character. *)
Definition endsClean (u : str) : Prop := stops isTagChar (rev u) = true.

(** The editor hands out the word [w] of the line whole: the line has
    at most [maxLen] code units, or the word is shorter than the
    [maxLen / 2] code units the editor keeps on either side of the
    cursor. *)
Definition wordFits (line w : str) : Prop :=
  length line <= maxLen \/ length w < maxLen / 2.

Definition at_ (l c : nat) : Position := mkPosition (Z.of_nat l) (Z.of_nat c).
Definition rangeAt (l a b : nat) : Range := mkRange (at_ l a) (at_ l b).

(** The range of a name that begins at line [l], column [c]. *)
Definition nameRange (l c : nat) (name : str) : Range :=
  rangeAt l c (c + length name).

(** The text after the anchor, as the forward matcher sees it. *)
Definition nextTextOf (doc : TextDocument) (anchor : Range) : str :=
  normalize (slice (getText doc) (offsetAt doc (end_ anchor)) None).

(** The text before the [</] of the anchor, as the backward matcher
    sees it. *)
Definition prevTextOf (doc : TextDocument) (anchor : Range) : str :=
  normalize (slice (getText doc) 0 (Some (offsetAt doc (start anchor) - 2)%Z)).

(** The offset at which line [l] of the document starts. *)
Definition lineOffset (doc : TextDocument) (l : nat) : nat :=
  lineStart (length (eol doc)) (lines doc) l.

(** Plain text, complete elements, and start tags still open. *)
Inductive opening : str -> Prop :=
| opening_nil : opening []
| opening_balanced (p b : str) : opening p -> balanced b -> opening (p ++ b)
| opening_start (p n : str) : opening p -> tagName n -> opening (p ++ startTag n).

(** The element [<name>b</name>] stands in the document after the text
    [p]; its start name begins at line [l1], column [c1], its end name
    at line [l2], column [c2], and each tag lies within its line. *)
Record elementAt (doc : TextDocument) (p name b rest : str) (l1 c1 l2 c2 : nat)
  : Prop := {
  el_text : getText doc = p ++ startTag name ++ b ++ endTag name ++ rest;
  el_start_line : l1 < length (lines doc);
  el_start_col : 1 <= c1;
  el_start_fits : c1 + length name < length (lineAt doc l1);
  el_start_offset : lineOffset doc l1 + c1 = length p + 1;
  el_end_line : l2 < length (lines doc);
  el_end_col : 2 <= c2;
  el_end_fits : c2 + length name < length (lineAt doc l2);
  el_end_offset :
    lineOffset doc l2 + c2 = length p + length (startTag name) + length b + 2
}.

Definition ch_lf : char := 10%N.

(** The document
<<
<page>
  <view>
    x
  </view>
</page>
>> *)
Definition pageDoc : TextDocument :=
  mkTextDocument
    [lit "<page>"; lit "  <view>"; lit "    x"; lit "  </view>"; lit "</page>"]
    [ch_lf].

(** [<name/>] *)
Definition bareSelfClosing (n : str) : str := ch_lt :: n ++ lit "/>".

(** The tag [<name/>] stands in the document after the text [p], its
    name at line [l], column [c], and the [/] after it on that line. *)
Record bareAt (doc : TextDocument) (p name rest : str) (l c : nat) : Prop := {
  bare_text : getText doc = p ++ bareSelfClosing name ++ rest;
  bare_line : l < length (lines doc);
  bare_col : 1 <= c;
  bare_fits : c + length name < length (lineAt doc l);
  bare_offset : lineOffset doc l + c = length p + 1
}.

(** Text of a comment before its first line break: no line terminator,
    no angle bracket, no quote. *)
Definition quiet (c : char) : bool := isDot c && notAngle c && notQuote c.

(** [<!--], text up to a line terminator, and properly nested content
    after it: the start of a comment over several lines. *)
Definition commentOver (a : str) (lt : char) (x : str) : str :=
  lit "<!--" ++ a ++ lt :: x.

(** What [TagRegexp.exec] returns: a start token [<name] with the whole
    run of name characters, or an end token [</name>]. *)
Inductive token (text : str) (mat : Match) : Prop :=
| StartToken (n rest : str) :
    skipn (index mat) text = ch_lt :: n ++ rest ->
    tagName n -> stops isTagChar rest = true ->
    lastIndex mat = index mat + 1 + length n ->
    groups mat = [(1, n)] ->
    token text mat
| EndToken (n rest : str) :
    skipn (index mat) text = ch_lt :: ch_slash :: n ++ ch_gt :: rest ->
    tagName n ->
    lastIndex mat = index mat + 3 + length n ->
    groups mat = [(2, n)] ->
    token text mat.

(** A stack entry of the backward matcher: a start token of the text
    and the offset of its [<]. *)
Definition startTokenAt (text : str) (e : str * nat) : Prop :=
  exists rest, skipn (snd e) text = ch_lt :: fst e ++ rest /\
               tagName (fst e) /\ stops isTagChar rest = true.

(** A pattern without [^]. *)
Fixpoint bolFree (r : regex) : bool :=
  match r with
  | Seq r1 r2 | Alt r1 r2 => bolFree r1 && bolFree r2
  | Group _ r => bolFree r
  | Bol => false
  | _ => true
  end.

(** A match moved [d] code units to the right. *)
Definition shiftMatch (d : nat) (mat : Match) : Match :=
  mkMatch (index mat + d) (lastIndex mat + d) (groups mat).

(** [pass re raw clean]: a blanking pass with pattern [re] turns the
    stretch [raw] into [clean] and goes on after it as on a text of its
    own, whatever follows. *)
Definition pass (re : regex) (raw clean : str) : Prop :=
  forall rest, replace re replacer (raw ++ rest) = clean ++ replace re replacer rest.

(** The three passes of [normalize] in a row. *)
Definition norm (raw clean : str) : Prop :=
  exists c1 c2,
    pass CommentRegexp raw c1 /\ pass QuotedRegexp c1 c2 /\
    pass SelfClosingRegexp c2 clean.

(** [s] begins with the close marker of a comment. *)
Definition closes (s : str) : bool :=
  match s with
  | c1 :: c2 :: c3 :: _ => (c1 =? ch_dash)%N && (c2 =? ch_dash)%N && (c3 =? ch_gt)%N
  | _ => false
  end.

(** The text of a comment on one line: no line terminator in it, and
    the close marker nowhere before its end. *)
Fixpoint commentText (a : str) : bool :=
  match a with
  | [] => true
  | c :: a' => isDot c && negb (closes (c :: a' ++ lit "-->")) && commentText a'
  end.

(** The comment with the text [a]. *)
Definition comment (a : str) : str := lit "<!--" ++ a ++ lit "-->".

(** No [<!] in [s], and no [<] at its end. *)
Fixpoint noBang (s : str) : bool :=
  match s with
  | [] => true
  | c :: s' =>
      (if (c =? ch_lt)%N
       then match s' with d :: _ => negb (d =? ch_bang)%N | [] => false end
       else true)
      && noBang s'
  end.

Definition isQuote (q : char) : bool := (q =? ch_dquote)%N || (q =? ch_squote)%N.

(** A quoted value: the quote [q], a body, and [q] again. *)
Definition quoted (q : char) (body : str) : str := q :: body ++ [q].

(** Code units of attribute text outside quoted values. *)
Definition plainAttr (c : char) : bool := notAngle c && notQuote c.

(** Attribute text: code units other than angle brackets and quotes,
    and quoted values whose body has no [<!]. *)
Inductive attrText : str -> Prop :=
| attr_nil : attrText []
| attr_char (c : char) : plainAttr c = true -> attrText [c]
| attr_quoted (q : char) (body : str) :
    isQuote q = true -> forallb (fun c => negb (c =? q)%N) body = true ->
    noBang (body ++ [q]) = true -> attrText (quoted q body)
| attr_app (a b : str) : attrText a -> attrText b -> attrText (a ++ b).

(** What stands between the name of a start tag and its [>]: nothing,
    or white space and attribute text. *)
Inductive tagTail : str -> Prop :=
| tail_none : tagTail []
| tail_attrs (sp : char) (a : str) :
    isSpace sp = true -> attrText a -> tagTail (sp :: a).

(** The last code unit of [s] is [/]. *)
Fixpoint endsSlash (s : str) : bool :=
  match s with
  | [] => false
  | [c] => (c =? ch_slash)%N
  | _ :: s' => endsSlash s'
  end.

(** [<name tail/>] *)
Definition selfClosing (n tail : str) : str := ch_lt :: n ++ tail ++ lit "/>".

(** The element [<name tail>content</name>]. *)
Definition element (n tail b : str) : str :=
  ch_lt :: n ++ tail ++ ch_gt :: b ++ endTag n.

(** Markup as it is written: text, comments on one line, self-closing
    tags with attributes, and elements whose start tag may carry
    attributes. *)
Inductive markup : str -> Prop :=
| markup_text (t : str) : forallb plain t = true -> markup t
| markup_comment (a : str) : commentText a = true -> markup (comment a)
| markup_selfClosing (n : str) (sp : char) (a : str) :
    tagName n -> isSpace sp = true -> attrText a ->
    markup (selfClosing n (sp :: a))
| markup_element (n t b : str) :
    tagName n -> tagTail t -> endsSlash t = false -> markup b ->
    markup (element n t b)
| markup_app (a b : str) : markup a -> markup b -> markup (a ++ b).

(** What may stand before an element: markup, and start tags that are
    still open. *)
Inductive leading : str -> Prop :=
| leading_nil : leading []
| leading_markup (p b : str) : leading p -> markup b -> leading (p ++ b)
| leading_open (p n t : str) :
    leading p -> tagName n -> tagTail t -> endsSlash t = false ->
    leading (p ++ ch_lt :: n ++ t ++ [ch_gt]).

(** The shape of normalized markup: text without [<], and elements
    whose start tag holds no angle bracket between its name and its
    [>]. *)
Inductive tidy : str -> Prop :=
| tidy_text (t : str) : forallb notLt t = true -> tidy t
| tidy_elem (n t b : str) :
    tagName n -> forallb notAngle t = true -> stops isTagChar t = true ->
    endsSlash t = false -> tidy b -> tidy (element n t b)
| tidy_app (a b : str) : tidy a -> tidy b -> tidy (a ++ b).

(** Tidy text and start tags that are still open. *)
Inductive ahead : str -> Prop :=
| ahead_nil : ahead []
| ahead_tidy (p b : str) : ahead p -> tidy b -> ahead (p ++ b)
| ahead_open (p n t : str) :
    ahead p -> tagName n -> forallb notAngle t = true ->
    stops isTagChar t = true -> ahead (p ++ ch_lt :: n ++ t ++ [ch_gt]).

Definition ch_cr : char := 13%N.

(** The lines of the document are joined by a line feed, or by a
    carriage return and a line feed: the two values of the editor's
    [EndOfLine]. *)
Definition lineBreak (doc : TextDocument) : Prop :=
  eol doc = [ch_lf] \/ eol doc = [ch_cr; ch_lf].

(** The stretch of [len] code units at offset [o] of the document text
    stands on line [l] from column [c] on; it may end the line. *)
Record placed (doc : TextDocument) (o len l c : nat) : Prop := {
  placed_line : l < length (lines doc);
  placed_offset : lineOffset doc l + c = o;
  placed_fits : c + len <= length (lineAt doc l)
}.

(** The name [n] stands in the document between [p ++ lead] and
    [after], on line [l] from column [c] on, with [lead] before it on
    that line. *)
Record tagIn (doc : TextDocument) (p lead n after : str) (l c : nat) : Prop := {
  tag_text : getText doc = p ++ lead ++ n ++ after;
  tag_placed : placed doc (length p + length lead) (length n) l c;
  tag_lead : length lead <= c
}.

(** A start tag tail with a quoted value that holds [>], a content with
    a commented-out end tag and a self-closing tag, and the document
<<
<view class=Qa>bQ>
  <!-- </view> -->
  <image src=Qx.pngQ />
</view>
>>
    in which Q stands for the double quote. *)
Definition cardTail : str := ch_space :: lit "class=" ++ quoted ch_dquote (lit "a>b").

Definition cardContent : str :=
  (ch_lf :: lit "  ")
  ++ comment (lit " </view> ")
  ++ (ch_lf :: lit "  ")
  ++ selfClosing (lit "image")
       (ch_space :: lit "src=" ++ quoted ch_dquote (lit "x.png") ++ lit " ")
  ++ [ch_lf].

Definition cardDoc : TextDocument :=
  mkTextDocument
    [ lit "<view" ++ cardTail ++ lit ">";
      lit "  " ++ comment (lit " </view> ");
      lit "  " ++ selfClosing (lit "image")
                    (ch_space :: lit "src=" ++ quoted ch_dquote (lit "x.png") ++ lit " ");
      lit "</view>" ]
    [ch_lf].

(** A start tag that goes on after its name on the next line:
<<
<view
  class=a>hi</view>
>> *)
Definition splitDoc : TextDocument :=
  mkTextDocument [lit "<view"; lit "  class=a>hi</view>"] [ch_lf].

(** A line of more than 1000 code units: [<], a name of 1000 letters
    [a], [>x</], the name again, and [>]. *)
Definition longDoc : TextDocument :=
  mkTextDocument
    [ch_lt :: repeat 97%N 1000 ++ lit ">x</" ++ repeat 97%N 1000 ++ lit ">"] [ch_lf].

(* ================================================================== *)
(** ** normalize keeps every offset *)
(* ================================================================== *)

Lemma blanked_refl a : blanked a a.
Proof. induction a; constructor; auto. Qed.

Lemma blanked_app a b a' b' : blanked a a' -> blanked b b' -> blanked (a ++ b) (a' ++ b').
Proof. apply Forall2_app. Qed.

Lemma blanked_trans a b : blanked a b -> forall c, blanked b c -> blanked a c.
Proof.
  induction 1 as [|x y a b Hxy _ IH]; intros c Hc; inversion Hc; subst.
  - constructor.
  - constructor; [|apply IH; assumption].
    destruct Hxy as [->| ->]; tauto.
Qed.

Lemma blanked_length a b : blanked a b -> length b = length a.
Proof. intros H. symmetry. exact (Forall2_length H). Qed.

Lemma blanked_replacer raw : blanked raw (replacer raw).
Proof. unfold replacer. induction raw; simpl; constructor; auto. Qed.

Lemma substring_split (s : str) a b :
  a <= b -> skipn a s = substring s a b ++ skipn b s.
Proof.
  intros H. unfold substring.
  rewrite <- (firstn_skipn (b - a) (skipn a s)) at 1.
  rewrite skipn_skipn. replace (b - a + a) with b by lia. reflexivity.
Qed.

Lemma replace_loop_blanked re text from copied :
  copied <= from ->
  blanked (skipn copied text) (replace_loop re replacer text from copied).
Proof.
  funelim (replace_loop re replacer text from copied); intros Hle.
  - pose proof (exec_bounds _ _ _ _ Hexec) as Hb.
    rewrite (substring_split text copied (index mat)) by lia.
    rewrite (substring_split text (index mat) (lastIndex mat)) by lia.
    apply blanked_app; [apply blanked_refl|].
    apply blanked_app; [apply blanked_replacer|].
    apply H. destruct (Nat.eqb (lastIndex mat) (index mat)); lia.
  - apply blanked_refl.
Qed.

Lemma replace_blanked re text : blanked text (replace re replacer text).
Proof. exact (replace_loop_blanked re text 0 0 (Nat.le_refl 0)). Qed.

Lemma normalize_blanked text : blanked text (normalize text).
Proof.
  unfold normalize.
  eapply blanked_trans; [apply replace_blanked|].
  eapply blanked_trans; [apply replace_blanked|].
  apply replace_blanked.
Qed.

(** C2: [normalize] returns a string of the length of its argument, and
    at every offset the normalized text holds either the code unit of
    the original text or the space that blanks it. *)
Theorem normalize_length : forall text : str,
  length (normalize text) = length text /\
  forall i c, nth_error (normalize text) i = Some c ->
              nth_error text i = Some c \/
              (c = ch_space /\ exists c', nth_error text i = Some c').
Proof.
  intros text. pose proof (normalize_blanked text) as H. split.
  - exact (blanked_length _ _ H).
  - revert H. generalize (normalize text). unfold blanked.
    induction 1 as [|x y a b Hxy _ IH]; intros i c Hi.
    + destruct i; discriminate.
    + destruct i as [|i]; simpl in *.
      * inversion Hi; subst. destruct Hxy; subst; eauto.
      * eauto.
Qed.

(* ================================================================== *)
(** ** One iteration of each loop *)
(* ================================================================== *)

Ltac loop_eq :=
  match goal with
  | H : exec _ _ _ = _ |- _ => rewrite H; reflexivity
  end.

Lemma replace_loop_eq re f text from copied :
  replace_loop re f text from copied =
  match exec re text from with
  | None => sliceFrom text copied
  | Some mat =>
      substring text copied (index mat)
        ++ f (substring text (index mat) (lastIndex mat))
        ++ replace_loop re f text
             (if Nat.eqb (lastIndex mat) (index mat)
              then S (lastIndex mat) else lastIndex mat)
             (lastIndex mat)
  end.
Proof. funelim (replace_loop re f text from copied); loop_eq. Qed.

Lemma findMatchedEndTag_loop_eq name nextContent from stack :
  findMatchedEndTag_loop name nextContent from stack =
  match exec TagRegexp nextContent from with
  | None => None
  | Some mat =>
      let startName := capture 1 (groups mat) in
      let endName := capture 2 (groups mat) in
      if truthy startName then
        findMatchedEndTag_loop name nextContent (lastIndex mat)
          (match startName with Some n => n :: stack | None => stack end)
      else if truthy endName then
        let (last, stack') := pop stack in
        if negb (truthy last) then
          if str_eqb (match endName with Some n => n | None => [] end) name
          then Some (index mat)
          else findMatchedEndTag_loop name nextContent (lastIndex mat) stack'
        else if negb (str_eqb (match last with Some n => n | None => [] end)
                              (match endName with Some n => n | None => [] end))
        then None
        else findMatchedEndTag_loop name nextContent (lastIndex mat) stack'
      else findMatchedEndTag_loop name nextContent (lastIndex mat) stack
  end.
Proof. funelim (findMatchedEndTag_loop name nextContent from stack); loop_eq. Qed.

Lemma findMatchedStartTag_loop_eq name prevContent from stack :
  findMatchedStartTag_loop name prevContent from stack =
  match exec TagRegexp prevContent from with
  | None => stack
  | Some mat =>
      let startName := capture 1 (groups mat) in
      let endName := capture 2 (groups mat) in
      if truthy startName then
        findMatchedStartTag_loop name prevContent (lastIndex mat)
          (match startName with Some n => (n, index mat) :: stack | None => stack end)
      else if truthy endName then
        let (last, stack') := pop stack in
        match last with
        | None => stack'
        | Some l =>
            if negb (str_eqb (fst l) (match endName with Some n => n | None => [] end))
            then stack'
            else findMatchedStartTag_loop name prevContent (lastIndex mat) stack'
        end
      else findMatchedStartTag_loop name prevContent (lastIndex mat) stack
  end.
Proof. funelim (findMatchedStartTag_loop name prevContent from stack); loop_eq. Qed.

Lemma findRegexMatchEnclosingPosition_eq re text pos stopPos from :
  findRegexMatchEnclosingPosition re text pos stopPos from =
  match exec re text from with
  | None => None
  | Some mat =>
      if (index mat <=? pos) && (pos <=? lastIndex mat) then Some mat
      else if ((0 <? stopPos) && (stopPos <? Z.of_nat (index mat)))%Z then None
      else findRegexMatchEnclosingPosition re text pos stopPos
             (if Nat.eqb (lastIndex mat) (index mat)
              then S (lastIndex mat) else lastIndex mat)
  end.
Proof. funelim (findRegexMatchEnclosingPosition re text pos stopPos from); loop_eq. Qed.

Lemma searchWindows_eq re text pos i prevRegexIndex mat :
  searchWindows re text pos i prevRegexIndex mat =
  let regexIndex := (Z.of_nat pos - Z.of_nat (windowSize * i))%Z in
  let thisMatch :=
    findRegexMatchEnclosingPosition re text pos prevRegexIndex
      (Z.to_nat (Z.max 0 regexIndex)) in
  match thisMatch, mat with
  | None, Some _ => mat
  | _, _ =>
      if (regexIndex <=? 0)%Z then thisMatch
      else searchWindows re text pos (S i) regexIndex thisMatch
  end.
Proof.
  funelim (searchWindows re text pos i prevRegexIndex mat); cbv zeta.
  all: rewrite Heq;
    try match goal with E : (_ <=? 0)%Z = _ |- _ => rewrite E end; reflexivity.
Qed.

(* ================================================================== *)
(** ** The backward matcher never reads the searched name *)
(* ================================================================== *)

Lemma findMatchedStartTag_loop_name n1 n2 prevContent from stack :
  findMatchedStartTag_loop n1 prevContent from stack =
  findMatchedStartTag_loop n2 prevContent from stack.
Proof.
  funelim (findMatchedStartTag_loop n1 prevContent from stack);
    rewrite (findMatchedStartTag_loop_eq n2).
  - rewrite Hexec. cbv zeta.
    destruct (truthy (capture 1 (groups mat))); [apply H|].
    destruct (truthy (capture 2 (groups mat))); [|apply H1].
    destruct (pop stack) as [[l|] stack']; [|reflexivity].
    destruct (negb _); [reflexivity|].
    apply (H0 (Some l) stack' l).
  - match goal with H : exec _ _ _ = None |- _ => rewrite H end. reflexivity.
Qed.

(** C10: the result of [findMatchedStartTag] is the same for any two
    searched names; the name of the start tag whose offset comes back is
    never compared with the anchor's name, so for the anchor name [a] and
    the preceding text [<b>] the offset of [<b] is returned. *)
Theorem findMatchedStartTag_ignores_name :
  (forall n1 n2 t : str, findMatchedStartTag n1 t = findMatchedStartTag n2 t) /\
  findMatchedStartTag (lit "a") (lit "<b>") = Some 0.
Proof.
  split.
  - intros n1 n2 t. unfold findMatchedStartTag.
    rewrite (findMatchedStartTag_loop_name n1 n2). reflexivity.
  - vm_compute. reflexivity.
Qed.

(* ================================================================== *)
(** ** What a match of [TagRegexp] looks like *)
(* ================================================================== *)

Lemma str_eqb_eq a : forall b, str_eqb a b = true <-> a = b.
Proof.
  induction a as [|x a IH]; destruct b as [|y b]; simpl; split; intros H;
    try reflexivity; try discriminate.
  - apply andb_true_iff in H. destruct H as [Hx Ha].
    apply N.eqb_eq in Hx. apply IH in Ha. subst. reflexivity.
  - inversion H; subst. rewrite N.eqb_refl. simpl. apply IH. reflexivity.
Qed.

Lemma str_eqb_refl a : str_eqb a a = true.
Proof. apply str_eqb_eq. reflexivity. Qed.

Lemma str_eqb_neq a b : a <> b -> str_eqb a b = false.
Proof.
  intros H. destruct (str_eqb a b) eqn:E; [|reflexivity].
  apply str_eqb_eq in E. contradiction.
Qed.

Lemma match_at_TagRegexp pos s mat :
  match_at TagRegexp pos s = Some mat -> tag_match pos s mat.
Proof.
  unfold match_at, TagRegexp. simpl. intros H.
  destruct s as [|x s]; [discriminate|]. simpl in H.
  apply orelse_Some in H. destruct H as [H|H].
  - destruct (N.eqb_spec x ch_lt) as [->|]; [|discriminate].
    destruct s as [|y s]; [discriminate|]. destruct (isTagChar y); [|discriminate].
    apply star_inv in H. destruct H as (j & Hj & H). inversion H; subst; clear H.
    apply StartMatch with (n := firstn (S (S pos) + j - S pos) (y :: s))
                          (rest := skipn (S (S pos) + j - S pos) (y :: s)).
    + rewrite firstn_skipn. reflexivity.
    + replace (S (S pos) + j - S pos) with (S j) by lia. discriminate.
    + f_equal. rewrite length_firstn. simpl length. lia.
  - destruct (N.eqb_spec x ch_lt) as [->|]; [|discriminate].
    destruct s as [|y s]; [discriminate|].
    destruct (N.eqb_spec y ch_slash) as [->|]; [|discriminate].
    destruct s as [|z s]; [discriminate|]. destruct (isTagChar z); [|discriminate].
    apply star_inv in H. destruct H as (j & Hj & H).
    destruct (skipn j s) as [|w s'] eqn:Es; [discriminate|].
    destruct (N.eqb_spec w ch_gt) as [->|]; [|discriminate].
    inversion H; subst; clear H.
    replace (S (S (S pos)) + j - S (S pos)) with (S j) by lia.
    apply EndMatch with (n := firstn (S j) (z :: s)) (rest := s').
    + simpl. rewrite <- Es, firstn_skipn. reflexivity.
    + discriminate.
    + f_equal; [rewrite length_firstn; simpl length; lia|].
      do 3 f_equal. destruct pos; lia.
Qed.

Lemma exec_found re text from mat :
  exec re text from = Some mat ->
  match_at re (index mat) (skipn (index mat) text) = Some mat.
Proof.
  unfold exec. destruct (length text <? from); [discriminate|]. intros H.
  apply search_found in H. destruct H as (n & _ & H).
  pose proof (match_at_bounds _ _ _ _ H) as [Hi _].
  rewrite skipn_skipn, (Nat.add_comm n from) in H. rewrite Hi. exact H.
Qed.

Lemma exec_TagRegexp text from mat :
  exec TagRegexp text from = Some mat ->
  tag_match (index mat) (skipn (index mat) text) mat.
Proof. intros H. apply match_at_TagRegexp, exec_found with (from := from), H. Qed.

(* ================================================================== *)
(** ** The offset the forward matcher returns *)
(* ================================================================== *)

Lemma findMatchedEndTag_loop_found name text from stack i :
  findMatchedEndTag_loop name text from stack = Some i ->
  exists rest, skipn i text = ch_lt :: ch_slash :: name ++ ch_gt :: rest.
Proof.
  funelim (findMatchedEndTag_loop name text from stack); [|discriminate].
  intros Hres. cbv zeta in Hres.
  destruct (truthy (capture 1 (groups mat))) eqn:E1; [eauto|].
  destruct (truthy (capture 2 (groups mat))) eqn:E2; [|eauto].
  destruct (pop stack) as [last stack'] eqn:Ep.
  destruct (negb (truthy last)).
  - destruct (str_eqb _ name) eqn:En; [|eauto].
    inversion Hres; subst i; clear Hres.
    destruct (exec_TagRegexp _ _ _ Hexec) as [n rest Hs Hn Hm|n rest Hs Hn Hm].
    + rewrite Hm in E1. simpl in E1. destruct n; [contradiction|discriminate].
    + rewrite Hm in En. simpl in En. apply str_eqb_eq in En. subst n.
      exists rest. exact Hs.
  - destruct (negb (str_eqb _ _)); [discriminate|]. eauto.
Qed.

Lemma substring_skipn (text : str) i n pre rest :
  skipn i text = pre ++ rest -> n = length pre -> substring text i (i + n) = pre.
Proof.
  intros H ->. unfold substring. rewrite H.
  replace (i + length pre - i) with (length pre + 0) by lia.
  rewrite firstn_app_2. simpl. apply app_nil_r.
Qed.

Lemma substring_at (text : str) i j pre rest :
  skipn i text = pre ++ rest -> j = i + length pre -> substring text i j = pre.
Proof. intros H ->. apply substring_skipn with (rest := rest); auto. Qed.

(** C6, as stated, fails: for the text [x</view>] the offset returned is
    1, where the text holds [<]; the name starts at offset 3. *)
Lemma findMatchedEndTag_offset_not_name :
  findMatchedEndTag (lit "view") (lit "x</view>") = Some 1 /\
  substring (lit "x</view>") 1 (1 + length (lit "view")) <> lit "view" /\
  substring (lit "x</view>") 3 (3 + length (lit "view")) = lit "view".
Proof. vm_compute. repeat split; [discriminate]. Qed.

(** C5, as stated, fails: the end token [</b>] is met with an empty
    stack and another name, and the scan goes on to return [</a>]. *)
Lemma findMatchedEndTag_continues_after_stray_closer :
  findMatchedEndTag (lit "a") (lit ">x</b></a>") = Some 6.
Proof. vm_compute. reflexivity. Qed.

(* ================================================================== *)
(** ** Running the patterns over a text taken apart

    The lemmas below take the text at the cursor apart,
    [skipn from text = block ++ rest], and say where the cursor is after
    the block. *)
(* ================================================================== *)

Lemma star_greedy R p (k : cont R) x : forall n pos rest cs,
  forallb p n = true -> stops p rest = true ->
  k (pos + length n) rest cs = Some x ->
  star p pos (n ++ rest) cs k = Some x.
Proof.
  induction n as [|c n IH]; simpl; intros pos rest cs Hn Hr Hk.
  - rewrite Nat.add_0_r in Hk. destruct rest as [|c rest]; simpl in *; [exact Hk|].
    apply negb_true_iff in Hr. rewrite Hr. exact Hk.
  - apply andb_true_iff in Hn. destruct Hn as [Hc Hn]. rewrite Hc.
    rewrite (IH (S pos) rest cs Hn Hr); [reflexivity|].
    rewrite <- Hk. f_equal. lia.
Qed.

(** The greedy star fails when the rest of the pattern fails after every
    prefix of the run. *)
Lemma star_none R p (k : cont R) : forall n pos rest cs,
  forallb p n = true -> stops p rest = true ->
  (forall j, j <= length n -> k (pos + j) (skipn j n ++ rest) cs = None) ->
  star p pos (n ++ rest) cs k = None.
Proof.
  induction n as [|c n IH]; simpl; intros pos rest cs Hn Hr Hk.
  - specialize (Hk 0 (Nat.le_refl 0)). rewrite Nat.add_0_r in Hk. simpl in Hk.
    destruct rest as [|c rest]; simpl in *; [exact Hk|].
    apply negb_true_iff in Hr. rewrite Hr. exact Hk.
  - apply andb_true_iff in Hn. destruct Hn as [Hc Hn]. rewrite Hc.
    rewrite (IH (S pos) rest cs Hn Hr).
    + simpl. specialize (Hk 0 (Nat.le_0_l _)). rewrite Nat.add_0_r in Hk. exact Hk.
    + intros j Hj. specialize (Hk (S j) (proj1 (Nat.succ_le_mono _ _) Hj)).
      replace (S pos + j) with (pos + S j) by lia. exact Hk.
Qed.

Lemma exec_at re text from :
  from <= length text -> exec re text from = search re from (skipn from text).
Proof.
  intros H. unfold exec. destruct (Nat.ltb_spec (length text) from); [lia|reflexivity].
Qed.

Lemma skipn_le (text : str) from c s : skipn from text = c :: s -> from < length text.
Proof.
  intros H. apply (f_equal (@length char)) in H. rewrite length_skipn in H.
  simpl in H. lia.
Qed.

Lemma skipn_more (text : str) from blk s :
  skipn from text = blk ++ s -> skipn (from + length blk) text = s.
Proof.
  intros H. rewrite Nat.add_comm, <- skipn_skipn, H, skipn_app, skipn_all, Nat.sub_diag.
  reflexivity.
Qed.

Lemma skipn_bound (text : str) from blk s :
  skipn from text = blk ++ s -> blk <> [] -> from + length blk <= length text.
Proof.
  intros H Hb. apply (f_equal (@length char)) in H.
  rewrite length_skipn, length_app in H. destruct blk; [contradiction|]. simpl in *. lia.
Qed.

Lemma search_hit re pos s mat :
  match_at re pos s = Some mat -> search re pos s = Some mat.
Proof. intros H. destruct s; simpl; rewrite H; reflexivity. Qed.

Lemma search_skip re pos c s :
  match_at re pos (c :: s) = None -> search re pos (c :: s) = search re (S pos) s.
Proof. intros H. simpl. rewrite H. reflexivity. Qed.

(** A stretch of code units none of which can start a match. *)
Lemma search_skip_block re (ok : char -> bool) :
  (forall pos c s, ok c = true -> match_at re pos (c :: s) = None) ->
  forall blk pos s, forallb ok blk = true ->
  search re pos (blk ++ s) = search re (pos + length blk) s.
Proof.
  intros Hok. induction blk as [|c blk IH]; simpl; intros pos s Hb.
  - rewrite Nat.add_0_r. reflexivity.
  - apply andb_true_iff in Hb. destruct Hb as [Hc Hb].
    rewrite (Hok pos c (blk ++ s) Hc), (IH (S pos) s Hb). f_equal. lia.
Qed.

(* ------------------------------------------------------------------ *)
(** *** [TagRegexp] *)

Lemma match_at_Tag_nil pos : match_at TagRegexp pos [] = None.
Proof. reflexivity. Qed.

Lemma match_at_Tag_other pos c s :
  notLt c = true -> match_at TagRegexp pos (c :: s) = None.
Proof.
  unfold notLt, match_at, TagRegexp. intros H. apply negb_true_iff in H.
  simpl. rewrite H. reflexivity.
Qed.

Lemma match_at_Tag_start pos (n rest : str) :
  n <> [] -> forallb isTagChar n = true -> stops isTagChar rest = true ->
  match_at TagRegexp pos (ch_lt :: n ++ rest)
  = Some (mkMatch pos (pos + 1 + length n) [(1, n)]).
Proof.
  intros Hne Hn Hr. destruct n as [|y n]; [contradiction|].
  simpl in Hn. apply andb_true_iff in Hn. destruct Hn as [Hy Hn].
  unfold match_at, TagRegexp. cbn [m]. rewrite N.eqb_refl.
  cbn [app]. rewrite Hy.
  erewrite star_greedy; [reflexivity | exact Hn | exact Hr |].
  f_equal. f_equal; [cbn [length]; lia|].
  replace (S (S pos) + length n - S pos) with (length (y :: n) + 0)
    by (cbn [length]; lia).
  change (y :: n ++ rest) with ((y :: n) ++ rest).
  rewrite firstn_app_2. simpl. rewrite app_nil_r. reflexivity.
Qed.

Lemma match_at_Tag_end pos (n rest : str) :
  n <> [] -> forallb isTagChar n = true ->
  match_at TagRegexp pos (ch_lt :: ch_slash :: n ++ ch_gt :: rest)
  = Some (mkMatch pos (pos + 3 + length n) [(2, n)]).
Proof.
  intros Hne Hn. destruct n as [|y n]; [contradiction|].
  simpl in Hn. apply andb_true_iff in Hn. destruct Hn as [Hy Hn].
  unfold match_at, TagRegexp. cbn [m]. rewrite N.eqb_refl.
  change (isTagChar ch_slash) with false. cbn [orelse].
  rewrite N.eqb_refl. cbn [app]. rewrite Hy.
  erewrite star_greedy; [reflexivity | exact Hn | reflexivity |].
  rewrite N.eqb_refl.
  f_equal. f_equal; [cbn [length]; lia|].
  replace (S (S (S pos)) + length n - S (S pos)) with (length (y :: n) + 0)
    by (cbn [length]; lia).
  change (y :: n ++ ch_gt :: rest) with ((y :: n) ++ ch_gt :: rest).
  rewrite firstn_app_2. simpl. rewrite app_nil_r. reflexivity.
Qed.

Lemma exec_Tag_text (text : str) from (blk s : str) :
  skipn from text = blk ++ s -> forallb notLt blk = true ->
  exec TagRegexp text from = exec TagRegexp text (from + length blk).
Proof.
  intros H Hb. destruct blk as [|c blk].
  - simpl. rewrite Nat.add_0_r. reflexivity.
  - pose proof (skipn_bound _ _ _ _ H ltac:(discriminate)) as Hl.
    rewrite !exec_at by lia. rewrite (skipn_more _ _ _ _ H), H.
    apply search_skip_block with (ok := notLt); [|exact Hb].
    intros. apply match_at_Tag_other. assumption.
Qed.

Lemma exec_Tag_start (text : str) from (n rest : str) :
  skipn from text = ch_lt :: n ++ rest ->
  n <> [] -> forallb isTagChar n = true -> stops isTagChar rest = true ->
  exec TagRegexp text from = Some (mkMatch from (from + 1 + length n) [(1, n)]).
Proof.
  intros H Hne Hn Hr. pose proof (skipn_le _ _ _ _ H).
  rewrite exec_at by lia. rewrite H.
  apply search_hit, match_at_Tag_start; assumption.
Qed.

Lemma exec_Tag_end (text : str) from (n rest : str) :
  skipn from text = ch_lt :: ch_slash :: n ++ ch_gt :: rest ->
  n <> [] -> forallb isTagChar n = true ->
  exec TagRegexp text from = Some (mkMatch from (from + 3 + length n) [(2, n)]).
Proof.
  intros H Hne Hn. pose proof (skipn_le _ _ _ _ H).
  rewrite exec_at by lia. rewrite H.
  apply search_hit, match_at_Tag_end; assumption.
Qed.

Lemma exec_Tag_done (text : str) from (blk : str) :
  skipn from text = blk -> forallb notLt blk = true ->
  exec TagRegexp text from = None.
Proof.
  intros H Hb. unfold exec. destruct (length text <? from); [reflexivity|].
  rewrite H, <- (app_nil_r blk).
  rewrite search_skip_block with (ok := notLt); [reflexivity | | exact Hb].
  intros. apply match_at_Tag_other. assumption.
Qed.

(* ------------------------------------------------------------------ *)
(** *** One token of the forward matcher *)

Lemma length_startTag n : length (startTag n) = length n + 2.
Proof. unfold startTag. simpl. rewrite length_app. simpl. lia. Qed.

Lemma length_endTag n : length (endTag n) = length n + 3.
Proof. unfold endTag. simpl. rewrite length_app. simpl. lia. Qed.

Lemma truthy_Some (n : str) : n <> [] -> truthy (Some n) = true.
Proof. destruct n; [contradiction|reflexivity]. Qed.

Ltac token_step :=
  cbv zeta;
  cbn [groups capture Nat.eqb index lastIndex pop fst snd negb];
  change (truthy None) with false;
  cbv iota.

Section ForwardSteps.
Variables name text : str.

Lemma fwd_text from (blk s : str) stack :
  skipn from text = blk ++ s -> forallb notLt blk = true ->
  findMatchedEndTag_loop name text from stack
  = findMatchedEndTag_loop name text (from + length blk) stack.
Proof.
  intros H Hb.
  rewrite (findMatchedEndTag_loop_eq name text from),
          (findMatchedEndTag_loop_eq name text (from + length blk)).
  rewrite (exec_Tag_text _ _ _ _ H Hb). reflexivity.
Qed.

Lemma fwd_start from (n rest : str) stack :
  skipn from text = ch_lt :: n ++ rest ->
  n <> [] -> forallb isTagChar n = true -> stops isTagChar rest = true ->
  findMatchedEndTag_loop name text from stack
  = findMatchedEndTag_loop name text (from + 1 + length n) (n :: stack).
Proof.
  intros H Hne Hn Hr. rewrite findMatchedEndTag_loop_eq.
  rewrite (exec_Tag_start _ _ _ _ H Hne Hn Hr). token_step.
  rewrite (truthy_Some _ Hne). reflexivity.
Qed.

Lemma fwd_end_pop from (n rest : str) stack :
  skipn from text = ch_lt :: ch_slash :: n ++ ch_gt :: rest ->
  n <> [] -> forallb isTagChar n = true ->
  findMatchedEndTag_loop name text from (n :: stack)
  = findMatchedEndTag_loop name text (from + 3 + length n) stack.
Proof.
  intros H Hne Hn. rewrite findMatchedEndTag_loop_eq.
  rewrite (exec_Tag_end _ _ _ _ H Hne Hn). token_step.
  rewrite (truthy_Some _ Hne). token_step. rewrite str_eqb_refl. reflexivity.
Qed.

Lemma fwd_end_found from (rest : str) :
  skipn from text = ch_lt :: ch_slash :: name ++ ch_gt :: rest ->
  name <> [] -> forallb isTagChar name = true ->
  findMatchedEndTag_loop name text from [] = Some from.
Proof.
  intros H Hne Hn. rewrite findMatchedEndTag_loop_eq.
  rewrite (exec_Tag_end _ _ _ _ H Hne Hn). token_step.
  rewrite (truthy_Some _ Hne). token_step. rewrite str_eqb_refl. reflexivity.
Qed.

Lemma fwd_end_stray from (n rest : str) :
  skipn from text = ch_lt :: ch_slash :: n ++ ch_gt :: rest ->
  n <> [] -> forallb isTagChar n = true -> n <> name ->
  findMatchedEndTag_loop name text from []
  = findMatchedEndTag_loop name text (from + 3 + length n) [].
Proof.
  intros H Hne Hn Hd. rewrite findMatchedEndTag_loop_eq.
  rewrite (exec_Tag_end _ _ _ _ H Hne Hn). token_step.
  rewrite (truthy_Some _ Hne). token_step. rewrite (str_eqb_neq _ _ Hd). reflexivity.
Qed.

Lemma fwd_end_mismatch from (n rest top : str) stack :
  skipn from text = ch_lt :: ch_slash :: n ++ ch_gt :: rest ->
  n <> [] -> forallb isTagChar n = true -> top <> [] -> top <> n ->
  findMatchedEndTag_loop name text from (top :: stack) = None.
Proof.
  intros H Hne Hn Ht Hd. rewrite findMatchedEndTag_loop_eq.
  rewrite (exec_Tag_end _ _ _ _ H Hne Hn). token_step.
  rewrite (truthy_Some _ Hne), (truthy_Some _ Ht). token_step.
  rewrite (str_eqb_neq _ _ Hd). reflexivity.
Qed.
End ForwardSteps.

Lemma startTag_app (n x : str) : startTag n ++ x = (ch_lt :: n) ++ [ch_gt] ++ x.
Proof. unfold startTag. simpl. rewrite <- app_assoc. reflexivity. Qed.

Lemma endTag_app (n x : str) : endTag n ++ x = ch_lt :: ch_slash :: n ++ ch_gt :: x.
Proof. unfold endTag. simpl. rewrite <- app_assoc. reflexivity. Qed.

Section ForwardBlocks.
Variables name text : str.

Lemma fwd_startTag from (n rest : str) stack :
  skipn from text = startTag n ++ rest ->
  n <> [] -> forallb isTagChar n = true ->
  findMatchedEndTag_loop name text from stack
  = findMatchedEndTag_loop name text (from + length (startTag n)) (n :: stack).
Proof.
  intros H Hne Hn. rewrite startTag_app in H.
  rewrite (fwd_start name text from n ([ch_gt] ++ rest) stack H Hne Hn eq_refl).
  replace (from + 1 + length n) with (from + length (ch_lt :: n))
    by (cbn [length]; lia).
  apply skipn_more in H.
  rewrite (fwd_text name text _ [ch_gt] rest _ H eq_refl).
  f_equal. rewrite length_startTag. simpl. lia.
Qed.

Lemma fwd_endTag_pop from (n rest : str) stack :
  skipn from text = endTag n ++ rest ->
  n <> [] -> forallb isTagChar n = true ->
  findMatchedEndTag_loop name text from (n :: stack)
  = findMatchedEndTag_loop name text (from + length (endTag n)) stack.
Proof.
  intros H Hne Hn. rewrite endTag_app in H.
  rewrite (fwd_end_pop name text from n rest stack H Hne Hn).
  f_equal. rewrite length_endTag. lia.
Qed.

Lemma fwd_endTag_found from (rest : str) :
  skipn from text = endTag name ++ rest ->
  name <> [] -> forallb isTagChar name = true ->
  findMatchedEndTag_loop name text from [] = Some from.
Proof.
  intros H Hne Hn. rewrite endTag_app in H.
  exact (fwd_end_found name text from rest H Hne Hn).
Qed.

Lemma fwd_endTag_stray from (n rest : str) :
  skipn from text = endTag n ++ rest ->
  n <> [] -> forallb isTagChar n = true -> n <> name ->
  findMatchedEndTag_loop name text from []
  = findMatchedEndTag_loop name text (from + length (endTag n)) [].
Proof.
  intros H Hne Hn Hd. rewrite endTag_app in H.
  rewrite (fwd_end_stray name text from n rest H Hne Hn Hd).
  f_equal. rewrite length_endTag. lia.
Qed.

Lemma fwd_endTag_mismatch from (n rest top : str) stack :
  skipn from text = endTag n ++ rest ->
  n <> [] -> forallb isTagChar n = true -> top <> [] -> top <> n ->
  findMatchedEndTag_loop name text from (top :: stack) = None.
Proof.
  intros H Hne Hn Ht Hd. rewrite endTag_app in H.
  exact (fwd_end_mismatch name text from n rest top stack H Hne Hn Ht Hd).
Qed.
End ForwardBlocks.

(* ================================================================== *)
(** ** Text the blanking passes leave alone *)
(* ================================================================== *)

Ltac char_facts :=
  unfold isTagChar, isWord, isSpace, isLineTerminator, between, notLt, notAngle,
    notDquote, notSquote, ch_lt, ch_gt, ch_slash, ch_bang, ch_dash, ch_colon,
    ch_dquote, ch_squote, ch_space in *;
  repeat match goal with
  | H : _ = true |- _ =>
      first [ apply orb_true_iff in H | apply andb_true_iff in H
            | apply N.leb_le in H | apply N.eqb_eq in H | apply negb_true_iff in H ]
  | H : _ = false |- _ =>
      first [ apply orb_false_iff in H | apply andb_false_iff in H
            | apply N.leb_gt in H | apply N.eqb_neq in H | apply negb_false_iff in H ]
  | H : _ /\ _ |- _ => destruct H
  | H : _ \/ _ |- _ => destruct H
  end;
  try lia.

Lemma tagChar_not_space c : isTagChar c = true -> isSpace c = false.
Proof. intros H. destruct (isSpace c) eqn:E; [exfalso|reflexivity]. char_facts. Qed.

Lemma tagChar_not_bang c : isTagChar c = true -> (c =? ch_bang)%N = false.
Proof. intros H. destruct (c =? ch_bang)%N eqn:E; [exfalso|reflexivity]. char_facts. Qed.

Lemma tagChar_notLt c : isTagChar c = true -> notLt c = true.
Proof. intros H. destruct (notLt c) eqn:E; [reflexivity|exfalso]. char_facts. Qed.

Lemma tagChar_notDquote c : isTagChar c = true -> (c =? ch_dquote)%N = false.
Proof. intros H. destruct (c =? ch_dquote)%N eqn:E; [exfalso|reflexivity]. char_facts. Qed.

Lemma tagChar_notSquote c : isTagChar c = true -> (c =? ch_squote)%N = false.
Proof. intros H. destruct (c =? ch_squote)%N eqn:E; [exfalso|reflexivity]. char_facts. Qed.

Lemma dead_nil re : dead re [].
Proof. intros pos s. simpl. rewrite Nat.add_0_r. reflexivity. Qed.

Lemma dead_app re a b : dead re a -> dead re b -> dead re (a ++ b).
Proof.
  intros Ha Hb pos s. rewrite <- app_assoc, Ha, Hb, length_app, Nat.add_assoc.
  reflexivity.
Qed.

Lemma dead_cons re c blk :
  (forall pos s, match_at re pos (c :: blk ++ s) = None) ->
  dead re blk -> dead re (c :: blk).
Proof.
  intros Hc Hb pos s. cbn [app]. rewrite search_skip by apply Hc.
  rewrite Hb. f_equal. simpl. lia.
Qed.

Lemma dead_chars re (ok : char -> bool) :
  (forall pos c s, ok c = true -> match_at re pos (c :: s) = None) ->
  forall blk, forallb ok blk = true -> dead re blk.
Proof. intros Hok blk Hb pos s. apply search_skip_block with (ok := ok); assumption. Qed.

Lemma plain_notLt c : plain c = true -> notLt c = true.
Proof. unfold plain. intros H. apply andb_true_iff in H. destruct H as [H _].
  apply andb_true_iff in H. tauto. Qed.

Lemma forallb_impl (p q : char -> bool) (l : str) :
  (forall c, p c = true -> q c = true) -> forallb p l = true -> forallb q l = true.
Proof.
  intros Hpq. induction l as [|c l IH]; simpl; [reflexivity|].
  intros H. apply andb_true_iff in H. destruct H as [Hc Hl].
  rewrite (Hpq c Hc), (IH Hl). reflexivity.
Qed.

Lemma CommentRegexp_eq :
  CommentRegexp
  = Seq (Seq (Chr ch_lt) (Seq (Chr ch_bang) (Seq (Chr ch_dash) (Chr ch_dash))))
        (Seq (LazyStar isDot) (Seq (Chr ch_dash) (Seq (Chr ch_dash) (Chr ch_gt)))).
Proof. reflexivity. Qed.

Lemma Comment_other pos c s :
  notLt c = true -> match_at CommentRegexp pos (c :: s) = None.
Proof.
  intros H. apply negb_true_iff in H.
  unfold match_at. rewrite CommentRegexp_eq. cbn [m]. rewrite H. reflexivity.
Qed.

Lemma Comment_lt pos c s :
  (c =? ch_bang)%N = false -> match_at CommentRegexp pos (ch_lt :: c :: s) = None.
Proof.
  intros H. unfold match_at. rewrite CommentRegexp_eq. cbn [m].
  rewrite N.eqb_refl, H. reflexivity.
Qed.

Lemma Quoted_other pos c s :
  notDquote c = true -> notSquote c = true ->
  match_at QuotedRegexp pos (c :: s) = None.
Proof.
  intros Hd Hs. apply negb_true_iff in Hd. apply negb_true_iff in Hs.
  unfold match_at, QuotedRegexp. cbn [m]. rewrite Hd, Hs. reflexivity.
Qed.

Lemma SelfClosing_other pos c s :
  notLt c = true -> match_at SelfClosingRegexp pos (c :: s) = None.
Proof.
  intros H. apply negb_true_iff in H.
  unfold match_at, SelfClosingRegexp. cbn [m]. rewrite H. reflexivity.
Qed.

(** After [<] and a run of name characters the self-closing pattern
    needs white space. *)
Lemma SelfClosing_lt pos (n : str) c s :
  forallb isTagChar n = true -> isTagChar c = false -> isSpace c = false ->
  match_at SelfClosingRegexp pos (ch_lt :: n ++ c :: s) = None.
Proof.
  intros Hn Hc Hs. unfold match_at, SelfClosingRegexp. cbn [m].
  rewrite N.eqb_refl. destruct n as [|y n]; cbn [app].
  - rewrite Hc. reflexivity.
  - simpl in Hn. apply andb_true_iff in Hn. destruct Hn as [Hy Hn]. rewrite Hy.
    apply star_none; [exact Hn | simpl; rewrite Hc; reflexivity |].
    intros j Hj. destruct (skipn j n) as [|z r] eqn:E; cbn [app].
    + rewrite Hs. reflexivity.
    + assert (Hz : isTagChar z = true).
      { assert (Hin : In z n).
        { rewrite <- (firstn_skipn j n), E. apply in_or_app. right. left. reflexivity. }
        rewrite forallb_forall in Hn. apply Hn. exact Hin. }
      rewrite (tagChar_not_space z Hz). reflexivity.
Qed.

Lemma balanced_nested n name b : tagName name -> balanced b -> balanced (nested n name b).
Proof. intros Hn Hb. induction n; simpl; [exact Hb | apply balanced_elem; assumption]. Qed.

Lemma balanced_dead re b : blind re -> balanced b -> dead re b.
Proof.
  intros Hre. induction 1 as [|t Ht|n b Hn Hb IH|a b Ha IHa Hb IHb].
  - apply dead_nil.
  - apply dead_chars with (ok := plain); [apply (blind_plain re Hre) | exact Ht].
  - apply dead_app; [apply (blind_start re Hre n Hn)|].
    apply dead_app; [exact IH | apply (blind_end re Hre n Hn)].
  - apply dead_app; assumption.
Qed.

Lemma tagName_notLt n : tagName n -> forallb notLt (n ++ [ch_gt]) = true.
Proof.
  intros [_ Hn]. rewrite forallb_app. simpl.
  rewrite (forallb_impl isTagChar notLt n tagChar_notLt Hn). reflexivity.
Qed.

Lemma blind_Comment : blind CommentRegexp.
Proof.
  split.
  - intros pos c s H. apply Comment_other, plain_notLt, H.
  - intros n Hn. unfold startTag. apply dead_cons.
    + intros pos s. destruct Hn as [Hne Hn]. destruct n as [|y n]; [contradiction|].
      simpl in Hn. apply andb_true_iff in Hn. destruct Hn as [Hy _].
      cbn [app]. apply Comment_lt, tagChar_not_bang, Hy.
    + apply dead_chars with (ok := notLt); [apply Comment_other | apply tagName_notLt, Hn].
  - intros n Hn. unfold endTag. apply dead_cons.
    + intros pos s. cbn [app]. apply Comment_lt. reflexivity.
    + apply dead_chars with (ok := notLt); [apply Comment_other|].
      simpl. apply tagName_notLt, Hn.
  - reflexivity.
Qed.

Lemma blind_SelfClosing : blind SelfClosingRegexp.
Proof.
  split.
  - intros pos c s H. apply SelfClosing_other, plain_notLt, H.
  - intros n Hn. unfold startTag. apply dead_cons.
    + intros pos s. rewrite <- app_assoc. cbn [app].
      apply SelfClosing_lt; [apply Hn | reflexivity | reflexivity].
    + apply dead_chars with (ok := notLt); [apply SelfClosing_other | apply tagName_notLt, Hn].
  - intros n Hn. unfold endTag. apply dead_cons.
    + intros pos s. cbn [app].
      apply (SelfClosing_lt pos [] ch_slash); reflexivity.
    + apply dead_chars with (ok := notLt); [apply SelfClosing_other|].
      simpl. apply tagName_notLt, Hn.
  - reflexivity.
Qed.

Lemma Quoted_notQuote pos c s :
  notQuote c = true -> match_at QuotedRegexp pos (c :: s) = None.
Proof.
  unfold notQuote. intros H. apply andb_true_iff in H. destruct H.
  apply Quoted_other; assumption.
Qed.

Lemma tagName_notQuote n : tagName n -> forallb notQuote n = true.
Proof.
  intros [_ Hn]. apply (forallb_impl isTagChar notQuote n); [|exact Hn].
  intros c Hc. unfold notQuote, notDquote, notSquote.
  rewrite (tagChar_notDquote c Hc), (tagChar_notSquote c Hc). reflexivity.
Qed.

Lemma blind_Quoted : blind QuotedRegexp.
Proof.
  split.
  - intros pos c s H. unfold plain in H. apply andb_true_iff in H. destruct H as [H Hs].
    apply andb_true_iff in H. destruct H as [_ Hd]. apply Quoted_other; assumption.
  - intros n Hn. apply dead_chars with (ok := notQuote); [apply Quoted_notQuote|].
    unfold startTag. cbn [forallb]. rewrite forallb_app, (tagName_notQuote n Hn).
    reflexivity.
  - intros n Hn. apply dead_chars with (ok := notQuote); [apply Quoted_notQuote|].
    unfold endTag. cbn [forallb]. rewrite forallb_app, (tagName_notQuote n Hn).
    reflexivity.
  - reflexivity.
Qed.

Lemma firstn_plus (l : str) : forall a b,
  firstn (a + b) l = firstn a l ++ firstn b (skipn a l).
Proof.
  induction l as [|x l IH]; intros [|a] b; simpl; try reflexivity.
  - rewrite firstn_nil. reflexivity.
  - rewrite IH. reflexivity.
Qed.

Lemma substring_join (s : str) a b c :
  a <= b -> b <= c -> substring s a c = substring s a b ++ substring s b c.
Proof.
  intros Hab Hbc. unfold substring.
  replace (c - a) with ((b - a) + (c - b)) by lia.
  rewrite firstn_plus, skipn_skipn. replace (b - a + a) with b by lia. reflexivity.
Qed.

Lemma substring_prefix (p rest : str) : substring (p ++ rest) 0 (length p) = p.
Proof.
  unfold substring. rewrite Nat.sub_0_r. simpl.
  rewrite firstn_app, firstn_all, Nat.sub_diag. simpl. apply app_nil_r.
Qed.

Lemma skipn_prefix (p rest : str) : skipn (length p) (p ++ rest) = rest.
Proof. rewrite skipn_app, skipn_all, Nat.sub_diag. reflexivity. Qed.

Lemma replace_loop_same_exec re f text from from' copied :
  exec re text from = exec re text from' ->
  replace_loop re f text from copied = replace_loop re f text from' copied.
Proof.
  intros H.
  rewrite (replace_loop_eq re f text from), (replace_loop_eq re f text from'), H.
  reflexivity.
Qed.

Lemma replace_loop_copied re f text from copied :
  copied <= from ->
  replace_loop re f text from copied
  = substring text copied from ++ replace_loop re f text from from.
Proof.
  intros Hle.
  rewrite (replace_loop_eq re f text from copied), (replace_loop_eq re f text from from).
  destruct (exec re text from) as [mat|] eqn:E.
  - pose proof (exec_bounds _ _ _ _ E) as Hb.
    rewrite (substring_join text copied from (index mat)) by lia.
    rewrite <- app_assoc. reflexivity.
  - unfold sliceFrom. apply substring_split. exact Hle.
Qed.

(** A dead prefix is copied unchanged. *)
Lemma replace_dead re f (p rest : str) :
  dead re p ->
  replace re f (p ++ rest)
  = p ++ replace_loop re f (p ++ rest) (length p) (length p).
Proof.
  intros Hp. unfold replace.
  rewrite (replace_loop_same_exec re f (p ++ rest) 0 (length p) 0).
  - rewrite replace_loop_copied by lia. rewrite substring_prefix. reflexivity.
  - rewrite !exec_at by (rewrite length_app; lia).
    rewrite skipn_prefix. simpl skipn. apply Hp.
Qed.

Lemma normalize_prefix (p rest : str) :
  dead CommentRegexp p -> dead QuotedRegexp p -> dead SelfClosingRegexp p ->
  exists x, normalize (p ++ rest) = p ++ x.
Proof.
  intros Hc Hq Hs. unfold normalize.
  rewrite (replace_dead CommentRegexp replacer p rest Hc).
  rewrite (replace_dead QuotedRegexp replacer p _ Hq).
  rewrite (replace_dead SelfClosingRegexp replacer p _ Hs).
  eexists. reflexivity.
Qed.

Lemma normalize_dead (p : str) :
  dead CommentRegexp p -> dead QuotedRegexp p -> dead SelfClosingRegexp p ->
  normalize p = p.
Proof.
  intros Hc Hq Hs. destruct (normalize_prefix p [] Hc Hq Hs) as (x & Hx).
  rewrite app_nil_r in Hx. rewrite Hx.
  pose proof (blanked_length _ _ (normalize_blanked p)) as Hl.
  rewrite Hx, length_app in Hl. destruct x; [apply app_nil_r | simpl in Hl; lia].
Qed.

Lemma balanced_normalize_prefix (b rest : str) :
  balanced b -> exists x, normalize (b ++ rest) = b ++ x.
Proof.
  intros Hb. apply normalize_prefix; apply balanced_dead;
    auto using blind_Comment, blind_Quoted, blind_SelfClosing.
Qed.

Lemma balanced_normalize (b : str) : balanced b -> normalize b = b.
Proof.
  intros Hb. apply normalize_dead; apply balanced_dead;
    auto using blind_Comment, blind_Quoted, blind_SelfClosing.
Qed.

(* ================================================================== *)
(** ** The matchers on properly nested content *)
(* ================================================================== *)

Lemma plain_all_notLt (t : str) : forallb plain t = true -> forallb notLt t = true.
Proof. apply forallb_impl. exact plain_notLt. Qed.

(** The forward matcher crosses properly nested content and finds its
    stack as it was. *)
Lemma fwd_balanced name text b :
  balanced b -> forall from rest stack,
  skipn from text = b ++ rest ->
  findMatchedEndTag_loop name text from stack
  = findMatchedEndTag_loop name text (from + length b) stack.
Proof.
  induction 1 as [|t Ht|n b [Hne Hn] Hb IH|a b Ha IHa Hb IHb]; intros from rest stack H.
  - rewrite Nat.add_0_r. reflexivity.
  - apply (fwd_text name text from t rest stack H), plain_all_notLt, Ht.
  - rewrite <- !app_assoc in H.
    rewrite (fwd_startTag name text from n _ stack H Hne Hn). apply skipn_more in H.
    rewrite (IH _ _ (n :: stack) H). apply skipn_more in H.
    rewrite (fwd_endTag_pop name text _ n rest stack H Hne Hn).
    f_equal. rewrite !length_app. lia.
  - rewrite <- app_assoc in H.
    rewrite (IHa _ _ stack H). apply skipn_more in H.
    rewrite (IHb _ _ stack H). f_equal. rewrite length_app. lia.
Qed.

Section BackwardSteps.
Variables name text : str.

Lemma bwd_text from (blk s : str) stack :
  skipn from text = blk ++ s -> forallb notLt blk = true ->
  findMatchedStartTag_loop name text from stack
  = findMatchedStartTag_loop name text (from + length blk) stack.
Proof.
  intros H Hb.
  rewrite (findMatchedStartTag_loop_eq name text from),
          (findMatchedStartTag_loop_eq name text (from + length blk)).
  rewrite (exec_Tag_text _ _ _ _ H Hb). reflexivity.
Qed.

Lemma bwd_done from (blk : str) stack :
  skipn from text = blk -> forallb notLt blk = true ->
  findMatchedStartTag_loop name text from stack = stack.
Proof.
  intros H Hb. rewrite findMatchedStartTag_loop_eq.
  rewrite (exec_Tag_done _ _ _ H Hb). reflexivity.
Qed.

Lemma bwd_startTag from (n rest : str) stack :
  skipn from text = startTag n ++ rest ->
  n <> [] -> forallb isTagChar n = true ->
  findMatchedStartTag_loop name text from stack
  = findMatchedStartTag_loop name text (from + length (startTag n))
      ((n, from) :: stack).
Proof.
  intros H Hne Hn. rewrite startTag_app in H.
  rewrite findMatchedStartTag_loop_eq.
  rewrite (exec_Tag_start _ _ _ _ H Hne Hn eq_refl). token_step.
  rewrite (truthy_Some _ Hne).
  replace (from + 1 + length n) with (from + length (ch_lt :: n))
    by (cbn [length]; lia).
  apply skipn_more in H.
  rewrite (bwd_text _ [ch_gt] rest _ H eq_refl).
  f_equal. rewrite length_startTag. simpl. lia.
Qed.

Lemma bwd_endTag_pop from (n rest : str) i stack :
  skipn from text = endTag n ++ rest ->
  n <> [] -> forallb isTagChar n = true ->
  findMatchedStartTag_loop name text from ((n, i) :: stack)
  = findMatchedStartTag_loop name text (from + length (endTag n)) stack.
Proof.
  intros H Hne Hn. rewrite endTag_app in H.
  rewrite findMatchedStartTag_loop_eq.
  rewrite (exec_Tag_end _ _ _ _ H Hne Hn). token_step.
  rewrite (truthy_Some _ Hne). token_step. rewrite str_eqb_refl. cbn [negb].
  f_equal. rewrite length_endTag. lia.
Qed.

(** A popped name that differs from the end token's: the loop is left
    with what lies under the popped entry. *)
Lemma bwd_endTag_mismatch from (n rest top : str) i stack :
  skipn from text = endTag n ++ rest ->
  n <> [] -> forallb isTagChar n = true -> top <> n ->
  findMatchedStartTag_loop name text from ((top, i) :: stack) = stack.
Proof.
  intros H Hne Hn Hd. rewrite endTag_app in H.
  rewrite findMatchedStartTag_loop_eq.
  rewrite (exec_Tag_end _ _ _ _ H Hne Hn). token_step.
  rewrite (truthy_Some _ Hne). token_step. rewrite (str_eqb_neq _ _ Hd).
  reflexivity.
Qed.

(** An end token met with an empty stack: the loop is left. *)
Lemma bwd_endTag_empty from (n rest : str) :
  skipn from text = endTag n ++ rest ->
  n <> [] -> forallb isTagChar n = true ->
  findMatchedStartTag_loop name text from [] = [].
Proof.
  intros H Hne Hn. rewrite endTag_app in H.
  rewrite findMatchedStartTag_loop_eq.
  rewrite (exec_Tag_end _ _ _ _ H Hne Hn). token_step.
  rewrite (truthy_Some _ Hne). reflexivity.
Qed.

(** The backward matcher crosses properly nested content and finds
    its stack as it was. *)
Lemma bwd_balanced b :
  balanced b -> forall from rest stack,
  skipn from text = b ++ rest ->
  findMatchedStartTag_loop name text from stack
  = findMatchedStartTag_loop name text (from + length b) stack.
Proof.
  induction 1 as [|t Ht|n b [Hne Hn] Hb IH|a b Ha IHa Hb IHb];
    intros from rest stack H.
  - rewrite Nat.add_0_r. reflexivity.
  - apply (bwd_text from t rest stack H), plain_all_notLt, Ht.
  - rewrite <- !app_assoc in H.
    rewrite (bwd_startTag from n _ stack H Hne Hn). apply skipn_more in H.
    rewrite (IH _ _ _ H). apply skipn_more in H.
    rewrite (bwd_endTag_pop _ n rest from stack H Hne Hn).
    f_equal. rewrite !length_app. lia.
  - rewrite <- app_assoc in H.
    rewrite (IHa _ _ stack H). apply skipn_more in H.
    rewrite (IHb _ _ stack H). f_equal. rewrite length_app. lia.
Qed.
End BackwardSteps.

(* ================================================================== *)
(** ** An element with properly nested content *)
(* ================================================================== *)

Lemma balanced_gt (b : str) : balanced b -> balanced (ch_gt :: b).
Proof.
  intros Hb. change (ch_gt :: b) with ([ch_gt] ++ b).
  apply balanced_app; [apply balanced_text; reflexivity | exact Hb].
Qed.

Lemma dead_element_tail re (b name : str) :
  blind re -> balanced b -> tagName name -> dead re ((ch_gt :: b) ++ endTag name).
Proof.
  intros Hre Hb Hn. apply dead_app.
  - apply balanced_dead; [exact Hre | apply balanced_gt, Hb].
  - apply (blind_end re Hre name Hn).
Qed.

(** What follows the name of the start tag of an element, up to and
    including its end tag, is left as it is by [normalize]. *)
Lemma normalize_element_tail (name b rest : str) :
  tagName name -> balanced b ->
  exists x, normalize (ch_gt :: b ++ endTag name ++ rest)
            = (ch_gt :: b ++ endTag name) ++ x.
Proof.
  intros Hn Hb.
  destruct (normalize_prefix ((ch_gt :: b) ++ endTag name) rest) as (x & Hx);
    try (apply dead_element_tail;
         auto using blind_Comment, blind_Quoted, blind_SelfClosing).
  exists x.
  replace (ch_gt :: b ++ endTag name ++ rest)
    with (((ch_gt :: b) ++ endTag name) ++ rest)
    by (simpl; rewrite <- app_assoc; reflexivity).
  exact Hx.
Qed.

(** The forward matcher on that text: the end tag is found, at the
    offset of its [<]. *)
Lemma findMatchedEndTag_element (name b x : str) :
  tagName name -> balanced b ->
  findMatchedEndTag name ((ch_gt :: b ++ endTag name) ++ x) = Some (1 + length b).
Proof.
  intros [Hne Hn] Hb. unfold findMatchedEndTag.
  set (text := (ch_gt :: b ++ endTag name) ++ x).
  assert (H : skipn 0 text = (ch_gt :: b) ++ endTag name ++ x).
  { unfold text. simpl. rewrite <- app_assoc. reflexivity. }
  rewrite (fwd_balanced name text (ch_gt :: b) (balanced_gt b Hb) 0 _ [] H).
  apply skipn_more in H.
  rewrite (fwd_endTag_found name text _ x H Hne Hn). reflexivity.
Qed.

(** What precedes the end tag of an element is left as it is by
    [normalize], and the backward matcher finds the start tag. *)
Lemma normalize_element_head (name b : str) :
  tagName name -> balanced b ->
  normalize (startTag name ++ b) = startTag name ++ b.
Proof.
  intros Hn Hb.
  apply normalize_dead; (apply dead_app; [|apply balanced_dead; [|exact Hb]]);
    auto using blind_Comment, blind_Quoted, blind_SelfClosing;
    [apply (blind_start _ blind_Comment) | apply (blind_start _ blind_Quoted)
    | apply (blind_start _ blind_SelfClosing)]; exact Hn.
Qed.

Lemma findMatchedStartTag_element (anchor name b : str) :
  tagName name -> balanced b ->
  findMatchedStartTag anchor (startTag name ++ b) = Some 0.
Proof.
  intros [Hne Hn] Hb. unfold findMatchedStartTag.
  set (text := startTag name ++ b).
  assert (H : skipn 0 text = startTag name ++ b ++ []).
  { unfold text. rewrite app_nil_r. reflexivity. }
  rewrite (bwd_startTag anchor text 0 name _ [] H Hne Hn). apply skipn_more in H.
  rewrite (bwd_balanced anchor text b Hb _ _ _ H). apply skipn_more in H.
  rewrite (bwd_done anchor text _ [] _ H eq_refl). reflexivity.
Qed.

(* ================================================================== *)
(** ** The word under the cursor *)
(* ================================================================== *)

Lemma match_at_Word_other pos c s :
  isTagChar c = false -> match_at WordRegexp pos (c :: s) = None.
Proof. intros H. unfold match_at, WordRegexp. cbn [m]. rewrite H. reflexivity. Qed.

Lemma match_at_Word_run pos (w rest : str) :
  w <> [] -> forallb isTagChar w = true -> stops isTagChar rest = true ->
  match_at WordRegexp pos (w ++ rest) = Some (mkMatch pos (pos + length w) []).
Proof.
  intros Hne Hw Hr. destruct w as [|y w]; [contradiction|].
  simpl in Hw. apply andb_true_iff in Hw. destruct Hw as [Hy Hw].
  unfold match_at, WordRegexp. cbn [m app]. rewrite Hy.
  erewrite star_greedy; [reflexivity | exact Hw | exact Hr |].
  f_equal. f_equal. cbn [length]. lia.
Qed.

(** The longest prefix of name characters. *)
Lemma span_run (u : str) :
  exists r u', u = r ++ u' /\ forallb isTagChar r = true /\ stops isTagChar u' = true.
Proof.
  induction u as [|x u (r & u' & Hu & Hr & Hs)].
  - exists [], []. auto.
  - destruct (isTagChar x) eqn:Hx.
    + exists (x :: r), u'. subst u. simpl. rewrite Hx, Hr. auto.
    + exists [], (x :: u). simpl. rewrite Hx. auto.
Qed.

Lemma endsClean_tail x (u : str) : u <> [] -> endsClean (x :: u) -> endsClean u.
Proof.
  unfold endsClean. simpl. intros Hne H.
  destruct (rev u) as [|y r] eqn:E; [|exact H].
  apply (f_equal (@rev char)) in E. rewrite rev_involutive in E. contradiction.
Qed.

Lemma endsClean_suffix (r u' : str) : u' <> [] -> endsClean (r ++ u') -> endsClean u'.
Proof.
  induction r as [|x r IH]; intros Hne H; [exact H|].
  apply IH; [exact Hne|]. apply (endsClean_tail x); [|exact H].
  destruct r; [exact Hne | discriminate].
Qed.

Lemma endsClean_not_run (r : str) :
  r <> [] -> forallb isTagChar r = true -> ~ endsClean r.
Proof.
  unfold endsClean. intros Hne Hr H.
  destruct (rev r) as [|y q] eqn:E.
  - apply (f_equal (@rev char)) in E. rewrite rev_involutive in E. contradiction.
  - simpl in H. apply negb_true_iff in H.
    assert (Hin : In y r) by (apply in_rev; rewrite E; left; reflexivity).
    rewrite forallb_forall in Hr. rewrite (Hr y Hin) in H. discriminate.
Qed.

Lemma forallb_skipn (p : char -> bool) (u : str) j :
  forallb p u = true -> forallb p (skipn j u) = true.
Proof.
  intros H. rewrite forallb_forall in *. intros c Hc. apply H.
  rewrite <- (firstn_skipn j u). apply in_or_app. right. exact Hc.
Qed.

Lemma forallb_firstn (p : char -> bool) (u : str) j :
  forallb p u = true -> forallb p (firstn j u) = true.
Proof.
  intros H. rewrite forallb_forall in *. intros c Hc. apply H.
  rewrite <- (firstn_skipn j u). apply in_or_app. left. exact Hc.
Qed.

Lemma stops_firstn (p : char -> bool) (s : str) j :
  stops p s = true -> stops p (firstn j s) = true.
Proof. destruct j, s; simpl; auto. Qed.

Lemma endsClean_skipn (u : str) j : endsClean u -> endsClean (skipn j u).
Proof.
  intros H. destruct (skipn j u) as [|x r] eqn:E; [reflexivity|]. rewrite <- E.
  apply (endsClean_suffix (firstn j u)); [rewrite E; discriminate|].
  rewrite firstn_skipn. exact H.
Qed.

Lemma findRegexMatchEnclosingPosition_same_exec re text pos stopPos from from' :
  exec re text from = exec re text from' ->
  findRegexMatchEnclosingPosition re text pos stopPos from
  = findRegexMatchEnclosingPosition re text pos stopPos from'.
Proof.
  intros H.
  rewrite (findRegexMatchEnclosingPosition_eq re text pos stopPos from),
    (findRegexMatchEnclosingPosition_eq re text pos stopPos from'), H.
  reflexivity.
Qed.

(** A search that starts at a code unit of the word finds the word
    from there on. *)
Lemma find_in_word (text w post : str) pos stopPos from :
  w <> [] -> forallb isTagChar w = true -> stops isTagChar post = true ->
  skipn from text = w ++ post ->
  from <= pos <= from + length w ->
  findRegexMatchEnclosingPosition WordRegexp text pos stopPos from
  = Some (mkMatch from (from + length w) []).
Proof.
  intros Hne Hw Hpost H Hpos.
  assert (Hfrom : from + 1 <= length text).
  { apply (f_equal (@length char)) in H. rewrite length_skipn, !length_app in H.
    destruct w; [contradiction|]. simpl in H. lia. }
  rewrite findRegexMatchEnclosingPosition_eq, exec_at by lia. rewrite H.
  rewrite (search_hit _ _ _ _ (match_at_Word_run from w post Hne Hw Hpost)).
  cbn [index lastIndex].
  destruct (Nat.leb_spec from pos); [|lia].
  destruct (Nat.leb_spec pos (from + length w)); [|lia]. reflexivity.
Qed.

(** A search that starts before the word finds the word or, stopped
    on the way, nothing; it finds the word when it has no stop, or a
    stop that is not before the word. *)
Lemma find_before_word (text w post : str) pos stopPos s :
  w <> [] -> forallb isTagChar w = true -> stops isTagChar post = true ->
  s <= pos <= s + length w ->
  forall n (u : str) from,
    length u = n -> endsClean u ->
    skipn from text = u ++ w ++ post ->
    from + length u = s ->
    ((stopPos <= 0 \/ Z.of_nat s <= stopPos)%Z ->
     findRegexMatchEnclosingPosition WordRegexp text pos stopPos from
     = Some (mkMatch s (s + length w) [])) /\
    (findRegexMatchEnclosingPosition WordRegexp text pos stopPos from = None \/
     findRegexMatchEnclosingPosition WordRegexp text pos stopPos from
     = Some (mkMatch s (s + length w) [])).
Proof.
  intros Hne Hw Hpost Hpos n. induction n as [n IH] using lt_wf_ind.
  intros u from Hlen Hclean H Hs.
  assert (Hfrom : from + 1 <= length text).
  { apply (f_equal (@length char)) in H. rewrite length_skipn, !length_app in H.
    destruct w; [contradiction|]. simpl in H. lia. }
  destruct u as [|x u].
  - simpl in Hs, H. rewrite Nat.add_0_r in Hs. subst s.
    rewrite (find_in_word text w post pos stopPos from Hne Hw Hpost H Hpos). auto.
  - destruct (isTagChar x) eqn:Hx.
    + destruct (span_run (x :: u)) as (r & u' & Hu & Hr & Hsp).
      assert (Hrne : r <> []).
      { destruct r; [|discriminate]. simpl in Hu. subst u'. simpl in Hsp.
        rewrite Hx in Hsp. discriminate. }
      assert (Hune : u' <> []).
      { intros ->. rewrite app_nil_r in Hu. rewrite Hu in Hclean.
        exact (endsClean_not_run r Hrne Hr Hclean). }
      rewrite Hu in H, Hclean, Hlen, Hs. rewrite <- app_assoc in H.
      rewrite length_app in Hlen, Hs.
      assert (Hs' : stops isTagChar (u' ++ w ++ post) = true).
      { destruct u'; [contradiction | exact Hsp]. }
      rewrite findRegexMatchEnclosingPosition_eq, exec_at by lia. rewrite H.
      rewrite (search_hit _ _ _ _ (match_at_Word_run from r _ Hrne Hr Hs')).
      cbn [index lastIndex].
      assert (Hul : 0 < length u') by (destruct u'; [contradiction | simpl; lia]).
      assert (Hrl : 0 < length r) by (destruct r; [contradiction | simpl; lia]).
      destruct (Nat.leb_spec pos (from + length r)); [lia|].
      rewrite andb_false_r.
      destruct (Nat.eqb_spec (from + length r) from); [lia|].
      destruct ((0 <? stopPos) && (stopPos <? Z.of_nat from))%Z eqn:Hstop.
      * apply andb_true_iff in Hstop. destruct Hstop as [Hs0 Hs1].
        apply Z.ltb_lt in Hs0, Hs1. split; [lia | left; reflexivity].
      * apply skipn_more in H.
        exact (IH (length u') ltac:(lia) u' (from + length r) eq_refl
                 (endsClean_suffix r u' Hune Hclean) H ltac:(lia)).
    + assert (H1 : skipn (from + 1) text = u ++ w ++ post)
        by exact (skipn_more text from [x] _ H).
      assert (Hskip : exec WordRegexp text from = exec WordRegexp text (from + 1)).
      { rewrite !exec_at by lia. rewrite H1, H. cbn [app].
        rewrite search_skip by (apply match_at_Word_other, Hx).
        f_equal. lia. }
      rewrite (findRegexMatchEnclosingPosition_same_exec _ _ _ _ _ _ Hskip).
      simpl in Hlen, Hs. clear H. rename H1 into H.
      assert (Hc : endsClean u).
      { destruct u as [|y u]; [reflexivity|].
        apply (endsClean_tail x); [discriminate | exact Hclean]. }
      exact (IH (length u) ltac:(lia) u (from + 1) eq_refl Hc H ltac:(lia)).
Qed.

Lemma word_length (w : str) : w <> [] -> 0 < length w.
Proof. destruct w; [contradiction | simpl; lia]. Qed.

(** The searches of [getWordAtText] on a text of at most [maxLen] code
    units: whatever the windows, the word at a column inside or at
    either end of a run of name characters is that run. *)
Section Word.
Variables (text u w post : str) (pos : nat).
Hypothesis Htext : text = u ++ w ++ post.
Hypothesis Hne : w <> [].
Hypothesis Hw : forallb isTagChar w = true.
Hypothesis Hpost : stops isTagChar post = true.
Hypothesis Hu : endsClean u.
Hypothesis Hpos : length u <= pos <= length u + length w.

Lemma find_from_inside from stopPos :
  length u <= from <= pos -> from < length u + length w ->
  findRegexMatchEnclosingPosition WordRegexp text pos stopPos from
  = Some (mkMatch from (length u + length w) []).
Proof.
  intros Hf Hlt.
  assert (Hlen : length (skipn (from - length u) w) = length u + length w - from)
    by (rewrite length_skipn; lia).
  rewrite (find_in_word text (skipn (from - length u) w) post pos stopPos from).
  - rewrite Hlen. do 2 f_equal. lia.
  - intros E. rewrite E in Hlen. simpl in Hlen. lia.
  - apply forallb_skipn, Hw.
  - exact Hpost.
  - rewrite Htext, skipn_app, (skipn_all2 u) by lia. cbn [app].
    rewrite skipn_app. replace (from - length u - length w) with 0 by lia.
    reflexivity.
  - rewrite Hlen. lia.
Qed.

Lemma find_from_before from stopPos :
  from < length u ->
  ((stopPos <= 0 \/ Z.of_nat (length u) <= stopPos)%Z ->
   findRegexMatchEnclosingPosition WordRegexp text pos stopPos from
   = Some (mkMatch (length u) (length u + length w) [])) /\
  (findRegexMatchEnclosingPosition WordRegexp text pos stopPos from = None \/
   findRegexMatchEnclosingPosition WordRegexp text pos stopPos from
   = Some (mkMatch (length u) (length u + length w) [])).
Proof.
  intros Hf.
  apply (find_before_word text w post pos stopPos (length u) Hne Hw Hpost Hpos
           (length (skipn from u)) (skipn from u) from eq_refl).
  - apply endsClean_skipn, Hu.
  - rewrite Htext, skipn_app. replace (from - length u) with 0 by lia. reflexivity.
  - rewrite length_skipn. lia.
Qed.

Lemma searchWindows_word : forall n i prevRegexIndex mat,
  n = pos + 1 - windowSize * i -> 1 <= i ->
  (i = 1 /\ prevRegexIndex = (-1)%Z /\ mat = None) \/
  (2 <= i /\
   prevRegexIndex = (Z.of_nat pos - Z.of_nat (windowSize * (i - 1)))%Z /\
   (0 < prevRegexIndex)%Z /\
   mat = Some (mkMatch (Nat.max (length u) (Z.to_nat prevRegexIndex))
                 (length u + length w) [])) ->
  searchWindows WordRegexp text pos i prevRegexIndex mat
  = Some (mkMatch (length u) (length u + length w) []).
Proof.
  pose proof (word_length w Hne) as Hwl.
  induction n as [n IH] using lt_wf_ind. intros i prev mat Hn Hi Hinv.
  rewrite searchWindows_eq. cbv zeta.
  set (r := (Z.of_nat pos - Z.of_nat (windowSize * i))%Z).
  set (from := Z.to_nat (Z.max 0 r)).
  assert (Hfrom : from <= pos /\ from < length u + length w).
  { unfold from, r, windowSize. lia. }
  assert (Hthis :
    findRegexMatchEnclosingPosition WordRegexp text pos prev from
    = Some (mkMatch (Nat.max (length u) from) (length u + length w) []) \/
    (findRegexMatchEnclosingPosition WordRegexp text pos prev from = None /\
     mat = Some (mkMatch (length u) (length u + length w) []))).
  { destruct (Nat.le_gt_cases (length u) from) as [Hle|Hgt].
    - left. rewrite (find_from_inside from prev) by lia. do 2 f_equal. lia.
    - destruct (find_from_before from prev Hgt) as [HA HB].
      replace (Nat.max (length u) from) with (length u) by lia.
      destruct Hinv as [(_ & -> & _)|(Hi2 & Hp & Hp0 & Hm)]; [left; apply HA; lia|].
      destruct (Z.le_gt_cases (Z.of_nat (length u)) prev) as [Hs|Hs];
        [left; apply HA; lia|].
      destruct HB as [HB|HB]; [right | left; exact HB].
      split; [exact HB|]. rewrite Hm. do 2 f_equal. lia. }
  destruct Hthis as [Hthis|[Hthis Hm]].
  2:{ rewrite Hthis, Hm. reflexivity. }
  rewrite Hthis. destruct (Z.leb_spec r 0) as [Hr|Hr].
  - do 2 f_equal. unfold from. lia.
  - apply (IH (pos + 1 - windowSize * S i)); [|reflexivity|lia|].
    + unfold r, windowSize in *. lia.
    + right. repeat split; [lia| |exact Hr|].
      * unfold r. do 3 f_equal. lia.
      * do 2 f_equal. unfold from. lia.
Qed.

Lemma wordInText_word column textOffset :
  column - 1 - textOffset = pos ->
  wordInText column WordRegexp text textOffset
  = Some (textOffset + 1 + length u, textOffset + 1 + length u + length w).
Proof.
  intros Hcol. unfold wordInText. rewrite Hcol.
  rewrite (searchWindows_word (pos + 1 - windowSize * 1) 1 (-1) None eq_refl
             ltac:(lia) ltac:(left; auto)).
  cbn [index lastIndex]. do 2 f_equal. lia.
Qed.

End Word.

Lemma half_maxLen : 1 < maxLen / 2.
Proof. apply Nat.ltb_lt. reflexivity. Qed.

(** The cut text has at most [maxLen] code units, so that the call of
    [getWordAtText] on it goes to the loop. *)
Lemma cut_length (text : str) column :
  length (substring text (column - maxLen / 2) (column + maxLen / 2)) <= maxLen.
Proof.
  assert (H : maxLen = maxLen / 2 + maxLen / 2) by reflexivity.
  unfold substring. rewrite length_firstn. lia.
Qed.

(** The word [getWordAtText] finds at a column inside or at either end
    of a run of name characters: the run, or on a line of more than
    [maxLen] code units what the cut leaves of it. *)
Lemma getWordAtText_word (text u w post : str) c :
  text = u ++ w ++ post ->
  w <> [] -> forallb isTagChar w = true -> stops isTagChar post = true ->
  endsClean u ->
  length u <= c <= length u + length w ->
  getWordAtText (c + 1) WordRegexp text 0
  = if maxLen <? length text
    then Some (Nat.max (length u) (c + 1 - maxLen / 2) + 1,
               Nat.min (length u + length w) (c + 1 + maxLen / 2) + 1)
    else Some (length u + 1, length u + length w + 1).
Proof.
  intros Htext Hne Hw Hpost Hu Hc. unfold getWordAtText.
  pose proof half_maxLen as Hh. pose proof (word_length w Hne) as Hwl.
  destruct (maxLen <? length text).
  2:{ rewrite (wordInText_word text u w post c Htext Hne Hw Hpost Hu Hc (c + 1) 0)
        by lia.
      f_equal. f_equal; lia. }
  set (h := maxLen / 2) in *. set (st := c + 1 - h).
  assert (Hcut :
    (if (Z.of_nat (c + 1) - Z.of_nat h <? 0)%Z
     then wordInText (c + 1) WordRegexp (substring text 0 (c + 1 + h)) 0
     else wordInText (c + 1) WordRegexp
            (substring text (Z.to_nat (Z.of_nat (c + 1) - Z.of_nat h)) (c + 1 + h))
            (0 + Z.to_nat (Z.of_nat (c + 1) - Z.of_nat h)))
    = wordInText (c + 1) WordRegexp (substring text st (c + 1 + h)) st).
  { destruct (Z.ltb_spec (Z.of_nat (c + 1) - Z.of_nat h) 0).
    - replace st with 0 by (unfold st; lia). reflexivity.
    - replace (Z.to_nat (Z.of_nat (c + 1) - Z.of_nat h)) with st by (unfold st; lia).
      reflexivity. }
  rewrite Hcut. clear Hcut.
  set (k := c + 1 + h - st).
  set (U := skipn st u). set (W0 := skipn (st - length u) w).
  set (W := firstn (k - length U) W0).
  set (P := firstn (k - length U - length W0) post).
  assert (HU : length U = length u - st) by (unfold U; apply length_skipn).
  assert (HW0 : length W0 = length w - (st - length u))
    by (unfold W0; apply length_skipn).
  assert (HW : length W = Nat.min (k - length U) (length W0))
    by (unfold W; apply length_firstn).
  assert (Hsub : substring text st (c + 1 + h) = U ++ W ++ P).
  { unfold substring. fold k. rewrite Htext, skipn_app, skipn_app. fold U W0.
    replace (st - length u - length w) with 0 by (unfold st; lia). cbn [skipn].
    rewrite firstn_app, firstn_app, (firstn_all2 U) by (unfold k, st; lia).
    reflexivity. }
  rewrite Hsub.
  rewrite (wordInText_word (U ++ W ++ P) U W P (c - st) eq_refl).
  - f_equal. unfold k, st in *. f_equal; lia.
  - intros E. rewrite E in HW. cbn [length] in HW. unfold k, st in *. lia.
  - apply forallb_firstn, forallb_skipn, Hw.
  - apply stops_firstn, Hpost.
  - apply endsClean_skipn, Hu.
  - unfold k, st in *. lia.
  - unfold st. lia.
Qed.

(** No part of the word is cut away: the line has at most [maxLen] code
    units, or the word is shorter than half of that. *)
Lemma getWordAtText_fits (text u w post : str) c :
  text = u ++ w ++ post ->
  w <> [] -> forallb isTagChar w = true -> stops isTagChar post = true ->
  endsClean u ->
  length u <= c <= length u + length w ->
  wordFits text w ->
  getWordAtText (c + 1) WordRegexp text 0
  = Some (length u + 1, length u + length w + 1).
Proof.
  intros Htext Hne Hw Hpost Hu Hc Hfit.
  rewrite (getWordAtText_word text u w post c Htext Hne Hw Hpost Hu Hc).
  destruct (Nat.ltb_spec maxLen (length text)) as [Hlong|]; [|reflexivity].
  destruct Hfit as [Hfit|Hfit]; [lia|]. f_equal. f_equal; lia.
Qed.

(* ================================================================== *)
(** ** Positions, offsets and the lines of a document *)
(* ================================================================== *)

Lemma indexOf_cons sep (x y : str) ls k o :
  indexOf sep (x :: y :: ls) k o
  = if o <? length x + sep then (k, o)
    else indexOf sep (y :: ls) (S k) (o - (length x + sep)).
Proof. reflexivity. Qed.

Lemma indexOf_lineStart sep : forall (ls : list str) k l c,
  l < length ls -> c < length (nth l ls []) ->
  indexOf sep ls k (lineStart sep ls l + c) = (k + l, c).
Proof.
  induction ls as [|x ls IH]; intros k l c Hl Hc; [simpl in Hl; lia|].
  destruct l as [|l].
  - cbn [lineStart nth] in *. rewrite Nat.add_0_r. cbn [indexOf Nat.add].
    destruct ls; [reflexivity|].
    destruct (Nat.ltb_spec c (length x + sep)); [reflexivity|lia].
  - cbn [lineStart nth length] in *.
    destruct ls as [|y ls]; [simpl in Hl; lia|].
    rewrite indexOf_cons.
    destruct (Nat.ltb_spec (length x + sep + lineStart sep (y :: ls) l + c)
                (length x + sep)); [lia|].
    replace (length x + sep + lineStart sep (y :: ls) l + c - (length x + sep))
      with (lineStart sep (y :: ls) l + c) by lia.
    rewrite (IH (S k) l c) by (simpl in *; lia). f_equal. lia.
Qed.

Lemma skipn_lineStart (sep : str) : forall (ls : list str) l,
  l < length ls ->
  exists tail, skipn (lineStart (length sep) ls l) (join sep ls) = nth l ls [] ++ tail /\
               (tail = [] \/ exists more, tail = sep ++ more).
Proof.
  induction ls as [|x ls IH]; intros l Hl; [simpl in Hl; lia|].
  destruct l as [|l].
  - cbn [lineStart nth skipn]. destruct ls.
    + exists []. split; [simpl; symmetry; apply app_nil_r | left; reflexivity].
    + eexists. split; [reflexivity | right; eexists; reflexivity].
  - destruct ls as [|y ls]; [simpl in Hl; lia|].
    destruct (IH l ltac:(simpl in *; lia)) as (tail & Ht & Hb).
    exists tail. split; [|exact Hb]. cbn [lineStart nth join].
    rewrite app_assoc, <- length_app, Nat.add_comm, <- skipn_skipn, skipn_prefix.
    exact Ht.
Qed.

Lemma indexOf_lineStart_le sep : 0 < sep -> forall (ls : list str) k l c,
  l < length ls -> c <= length (nth l ls []) ->
  indexOf sep ls k (lineStart sep ls l + c) = (k + l, c).
Proof.
  intros Hsep. induction ls as [|x ls IH]; intros k l c Hl Hc; [simpl in Hl; lia|].
  destruct l as [|l].
  - cbn [lineStart nth] in *. rewrite Nat.add_0_r. cbn [indexOf Nat.add].
    destruct ls; [reflexivity|].
    destruct (Nat.ltb_spec c (length x + sep)); [reflexivity|lia].
  - cbn [lineStart nth length] in *.
    destruct ls as [|y ls]; [simpl in Hl; lia|].
    rewrite indexOf_cons.
    destruct (Nat.ltb_spec (length x + sep + lineStart sep (y :: ls) l + c)
                (length x + sep)); [lia|].
    replace (length x + sep + lineStart sep (y :: ls) l + c - (length x + sep))
      with (lineStart sep (y :: ls) l + c) by lia.
    rewrite (IH (S k) l c) by (simpl in *; lia). f_equal. lia.
Qed.

Lemma newRange_at l a b : a <= b -> newRange (at_ l a) (at_ l b) = rangeAt l a b.
Proof.
  intros H. unfold newRange, isBefore, at_. cbn [line character].
  rewrite Z.ltb_irrefl, Z.eqb_refl. cbn [orb andb].
  destruct (Z.ltb_spec (Z.of_nat b) (Z.of_nat a)); [lia|reflexivity].
Qed.

Section Line.
Variables (doc : TextDocument) (l : nat).
Hypothesis Hl : l < length (lines doc).

Lemma validatePosition_at c :
  c <= length (lineAt doc l) -> validatePosition doc (at_ l c) = at_ l c.
Proof.
  intros Hc. unfold validatePosition, at_. cbn [line character].
  destruct (Z.eqb_spec (Z.of_nat (length (lines doc))) 0); [lia|].
  destruct (Z.ltb_spec (Z.of_nat l) 0); [lia|].
  destruct (Z.geb_spec (Z.of_nat l) (Z.of_nat (length (lines doc)))); [lia|].
  rewrite Nat2Z.id. f_equal. lia.
Qed.

Lemma offsetAt_at c :
  c <= length (lineAt doc l) ->
  offsetAt doc (at_ l c) = Z.of_nat (lineOffset doc l + c).
Proof.
  intros Hc. unfold offsetAt. rewrite (validatePosition_at c Hc).
  unfold at_, lineOffset. cbn [line character]. rewrite Nat2Z.id. lia.
Qed.

Lemma positionAt_at c :
  c < length (lineAt doc l) ->
  positionAt doc (Z.of_nat (lineOffset doc l + c)) = at_ l c.
Proof.
  intros Hc. unfold positionAt, lineOffset.
  replace (Z.to_nat (Z.max 0 (Z.of_nat (lineStart (length (eol doc)) (lines doc) l + c))))
    with (lineStart (length (eol doc)) (lines doc) l + c) by lia.
  rewrite (indexOf_lineStart (length (eol doc)) (lines doc) 0 l c Hl Hc).
  cbn [Nat.add]. unfold at_. f_equal. fold (lineAt doc l). lia.
Qed.

Lemma getText_break :
  exists tail, skipn (lineOffset doc l) (getText doc) = lineAt doc l ++ tail /\
               (tail = [] \/ exists more, tail = eol doc ++ more).
Proof. apply skipn_lineStart. exact Hl. Qed.

Lemma getText_at :
  exists tail, skipn (lineOffset doc l) (getText doc) = lineAt doc l ++ tail.
Proof. destruct getText_break as (tail & H & _). exists tail. exact H. Qed.

Lemma getTextIn_at a b :
  a <= b -> b <= length (lineAt doc l) ->
  getTextIn doc (rangeAt l a b) = substring (lineAt doc l) a b.
Proof.
  intros Hab Hb. unfold getTextIn, validateRange, rangeAt. cbn [start end_].
  rewrite !validatePosition_at by lia.
  unfold at_. cbn [line character]. rewrite !Nat2Z.id, Nat.eqb_refl. reflexivity.
Qed.

Lemma prev_at c k :
  k <= c -> c <= length (lineAt doc l) ->
  prev doc (at_ l c) (Z.of_nat k) = Ok (substring (lineAt doc l) (c - k) c).
Proof.
  intros Hk Hc. unfold prev, newPosition, bind, at_. cbn [line character].
  destruct (Z.ltb_spec (Z.of_nat l) 0); [lia|].
  destruct (Z.ltb_spec (Z.of_nat c - Z.of_nat k) 0); [lia|].
  destruct (Z.ltb_spec (Z.of_nat c) 0); [lia|].
  replace (Z.of_nat c - Z.of_nat k)%Z with (Z.of_nat (c - k)) by lia.
  change (mkPosition (Z.of_nat l) (Z.of_nat (c - k))) with (at_ l (c - k)).
  change (mkPosition (Z.of_nat l) (Z.of_nat c)) with (at_ l c).
  rewrite newRange_at by lia. rewrite getTextIn_at by lia. reflexivity.
Qed.

Lemma prev_at_1 c :
  1 <= c -> c <= length (lineAt doc l) ->
  prev doc (at_ l c) 1 = Ok (substring (lineAt doc l) (c - 1) c).
Proof. exact (prev_at c 1). Qed.

Lemma prev_at_2 c :
  2 <= c -> c <= length (lineAt doc l) ->
  prev doc (at_ l c) 2 = Ok (substring (lineAt doc l) (c - 2) c).
Proof. exact (prev_at c 2). Qed.

(** [new Position] refuses the negative column. *)
Lemma prev_at_throws c k :
  c < k ->
  prev doc (at_ l c) (Z.of_nat k) = Throw "Illegal argument: character must be non-negative".
Proof.
  intros Hk. unfold prev, newPosition, bind, at_. cbn [line character].
  destruct (Z.ltb_spec (Z.of_nat l) 0); [lia|].
  destruct (Z.ltb_spec (Z.of_nat c - Z.of_nat k) 0); [reflexivity|lia].
Qed.

Lemma prev_at_throws_1 c :
  c < 1 -> prev doc (at_ l c) 1 = Throw "Illegal argument: character must be non-negative".
Proof. exact (prev_at_throws c 1). Qed.

Lemma prev_at_throws_2 c :
  c < 2 -> prev doc (at_ l c) 2 = Throw "Illegal argument: character must be non-negative".
Proof. exact (prev_at_throws c 2). Qed.

Lemma next_at c :
  c + 1 <= length (lineAt doc l) ->
  next doc (at_ l c) 1 = Ok (substring (lineAt doc l) c (c + 1)).
Proof.
  intros Hc. unfold next, newPosition, bind, at_. cbn [line character].
  destruct (Z.ltb_spec (Z.of_nat l) 0); [lia|].
  destruct (Z.ltb_spec (Z.of_nat c) 0); [lia|].
  destruct (Z.ltb_spec (Z.of_nat c + 1) 0); [lia|].
  replace (Z.of_nat c + 1)%Z with (Z.of_nat (c + 1)) by lia.
  change (mkPosition (Z.of_nat l) (Z.of_nat (c + 1))) with (at_ l (c + 1)).
  change (mkPosition (Z.of_nat l) (Z.of_nat c)) with (at_ l c).
  rewrite newRange_at by lia. rewrite getTextIn_at by lia. reflexivity.
Qed.

(** The word under the cursor, for a cursor inside or at either end of
    a run of name characters of the line: the run, or on a line of more
    than [maxLen] code units what the cut leaves of it. *)
Lemma getWordRangeAtPosition_window (u w post : str) c :
  lineAt doc l = u ++ w ++ post ->
  w <> [] -> forallb isTagChar w = true -> stops isTagChar post = true ->
  endsClean u ->
  length u <= c <= length u + length w ->
  getWordRangeAtPosition doc (at_ l c) WordRegexp
  = if maxLen <? length (lineAt doc l)
    then Some (rangeAt l (Nat.max (length u) (c + 1 - maxLen / 2))
                 (Nat.min (length u + length w) (c + 1 + maxLen / 2)))
    else Some (rangeAt l (length u) (length u + length w)).
Proof.
  intros HL Hne Hw Hpost Hu Hc. unfold getWordRangeAtPosition.
  assert (Hlen : c <= length (lineAt doc l)) by (rewrite HL, !length_app; lia).
  rewrite (validatePosition_at c Hlen).
  unfold at_ at 1 2 3. cbn [line character]. rewrite !Nat2Z.id.
  rewrite (getWordAtText_word (lineAt doc l) u w post c HL Hne Hw Hpost Hu Hc).
  destruct (maxLen <? length (lineAt doc l)); unfold rangeAt, at_;
    rewrite !Nat.add_sub; reflexivity.
Qed.

Lemma getWordRangeAtPosition_at (u w post : str) c :
  lineAt doc l = u ++ w ++ post ->
  w <> [] -> forallb isTagChar w = true -> stops isTagChar post = true ->
  endsClean u ->
  length u <= c <= length u + length w ->
  wordFits (lineAt doc l) w ->
  getWordRangeAtPosition doc (at_ l c) WordRegexp
  = Some (rangeAt l (length u) (length u + length w)).
Proof.
  intros HL Hne Hw Hpost Hu Hc Hfit. unfold getWordRangeAtPosition.
  assert (Hlen : c <= length (lineAt doc l)) by (rewrite HL, !length_app; lia).
  rewrite (validatePosition_at c Hlen).
  unfold at_ at 1 2 3. cbn [line character]. rewrite !Nat2Z.id.
  rewrite (getWordAtText_fits (lineAt doc l) u w post c HL Hne Hw Hpost Hu Hc Hfit).
  unfold rangeAt, at_. rewrite !Nat.add_sub. reflexivity.
Qed.

(** A stretch of the document text that lies within the line. *)
Lemma line_window o c (w rest : str) :
  skipn o (getText doc) = w ++ rest ->
  lineOffset doc l + c = o ->
  c + length w <= length (lineAt doc l) ->
  skipn c (lineAt doc l) = w ++ skipn (c + length w) (lineAt doc l).
Proof.
  intros Ho Hoff Hfit. destruct getText_at as (tail & Ht).
  assert (H : skipn c (lineAt doc l) ++ tail = w ++ rest).
  { rewrite <- Ho, <- Hoff, Nat.add_comm, <- skipn_skipn, Ht, skipn_app.
    replace (c - length (lineAt doc l)) with 0 by lia. reflexivity. }
  apply (f_equal (firstn (length w))) in H.
  rewrite firstn_app, length_skipn in H.
  replace (length w - (length (lineAt doc l) - c)) with 0 in H by lia.
  rewrite firstn_O, app_nil_r in H.
  replace (length w) with (length w + 0) in H at 2 by lia.
  rewrite firstn_app_2, firstn_O, app_nil_r in H.
  rewrite <- (firstn_skipn (length w) (skipn c (lineAt doc l))) at 1.
  rewrite H, skipn_skipn, (Nat.add_comm (length w) c). reflexivity.
Qed.

(** The line taken apart around such a stretch. *)
Lemma line_around o c (w rest : str) :
  skipn o (getText doc) = w ++ rest ->
  lineOffset doc l + c = o ->
  c + length w <= length (lineAt doc l) ->
  lineAt doc l
  = firstn c (lineAt doc l) ++ w ++ skipn (c + length w) (lineAt doc l)
  /\ length (firstn c (lineAt doc l)) = c.
Proof.
  intros Ho Hoff Hfit. split.
  - rewrite <- (line_window o c w rest Ho Hoff Hfit). symmetry. apply firstn_skipn.
  - apply firstn_length_le. lia.
Qed.

(** What follows such a stretch in the document text is the rest of
    the line, and then the end of the text or a line break. *)
Lemma line_rest o c (w rest : str) :
  skipn o (getText doc) = w ++ rest ->
  lineOffset doc l + c = o ->
  c + length w <= length (lineAt doc l) ->
  exists tail,
    skipn (c + length w) (lineAt doc l) ++ tail = rest /\
    (tail = [] \/ exists more, tail = eol doc ++ more).
Proof.
  intros Ho Hoff Hfit. destruct getText_break as (tail & Ht & Hb).
  exists tail. split; [|exact Hb].
  assert (H : skipn c (lineAt doc l) ++ tail = w ++ rest).
  { rewrite <- Ho, <- Hoff, Nat.add_comm, <- skipn_skipn, Ht, skipn_app.
    replace (c - length (lineAt doc l)) with 0 by lia. reflexivity. }
  rewrite (line_window o c w rest Ho Hoff Hfit), <- app_assoc in H.
  exact (app_inv_head _ _ _ H).
Qed.

(** With a line break that is not empty, an offset at the end of a
    line is a position on that line. *)
Lemma positionAt_at_le c :
  eol doc <> [] ->
  c <= length (lineAt doc l) ->
  positionAt doc (Z.of_nat (lineOffset doc l + c)) = at_ l c.
Proof.
  intros He Hc. unfold positionAt, lineOffset.
  replace (Z.to_nat (Z.max 0 (Z.of_nat (lineStart (length (eol doc)) (lines doc) l + c))))
    with (lineStart (length (eol doc)) (lines doc) l + c) by lia.
  rewrite (indexOf_lineStart_le (length (eol doc)) (word_length _ He)
             (lines doc) 0 l c Hl Hc).
  cbn [Nat.add]. unfold at_. f_equal. fold (lineAt doc l). lia.
Qed.
End Line.

Lemma lineBreak_eol (doc : TextDocument) : lineBreak doc -> eol doc <> [].
Proof. intros [H|H]; rewrite H; discriminate. Qed.

(* ================================================================== *)
(** ** The self-closing test and [slice] *)
(* ================================================================== *)

Lemma search_SelfClosed_later : forall (s : str) pos,
  search SelfClosedRegexp (S pos) s = None.
Proof.
  induction s as [|c s IH]; intros pos; [reflexivity|].
  rewrite search_skip by reflexivity. apply IH.
Qed.

(** After [>] the start tag is not self-closing. *)
Lemma test_SelfClosed_gt (s : str) : test SelfClosedRegexp (ch_gt :: s) = false.
Proof.
  unfold test, exec. cbn [length Nat.ltb Nat.leb skipn].
  rewrite search_skip by reflexivity.
  rewrite search_SelfClosed_later. reflexivity.
Qed.

(** Before [/>] it is. *)
Lemma test_SelfClosed_slash (s : str) :
  test SelfClosedRegexp (ch_slash :: ch_gt :: s) = true.
Proof. reflexivity. Qed.

Lemma slice_from (s : str) a :
  a <= length s -> slice s (Z.of_nat a) None = skipn a s.
Proof.
  intros Ha. unfold slice, substring.
  destruct (Z.ltb_spec (Z.of_nat a) 0); [lia|].
  rewrite Z.min_l by lia. rewrite !Nat2Z.id.
  apply firstn_all2. rewrite length_skipn. lia.
Qed.

Lemma slice_to (s : str) e :
  e <= length s -> slice s 0 (Some (Z.of_nat e)) = firstn e s.
Proof.
  intros He. unfold slice, substring.
  change (0 <? 0)%Z with false. cbv iota.
  destruct (Z.ltb_spec (Z.of_nat e) 0); [lia|].
  rewrite Z.min_l by lia. rewrite (Z.min_l 0) by lia.
  rewrite Nat2Z.id. change (Z.to_nat 0) with 0. rewrite Nat.sub_0_r. reflexivity.
Qed.

(* ================================================================== *)
(** ** The paths through the provider *)
(* ================================================================== *)

Section Paths.
Variables (doc : TextDocument) (pos : Position) (anchor : Range).
Hypothesis Hword : getWordRangeAtPosition doc pos WordRegexp = Some anchor.

Lemma path_self_closing :
  prev doc (start anchor) 1 = Ok (lit "<") ->
  test SelfClosedRegexp (nextTextOf doc anchor) = true ->
  provideDocumentHighlights doc pos = Ok [mkDocumentHighlight anchor].
Proof.
  intros Hp Ht. unfold provideDocumentHighlights. rewrite Hword, Hp.
  cbn [bind]. rewrite str_eqb_refl. fold (nextTextOf doc anchor). rewrite Ht. reflexivity.
Qed.

Lemma path_start_found i :
  prev doc (start anchor) 1 = Ok (lit "<") ->
  test SelfClosedRegexp (nextTextOf doc anchor) = false ->
  findMatchedEndTag (getTextIn doc anchor) (nextTextOf doc anchor) = Some i ->
  provideDocumentHighlights doc pos
  = Ok [mkDocumentHighlight anchor;
        mkDocumentHighlight
          (newRange
             (positionAt doc (offsetAt doc (end_ anchor) + Z.of_nat i + 2))
             (positionAt doc (offsetAt doc (end_ anchor) + Z.of_nat i + 2
                              + Z.of_nat (length (getTextIn doc anchor)))))].
Proof.
  intros Hp Ht Hf. unfold provideDocumentHighlights. rewrite Hword, Hp.
  cbn [bind]. rewrite str_eqb_refl. fold (nextTextOf doc anchor). rewrite Ht, Hf. reflexivity.
Qed.

Lemma path_start_lost :
  prev doc (start anchor) 1 = Ok (lit "<") ->
  test SelfClosedRegexp (nextTextOf doc anchor) = false ->
  findMatchedEndTag (getTextIn doc anchor) (nextTextOf doc anchor) = None ->
  provideDocumentHighlights doc pos = Ok [mkDocumentHighlight anchor].
Proof.
  intros Hp Ht Hf. unfold provideDocumentHighlights. rewrite Hword, Hp.
  cbn [bind]. rewrite str_eqb_refl. fold (nextTextOf doc anchor). rewrite Ht, Hf. reflexivity.
Qed.

Lemma path_end_found (p1 : str) i :
  prev doc (start anchor) 1 = Ok p1 -> p1 <> lit "<" ->
  prev doc (start anchor) 2 = Ok (lit "</") ->
  next doc (end_ anchor) 1 = Ok (lit ">") ->
  findMatchedStartTag (getTextIn doc anchor) (prevTextOf doc anchor) = Some i ->
  provideDocumentHighlights doc pos
  = Ok [mkDocumentHighlight anchor;
        mkDocumentHighlight
          (newRange
             (positionAt doc (Z.of_nat i + 1))
             (positionAt doc (Z.of_nat i + 1
                              + Z.of_nat (length (getTextIn doc anchor)))))].
Proof.
  intros Hp Hd Hp2 Hn Hf. unfold provideDocumentHighlights.
  rewrite Hword, Hp. cbn [bind]. rewrite (str_eqb_neq _ _ Hd), Hp2.
  cbn [bind]. rewrite str_eqb_refl, Hn. cbn [bind]. rewrite str_eqb_refl.
  fold (prevTextOf doc anchor). rewrite Hf. reflexivity.
Qed.
End Paths.

(** C6, as the code has it: the offset [findMatchedEndTag] returns is the
    index of the [<] that opens the matching end tag; the two code units
    there are [</], the tag name starts two code units later and is
    followed by [>].  The provider, with the cursor on the name of a
    start tag, adds 2 to that offset when it builds the range of the
    end name: the range starts at offset [offsetAt(range.end) + i + 2]
    of the document and has the length of the name. *)
Theorem findMatchedEndTag_offset : forall (name text : str) (i : nat),
  findMatchedEndTag name text = Some i ->
  substring text i (i + 2) = lit "</" /\
  substring text (i + 2) (i + 2 + length name) = name /\
  substring text (i + 2 + length name) (i + 2 + length name + 1) = lit ">" /\
  (forall (doc : TextDocument) (pos : Position) (anchor : Range),
     getWordRangeAtPosition doc pos WordRegexp = Some anchor ->
     prev doc (start anchor) 1 = Ok (lit "<") ->
     getTextIn doc anchor = name ->
     nextTextOf doc anchor = text ->
     test SelfClosedRegexp text = false ->
     provideDocumentHighlights doc pos
     = Ok [mkDocumentHighlight anchor;
           mkDocumentHighlight
             (newRange
                (positionAt doc (offsetAt doc (end_ anchor) + Z.of_nat i + 2))
                (positionAt doc (offsetAt doc (end_ anchor) + Z.of_nat i + 2
                                 + Z.of_nat (length name))))]).
Proof.
  intros name text i Hfind. pose proof Hfind as H.
  apply findMatchedEndTag_loop_found in H.
  destruct H as (rest & H).
  assert (H2 : skipn (i + 2) text = name ++ ch_gt :: rest).
  { rewrite Nat.add_comm, <- skipn_skipn, H. reflexivity. }
  assert (H3 : skipn (i + 2 + length name) text = [ch_gt] ++ rest).
  { rewrite Nat.add_comm, <- skipn_skipn, H2, skipn_app, skipn_all, Nat.sub_diag.
    reflexivity. }
  split; [|split; [|split]].
  - apply substring_skipn with (rest := name ++ ch_gt :: rest); [exact H | reflexivity].
  - apply substring_skipn with (rest := ch_gt :: rest); [exact H2 | reflexivity].
  - apply substring_skipn with (rest := rest); [exact H3 | reflexivity].
  - intros doc pos anchor Hword Hprev Hname Hnext Htest.
    rewrite (path_start_found doc pos anchor Hword i Hprev);
      rewrite ?Hname, ?Hnext; auto.
Qed.

Lemma findMatchedEndTag_offset_witness :
  let doc := mkTextDocument [lit "<view>x</view>"] [ch_lf] in
  substring (lit ">x</view>") 2 (2 + 2) = lit "</" /\
  substring (lit ">x</view>") (2 + 2) (2 + 2 + length (lit "view")) = lit "view" /\
  substring (lit ">x</view>") (2 + 2 + length (lit "view"))
    (2 + 2 + length (lit "view") + 1) = lit ">" /\
  provideDocumentHighlights doc (at_ 0 1)
  = Ok [mkDocumentHighlight (rangeAt 0 1 5);
        mkDocumentHighlight
          (newRange
             (positionAt doc (offsetAt doc (end_ (rangeAt 0 1 5)) + Z.of_nat 2 + 2))
             (positionAt doc (offsetAt doc (end_ (rangeAt 0 1 5)) + Z.of_nat 2 + 2
                              + Z.of_nat (length (lit "view")))))].
Proof.
  intros doc.
  destruct (findMatchedEndTag_offset (lit "view") (lit ">x</view>") 2 eq_refl)
    as (A & B & C & D).
  split; [exact A | split; [exact B | split; [exact C|]]].
  apply (D doc (at_ 0 1) (rangeAt 0 1 5)); reflexivity.
Defined.

(* ================================================================== *)
(** ** What may precede an element *)
(* ================================================================== *)

Lemma opening_dead re p : blind re -> opening p -> dead re p.
Proof.
  intros Hre. induction 1 as [|p b Hp IH Hb|p n Hp IH Hn].
  - apply dead_nil.
  - apply dead_app; [exact IH | apply balanced_dead; assumption].
  - apply dead_app; [exact IH | apply (blind_start re Hre n Hn)].
Qed.

(** The backward matcher crosses such a text without leaving its loop. *)
Lemma bwd_opening name text p :
  opening p -> forall from rest stack,
  skipn from text = p ++ rest ->
  exists stack',
    findMatchedStartTag_loop name text from stack
    = findMatchedStartTag_loop name text (from + length p) stack'.
Proof.
  induction 1 as [|p b Hp IH Hb|p n Hp IH [Hne Hn]]; intros from rest stack H.
  - exists stack. rewrite Nat.add_0_r. reflexivity.
  - rewrite <- app_assoc in H. destruct (IH from _ stack H) as (st & Hst).
    exists st. rewrite Hst. apply skipn_more in H.
    rewrite (bwd_balanced name text b Hb _ _ st H).
    f_equal. rewrite length_app. lia.
  - rewrite <- app_assoc in H. destruct (IH from _ stack H) as (st & Hst).
    apply skipn_more in H. eexists. rewrite Hst.
    rewrite (bwd_startTag name text _ n rest st H Hne Hn).
    f_equal. rewrite length_app. lia.
Qed.

(* ================================================================== *)
(** ** A mismatch in the backward matcher *)
(* ================================================================== *)

(** C4: the backward matcher leaves its loop at a mismatch, and then
    returns the entry on top of what is left of the stack.  When an
    element [a] is open around the start tag [b] whose name is popped
    against the end token [c], the offset of [<a] comes back, whatever
    follows; the forward matcher reports no match at the same mismatch.
    An end token met with an empty stack gives no match. *)
Theorem findMatchedStartTag_mismatch_returns_top :
  forall (anchor p a x b y c rest : str),
    opening p -> tagName a -> balanced x -> tagName b -> balanced y ->
    tagName c -> b <> c ->
    findMatchedStartTag anchor
      (p ++ startTag a ++ x ++ startTag b ++ y ++ endTag c ++ rest)
    = Some (length p) /\
    findMatchedEndTag a (ch_gt :: x ++ startTag b ++ y ++ endTag c ++ rest) = None /\
    findMatchedStartTag anchor (x ++ endTag c ++ rest) = None.
Proof.
  intros anchor p a x b y c rest Hp [Hane Ha] Hx [Hbne Hb] Hy [Hcne Hc] Hd.
  repeat split.
  - unfold findMatchedStartTag.
    set (text := p ++ startTag a ++ x ++ startTag b ++ y ++ endTag c ++ rest).
    assert (H : skipn 0 text
                = p ++ startTag a ++ x ++ startTag b ++ y ++ endTag c ++ rest)
      by reflexivity.
    destruct (bwd_opening anchor text p Hp 0 _ [] H) as (st & Hst).
    rewrite Hst. apply skipn_more in H.
    rewrite (bwd_startTag anchor text _ a _ st H Hane Ha). apply skipn_more in H.
    rewrite (bwd_balanced anchor text x Hx _ _ _ H). apply skipn_more in H.
    rewrite (bwd_startTag anchor text _ b _ _ H Hbne Hb). apply skipn_more in H.
    rewrite (bwd_balanced anchor text y Hy _ _ _ H). apply skipn_more in H.
    rewrite (bwd_endTag_mismatch anchor text _ c rest b _ _ H Hcne Hc Hd).
    reflexivity.
  - unfold findMatchedEndTag.
    set (text := ch_gt :: x ++ startTag b ++ y ++ endTag c ++ rest).
    assert (H : skipn 0 text = (ch_gt :: x) ++ startTag b ++ y ++ endTag c ++ rest)
      by reflexivity.
    rewrite (fwd_balanced a text (ch_gt :: x) (balanced_gt x Hx) 0 _ [] H).
    apply skipn_more in H.
    rewrite (fwd_startTag a text _ b _ [] H Hbne Hb). apply skipn_more in H.
    rewrite (fwd_balanced a text y Hy _ _ _ H). apply skipn_more in H.
    apply (fwd_endTag_mismatch a text _ c rest b [] H Hcne Hc Hbne Hd).
  - unfold findMatchedStartTag.
    set (text := x ++ endTag c ++ rest).
    assert (H : skipn 0 text = x ++ endTag c ++ rest) by reflexivity.
    rewrite (bwd_balanced anchor text x Hx 0 _ [] H). apply skipn_more in H.
    rewrite (bwd_endTag_empty anchor text _ c rest H Hcne Hc). reflexivity.
Qed.

Lemma findMatchedStartTag_mismatch_returns_top_witness :
  findMatchedStartTag (lit "a") (lit "<a><b></c>") = Some 0 /\
  findMatchedEndTag (lit "a") (lit "><b></c>") = None /\
  findMatchedStartTag (lit "a") (lit "</c>") = None.
Proof.
  assert (Hn : forall n : str, n <> [] -> forallb isTagChar n = true -> tagName n)
    by (intros n H1 H2; split; assumption).
  exact (findMatchedStartTag_mismatch_returns_top (lit "a") [] (lit "a") []
           (lit "b") [] (lit "c") [] opening_nil
           (Hn (lit "a") ltac:(discriminate) eq_refl) balanced_nil
           (Hn (lit "b") ltac:(discriminate) eq_refl) balanced_nil
           (Hn (lit "c") ltac:(discriminate) eq_refl) ltac:(discriminate)).
Defined.

(* ================================================================== *)
(** ** The provider on an element *)
(* ================================================================== *)

Section Element.
Variables (doc : TextDocument) (p name b rest : str) (l1 c1 l2 c2 : nat).
Hypothesis Hname : tagName name.
Hypothesis Hb : balanced b.
Hypothesis Hel : elementAt doc p name b rest l1 c1 l2 c2.
Hypothesis Hfits1 : wordFits (lineAt doc l1) name.

Lemma text_at_start :
  skipn (length p) (getText doc) = startTag name ++ b ++ endTag name ++ rest.
Proof. rewrite (el_text _ _ _ _ _ _ _ _ _ Hel). apply skipn_prefix. Qed.

(** The line of the start tag, taken apart around the tag. *)
Lemma start_line :
  exists u post, lineAt doc l1 = (u ++ [ch_lt]) ++ name ++ ch_gt :: post
                 /\ length u = c1 - 1.
Proof.
  destruct Hel as [_ Hl Hc Hfit Hoff _ _ _ _].
  pose proof (length_startTag name) as Hs.
  destruct (line_around doc l1 Hl (length p) (c1 - 1) (startTag name) _
              text_at_start ltac:(lia) ltac:(lia)) as [Hline Hlen].
  exists (firstn (c1 - 1) (lineAt doc l1)),
         (skipn (c1 - 1 + length (startTag name)) (lineAt doc l1)).
  split; [|exact Hlen].
  rewrite Hline at 1. rewrite startTag_app, <- !app_assoc. reflexivity.
Qed.

Lemma startName_text : getTextIn doc (nameRange l1 c1 name) = name.
Proof.
  destruct start_line as (u & post & Hline & Hu).
  pose proof (el_start_line _ _ _ _ _ _ _ _ _ Hel) as Hl.
  pose proof (el_start_col _ _ _ _ _ _ _ _ _ Hel) as Hc.
  pose proof (el_start_fits _ _ _ _ _ _ _ _ _ Hel) as Hfit.
  unfold nameRange. rewrite (getTextIn_at doc l1 Hl) by lia.
  apply substring_at with (rest := ch_gt :: post); [|reflexivity].
  rewrite Hline. replace c1 with (length (u ++ [ch_lt])).
  - apply skipn_prefix.
  - rewrite length_app. simpl. lia.
Qed.

Lemma startName_word c :
  c1 <= c <= c1 + length name ->
  getWordRangeAtPosition doc (at_ l1 c) WordRegexp = Some (nameRange l1 c1 name).
Proof.
  intros Hc. destruct Hname as [Hne Hn].
  destruct start_line as (u & post & Hline & Hu).
  pose proof (el_start_line _ _ _ _ _ _ _ _ _ Hel) as Hl.
  pose proof (el_start_col _ _ _ _ _ _ _ _ _ Hel) as Hc1.
  assert (Hlen : length (u ++ [ch_lt]) = c1) by (rewrite length_app; simpl; lia).
  unfold nameRange. rewrite <- Hlen.
  apply (getWordRangeAtPosition_at doc l1 Hl (u ++ [ch_lt]) name (ch_gt :: post) c
           Hline Hne Hn eq_refl); [|lia|exact Hfits1].
  unfold endsClean. rewrite rev_app_distr. reflexivity.
Qed.

Lemma length_getText :
  length (getText doc)
  = length p + length (startTag name) + length b + length (endTag name) + length rest.
Proof. rewrite (el_text _ _ _ _ _ _ _ _ _ Hel), !length_app. lia. Qed.

(** The cursor on the name of the start tag. *)
Lemma highlights_from_start c :
  c1 <= c <= c1 + length name ->
  provideDocumentHighlights doc (at_ l1 c)
  = Ok [mkDocumentHighlight (nameRange l1 c1 name); mkDocumentHighlight (nameRange l2 c2 name)].
Proof.
  intros Hc.
  pose proof Hel as [Htext Hl1 Hc1 Hfit1 Hoff1 Hl2 Hc2 Hfit2 Hoff2].
  pose proof (length_startTag name) as Hs.
  pose proof (length_endTag name) as He.
  pose proof length_getText as Hlen.
  destruct start_line as (u & post & Hline & Hu).
  assert (Hoff : offsetAt doc (end_ (nameRange l1 c1 name))
                 = Z.of_nat (length p + 1 + length name)).
  { unfold nameRange, rangeAt. cbn [end_].
    rewrite (offsetAt_at doc l1 Hl1) by lia. f_equal. lia. }
  assert (Hnext : exists x, nextTextOf doc (nameRange l1 c1 name)
                            = (ch_gt :: b ++ endTag name) ++ x).
  { unfold nextTextOf. rewrite Hoff. rewrite slice_from by lia.
    assert (Hskip : skipn (length p + 1 + length name) (getText doc)
                    = ch_gt :: b ++ endTag name ++ rest).
    { replace (length p + 1 + length name) with (length p + length (ch_lt :: name))
        by (simpl; lia).
      apply skipn_more. rewrite text_at_start, startTag_app. reflexivity. }
    rewrite Hskip. apply normalize_element_tail; assumption. }
  destruct Hnext as (x & Hnext).
  rewrite (path_start_found doc (at_ l1 c) (nameRange l1 c1 name) (startName_word c Hc)
             (1 + length b)).
  - rewrite Hoff, startName_text.
    replace (Z.of_nat (length p + 1 + length name) + Z.of_nat (1 + length b) + 2)%Z
      with (Z.of_nat (lineOffset doc l2 + c2)) by lia.
    replace (Z.of_nat (lineOffset doc l2 + c2) + Z.of_nat (length name))%Z
      with (Z.of_nat (lineOffset doc l2 + (c2 + length name))) by lia.
    rewrite !(positionAt_at doc l2 Hl2) by lia.
    rewrite newRange_at by lia. reflexivity.
  - unfold nameRange, rangeAt. cbn [start].
    rewrite (prev_at_1 doc l1 Hl1) by lia. f_equal.
    apply substring_at with (rest := name ++ ch_gt :: post); [|simpl; lia].
    rewrite Hline, <- Hu, <- app_assoc. apply skipn_prefix.
  - rewrite Hnext. apply test_SelfClosed_gt.
  - rewrite Hnext, startName_text. apply findMatchedEndTag_element; assumption.
Qed.

End Element.

(* ================================================================== *)
(** ** Pairs of tags *)
(* ================================================================== *)

Lemma tagName_view : tagName (lit "view").
Proof. split; [discriminate | reflexivity]. Defined.

Lemma opening_page : opening (lit "<page>" ++ ch_lf :: lit "  ").
Proof.
  apply (opening_balanced (lit "<page>") (ch_lf :: lit "  ")).
  - apply (opening_start [] (lit "page")); [apply opening_nil|].
    split; [discriminate | reflexivity].
  - apply balanced_text. reflexivity.
Defined.


(** Quote characters in the text are left out of the markup the
    theorem for C1 covers, for [normalize] blanks from one quote to the
    next, tags included: in [<view>it's</view><view>it's</view>] the
    cursor on the first start name gets the name of the second end
    tag. *)
Lemma highlights_pair_misled_by_quotes :
  let doc := mkTextDocument [lit "<view>it's</view><view>it's</view>"] [ch_lf] in
  provideDocumentHighlights doc (at_ 0 1)
  = Ok [mkDocumentHighlight (rangeAt 0 1 5); mkDocumentHighlight (rangeAt 0 29 33)] /\
  getTextIn doc (rangeAt 0 12 16) = lit "view".
Proof. vm_compute. split; reflexivity. Qed.

(** Nor is a name the editor cuts: on the line of [longDoc], of more
    than 1000 code units, the cursor at the start of the name of 1000
    letters gets the first 501 of them, and nothing else. *)
Lemma highlights_pair_lost_by_cut_name :
  provideDocumentHighlights longDoc (at_ 0 1)
  = Ok [mkDocumentHighlight (rangeAt 0 1 502)].
Proof. vm_compute. reflexivity. Qed.



(* ================================================================== *)
(** ** A bare self-closing tag *)
(* ================================================================== *)

Lemma dead_plain re (t : str) : blind re -> forallb plain t = true -> dead re t.
Proof. intros Hre Ht. apply balanced_dead; [exact Hre | apply balanced_text, Ht]. Qed.

Lemma normalize_bareSelfClosing (name : str) :
  tagName name -> normalize (bareSelfClosing name) = bareSelfClosing name.
Proof.
  intros Hn. pose proof Hn as [Hne Hc].
  assert (Hlt : forallb notLt (name ++ lit "/>") = true).
  { rewrite forallb_app, (forallb_impl isTagChar notLt name tagChar_notLt Hc).
    reflexivity. }
  unfold bareSelfClosing. apply normalize_dead.
  - apply dead_cons.
    + intros pos s. destruct name as [|y name]; [contradiction|].
      simpl in Hc. apply andb_true_iff in Hc. destruct Hc as [Hy _].
      cbn [app]. apply Comment_lt, tagChar_not_bang, Hy.
    + apply dead_chars with (ok := notLt); [apply Comment_other | exact Hlt].
  - apply dead_chars with (ok := notQuote); [apply Quoted_notQuote|].
    cbn [forallb]. rewrite forallb_app, (tagName_notQuote name Hn). reflexivity.
  - apply dead_cons.
    + intros pos s. rewrite <- app_assoc.
      apply (SelfClosing_lt pos name ch_slash); [exact Hc | reflexivity | reflexivity].
    + apply dead_chars with (ok := notLt); [apply SelfClosing_other | exact Hlt].
Qed.

(** C8: [normalize] leaves a bare self-closing tag [<name/>] as it is,
    and with the cursor on the name of such a tag, wherever it stands in
    the document, the provider finds [/>] right after the anchor and
    returns the range of the anchor alone.  The editor hands out the
    name under the cursor whole: its line has at most 1000 code units,
    or the name fewer than 500. *)
Theorem bare_self_closing_anchor_only :
  forall (doc : TextDocument) (p name rest : str) (l c cur : nat),
    tagName name ->
    bareAt doc p name rest l c ->
    wordFits (lineAt doc l) name ->
    c <= cur <= c + length name ->
    normalize (bareSelfClosing name) = bareSelfClosing name /\
    provideDocumentHighlights doc (at_ l cur)
    = Ok [mkDocumentHighlight (rangeAt l c (c + length name))].
Proof.
  intros doc p name rest l c cur Hn [Htext Hl Hc Hfit Hoff] Hfits Hcur.
  split; [apply normalize_bareSelfClosing, Hn|].
  destruct Hn as [Hne Hnc].
  set (anchor := rangeAt l c (c + length name)).
  assert (Hat : skipn (length p) (getText doc)
                = (ch_lt :: name ++ [ch_slash]) ++ ch_gt :: rest).
  { rewrite Htext, skipn_prefix. unfold bareSelfClosing. cbn [app].
    rewrite <- !app_assoc. reflexivity. }
  destruct (line_around doc l Hl (length p) (c - 1) (ch_lt :: name ++ [ch_slash]) _
              Hat ltac:(lia)) as [Hline Hu].
  { cbn [length]. rewrite length_app. simpl. lia. }
  set (u := firstn (c - 1) (lineAt doc l)) in *.
  set (post := skipn (c - 1 + length (ch_lt :: name ++ [ch_slash])) (lineAt doc l))
    in *.
  assert (HL : lineAt doc l = (u ++ [ch_lt]) ++ name ++ ch_slash :: post).
  { rewrite Hline at 1. cbn [app]. rewrite <- !app_assoc. reflexivity. }
  assert (Hlen : length (u ++ [ch_lt]) = c) by (rewrite length_app; simpl; lia).
  assert (Hword : getWordRangeAtPosition doc (at_ l cur) WordRegexp = Some anchor).
  { unfold anchor. rewrite <- Hlen.
    apply (getWordRangeAtPosition_at doc l Hl (u ++ [ch_lt]) name (ch_slash :: post)
             cur HL Hne Hnc eq_refl); [|lia|exact Hfits].
    unfold endsClean. rewrite rev_app_distr. reflexivity. }
  apply (path_self_closing _ _ anchor Hword).
  - unfold anchor, rangeAt. cbn [start].
    rewrite (prev_at_1 doc l Hl) by lia. f_equal.
    apply substring_at with (rest := name ++ ch_slash :: post); [|simpl; lia].
    rewrite HL, <- Hu, <- app_assoc. apply skipn_prefix.
  - unfold nextTextOf, anchor, rangeAt. cbn [end_].
    rewrite (offsetAt_at doc l Hl) by lia.
    assert (Hdoc : length (getText doc)
                   = length p + length (bareSelfClosing name) + length rest)
      by (rewrite Htext, !length_app; lia).
    assert (Hbare : length (bareSelfClosing name) = length name + 3)
      by (unfold bareSelfClosing; cbn [length]; rewrite length_app; simpl; lia).
    rewrite slice_from by lia.
    assert (Hskip : skipn (lineOffset doc l + (c + length name)) (getText doc)
                    = lit "/>" ++ rest).
    { replace (lineOffset doc l + (c + length name))
        with (length (p ++ ch_lt :: name)) by (rewrite length_app; simpl; lia).
      rewrite Htext. unfold bareSelfClosing.
      replace (p ++ (ch_lt :: name ++ lit "/>") ++ rest)
        with ((p ++ ch_lt :: name) ++ lit "/>" ++ rest)
        by (cbn [app]; rewrite <- !app_assoc; reflexivity).
      apply skipn_prefix. }
    rewrite Hskip.
    destruct (normalize_prefix (lit "/>") rest) as (x & Hx);
      try (apply dead_plain; [|reflexivity];
           auto using blind_Comment, blind_Quoted, blind_SelfClosing).
    rewrite Hx. apply test_SelfClosed_slash.
Qed.

Lemma bare_self_closing_anchor_only_witness :
  normalize (lit "<foo/>") = lit "<foo/>" /\
  provideDocumentHighlights
    (mkTextDocument [lit "<view>"; lit "  <foo/>"; lit "</view>"] [ch_lf]) (at_ 1 4)
  = Ok [mkDocumentHighlight (rangeAt 1 3 6)].
Proof.
  assert (Hn : tagName (lit "foo")) by (split; [discriminate | reflexivity]).
  assert (Hat : bareAt
                  (mkTextDocument [lit "<view>"; lit "  <foo/>"; lit "</view>"] [ch_lf])
                  (lit "<view>" ++ ch_lf :: lit "  ") (lit "foo")
                  (ch_lf :: lit "</view>") 1 3).
  { split; try reflexivity; vm_compute; lia. }
  exact (bare_self_closing_anchor_only _ _ (lit "foo") _ 1 3 4 Hn Hat
           ltac:(left; vm_compute; lia) ltac:(simpl; lia)).
Defined.

(* ================================================================== *)
(** ** Comments over several lines *)
(* ================================================================== *)

Lemma quiet_plain c : quiet c = true -> plain c = true.
Proof.
  unfold quiet, plain, notQuote, notAngle, notLt. intros H.
  apply andb_true_iff in H. destruct H as [H Hq].
  apply andb_true_iff in H. destruct H as [_ Ha].
  apply andb_true_iff in Hq. destruct Hq as [Hd Hs].
  apply negb_true_iff, orb_false_iff in Ha. destruct Ha as [Hlt _].
  rewrite Hlt, Hd, Hs. reflexivity.
Qed.

Lemma quiet_isDot c : quiet c = true -> isDot c = true.
Proof.
  unfold quiet. intros H. apply andb_true_iff in H. destruct H as [H _].
  apply andb_true_iff in H. tauto.
Qed.

Lemma quiet_not_gt c : quiet c = true -> (c =? ch_gt)%N = false.
Proof.
  unfold quiet, notAngle. intros H. apply andb_true_iff in H. destruct H as [H _].
  apply andb_true_iff in H. destruct H as [_ Ha].
  apply negb_true_iff, orb_false_iff in Ha. tauto.
Qed.

Lemma lineTerminator_plain c : isLineTerminator c = true -> plain c = true.
Proof.
  intros H. destruct (plain c) eqn:E; [reflexivity|exfalso].
  unfold plain in E. char_facts.
Qed.

Lemma lineTerminator_not_dash c : isLineTerminator c = true -> (c =? ch_dash)%N = false.
Proof. intros H. destruct (c =? ch_dash)%N eqn:E; [exfalso|reflexivity]. char_facts. Qed.

Lemma lineTerminator_not_gt c : isLineTerminator c = true -> (c =? ch_gt)%N = false.
Proof. intros H. destruct (c =? ch_gt)%N eqn:E; [exfalso|reflexivity]. char_facts. Qed.

(** The lazy star fails when the rest of the pattern fails after every
    prefix of the run. *)
Lemma lazy_star_none {R} p (k : cont R) : forall (n : str) pos (rest : str) cs,
  forallb p n = true -> stops p rest = true ->
  (forall j, j <= length n -> k (pos + j) (skipn j n ++ rest) cs = None) ->
  lazy_star p pos (n ++ rest) cs k = None.
Proof.
  induction n as [|c n IH]; cbn [app]; intros pos rest cs Hn Hr Hk.
  - specialize (Hk 0 (Nat.le_refl 0)). rewrite Nat.add_0_r in Hk. simpl in Hk.
    destruct rest as [|c rest]; cbn [lazy_star]; [exact Hk|].
    rewrite Hk. simpl in Hr. apply negb_true_iff in Hr. rewrite Hr. reflexivity.
  - simpl in Hn. apply andb_true_iff in Hn. destruct Hn as [Hc Hn].
    cbn [lazy_star]. rewrite Hc.
    pose proof (Hk 0 (Nat.le_0_l _)) as H0. rewrite Nat.add_0_r in H0.
    simpl in H0. rewrite H0. cbn [orelse].
    apply (IH (S pos) rest cs Hn Hr).
    intros j Hj. specialize (Hk (S j) (proj1 (Nat.succ_le_mono _ _) Hj)).
    replace (S pos + j) with (pos + S j) by lia. exact Hk.
Qed.

(** A comment whose text runs into a line terminator before any [>]
    is not matched by the comment pattern. *)
Lemma Comment_line_break pos (a : str) lt (s : str) :
  forallb quiet a = true -> isLineTerminator lt = true ->
  match_at CommentRegexp pos (lit "<!--" ++ a ++ lt :: s) = None.
Proof.
  intros Ha Hlt. unfold match_at. rewrite CommentRegexp_eq.
  change (lit "<!--") with [ch_lt; ch_bang; ch_dash; ch_dash].
  cbn [m app]. rewrite !N.eqb_refl.
  apply lazy_star_none.
  - exact (forallb_impl quiet isDot a quiet_isDot Ha).
  - simpl. unfold isDot. rewrite Hlt. reflexivity.
  - intros j _.
    assert (Hq : forallb quiet (skipn j a) = true).
    { rewrite forallb_forall in *. intros c Hc. apply Ha.
      rewrite <- (firstn_skipn j a). apply in_or_app. right. exact Hc. }
    destruct (skipn j a) as [|x [|y [|z r]]]; cbn [app m].
    + rewrite (lineTerminator_not_dash lt Hlt). reflexivity.
    + destruct (x =? ch_dash)%N; [|reflexivity].
      rewrite (lineTerminator_not_dash lt Hlt). reflexivity.
    + destruct (x =? ch_dash)%N; [|reflexivity].
      destruct (y =? ch_dash)%N; [|reflexivity].
      rewrite (lineTerminator_not_gt lt Hlt). reflexivity.
    + destruct (x =? ch_dash)%N; [|reflexivity].
      destruct (y =? ch_dash)%N; [|reflexivity].
      simpl in Hq. apply andb_true_iff in Hq. destruct Hq as [_ Hq].
      apply andb_true_iff in Hq. destruct Hq as [_ Hq].
      apply andb_true_iff in Hq. destruct Hq as [Hz _].
      rewrite (quiet_not_gt z Hz). reflexivity.
Qed.

Lemma dead_commentOver re (a : str) lt (x : str) :
  blind re ->
  (forall pos s, match_at re pos (commentOver a lt x ++ s) = None) ->
  forallb quiet a = true -> isLineTerminator lt = true -> balanced x ->
  dead re (commentOver a lt x).
Proof.
  intros Hre H0 Ha Hlt Hx. unfold commentOver.
  change (lit "<!--") with (ch_lt :: lit "!--"). cbn [app].
  apply dead_cons; [exact H0|].
  apply dead_app; [apply dead_plain; [exact Hre | reflexivity]|].
  apply dead_app.
  - apply dead_plain; [exact Hre|]. exact (forallb_impl quiet plain a quiet_plain Ha).
  - change (lt :: x) with ([lt] ++ x). apply dead_app.
    + apply dead_plain; [exact Hre|]. simpl. rewrite (lineTerminator_plain lt Hlt).
      reflexivity.
    + apply balanced_dead; assumption.
Qed.

Lemma commentOver_dead (a : str) lt (x : str) :
  forallb quiet a = true -> isLineTerminator lt = true -> balanced x ->
  dead CommentRegexp (commentOver a lt x) /\
  dead QuotedRegexp (commentOver a lt x) /\
  dead SelfClosingRegexp (commentOver a lt x).
Proof.
  intros Ha Hlt Hx. repeat split.
  - apply dead_commentOver; auto using blind_Comment.
    intros pos s. unfold commentOver. rewrite <- !app_assoc. cbn [app].
    apply Comment_line_break; assumption.
  - apply dead_commentOver; auto using blind_Quoted;
      try (intros pos s; apply Quoted_other; reflexivity).
  - apply dead_commentOver; auto using blind_SelfClosing;
      try (intros pos s; apply (SelfClosing_lt pos [] ch_bang); reflexivity).
Qed.

Lemma match_at_Tag_bang pos (s : str) :
  match_at TagRegexp pos (ch_lt :: ch_bang :: s) = None.
Proof. reflexivity. Qed.

(** C7: [.] does not match a line terminator, so the comment pass leaves
    a comment that runs over a line break as it is, and an end tag
    inside such a comment is a token: the forward matcher returns the
    commented-out end tag.  [a] is the text of the comment up to its
    first line terminator [lt], [x] the properly nested content after
    it. *)
Theorem normalize_keeps_multiline_comment :
  forall (a : str) (lt : char) (x name rest : str),
    forallb quiet a = true -> isLineTerminator lt = true ->
    balanced x -> tagName name ->
    normalize (commentOver a lt x ++ lit "-->") = commentOver a lt x ++ lit "-->" /\
    findMatchedEndTag name
      (normalize (ch_gt :: commentOver a lt x ++ endTag name ++ rest))
    = Some (1 + length (commentOver a lt x)).
Proof.
  intros a lt x name rest Ha Hlt Hx Hn.
  destruct (commentOver_dead a lt x Ha Hlt Hx) as (Hc & Hq & Hs).
  split.
  - apply normalize_dead; (apply dead_app; [assumption|]);
      apply dead_plain; auto using blind_Comment, blind_Quoted, blind_SelfClosing.
  - destruct (normalize_prefix (([ch_gt] ++ commentOver a lt x) ++ endTag name) rest)
      as (y & Hy).
    + apply dead_app; [apply dead_app; [|exact Hc]|apply (blind_end _ blind_Comment), Hn].
      apply dead_plain; [apply blind_Comment | reflexivity].
    + apply dead_app; [apply dead_app; [|exact Hq]|apply (blind_end _ blind_Quoted), Hn].
      apply dead_plain; [apply blind_Quoted | reflexivity].
    + apply dead_app;
        [apply dead_app; [|exact Hs]|apply (blind_end _ blind_SelfClosing), Hn].
      apply dead_plain; [apply blind_SelfClosing | reflexivity].
    + replace (ch_gt :: commentOver a lt x ++ endTag name ++ rest)
        with ((([ch_gt] ++ commentOver a lt x) ++ endTag name) ++ rest)
        by (cbn [app]; rewrite <- !app_assoc; reflexivity).
      rewrite Hy. destruct Hn as [Hne Hnc]. unfold findMatchedEndTag.
      set (text := (([ch_gt] ++ commentOver a lt x) ++ endTag name) ++ y).
      assert (H : skipn 0 text
                  = [ch_gt] ++ [ch_lt] ++ (lit "!--" ++ a ++ [lt]) ++ x
                      ++ endTag name ++ y).
      { unfold text, commentOver. cbn [app skipn]. rewrite <- !app_assoc.
        cbn [app]. reflexivity. }
      rewrite (fwd_text name text 0 [ch_gt] _ [] H eq_refl). apply skipn_more in H.
      assert (Hlt1 : findMatchedEndTag_loop name text (0 + length [ch_gt]) []
                     = findMatchedEndTag_loop name text
                         (0 + length [ch_gt] + length [ch_lt]) []).
      { rewrite (findMatchedEndTag_loop_eq name text (0 + length [ch_gt])),
                (findMatchedEndTag_loop_eq name text
                   (0 + length [ch_gt] + length [ch_lt])).
        rewrite !exec_at
          by (apply (f_equal (@length char)) in H;
              rewrite length_skipn, !length_app in H; simpl in *; lia).
        rewrite (skipn_more _ _ _ _ H), H. cbn [app].
        rewrite search_skip by apply match_at_Tag_bang.
        replace (S (0 + length [ch_gt])) with (0 + length [ch_gt] + length [ch_lt])
          by reflexivity.
        reflexivity. }
      rewrite Hlt1. apply skipn_more in H.
      assert (Hbody : forallb notLt (lit "!--" ++ a ++ [lt]) = true).
      { apply plain_all_notLt. rewrite !forallb_app.
        rewrite (forallb_impl quiet plain a quiet_plain Ha). simpl.
        rewrite (lineTerminator_plain lt Hlt). reflexivity. }
      rewrite (fwd_text name text _ _ _ [] H Hbody). apply skipn_more in H.
      rewrite (fwd_balanced name text x Hx _ _ [] H). apply skipn_more in H.
      rewrite (fwd_endTag_found name text _ y H Hne Hnc).
      f_equal. unfold commentOver. rewrite !length_app. simpl. lia.
Qed.

Lemma normalize_keeps_multiline_comment_witness :
  normalize (commentOver (lit " old") ch_lf (lit "x ") ++ lit "-->")
  = commentOver (lit " old") ch_lf (lit "x ") ++ lit "-->" /\
  findMatchedEndTag (lit "view")
    (normalize (ch_gt :: commentOver (lit " old") ch_lf (lit "x ")
                  ++ endTag (lit "view") ++ ch_lf :: lit "--></view>"))
  = Some (1 + length (commentOver (lit " old") ch_lf (lit "x "))).
Proof.
  exact (normalize_keeps_multiline_comment (lit " old") ch_lf (lit "x ")
           (lit "view") (ch_lf :: lit "--></view>") eq_refl eq_refl
           (balanced_text (lit "x ") eq_refl) tagName_view).
Defined.

(** The same comment on one line is blanked, and the provider, given the
    three lines [<view><!--], [</view>], [--></view>] and the cursor on
    [<view], pairs it with the commented [</view>] of the second line. *)
Lemma multiline_comment_example :
  normalize (lit "<!-- </view> -->") = repeat ch_space 16 /\
  provideDocumentHighlights
    (mkTextDocument [lit "<view><!--"; lit "</view>"; lit "--></view>"] [ch_lf])
    (at_ 0 1)
  = Ok [mkDocumentHighlight (rangeAt 0 1 5); mkDocumentHighlight (rangeAt 1 2 6)].
Proof. vm_compute. repeat split. Qed.

(* ================================================================== *)
(** ** What the provider returns, and when it throws *)
(* ================================================================== *)

Lemma provideDocumentHighlights_no_word doc pos :
  getWordRangeAtPosition doc pos WordRegexp = None ->
  provideDocumentHighlights doc pos = Ok [].
Proof. intros H. unfold provideDocumentHighlights. rewrite H. reflexivity. Qed.

(** Whenever the provider returns, the anchor is the first range. *)
Lemma provideDocumentHighlights_anchor_first doc pos anchor res :
  getWordRangeAtPosition doc pos WordRegexp = Some anchor ->
  provideDocumentHighlights doc pos = Ok res ->
  exists others, res = mkDocumentHighlight anchor :: others.
Proof.
  intros Hw. unfold provideDocumentHighlights. rewrite Hw.
  destruct (prev doc (start anchor) 1) as [p1|]; cbn [bind]; [|discriminate].
  destruct (str_eqb p1 (lit "<")).
  - destruct (negb _); [destruct (findMatchedEndTag _ _)|];
      cbn [bind]; intros H; inversion H; eexists; reflexivity.
  - destruct (prev doc (start anchor) 2) as [p2|]; cbn [bind]; [|discriminate].
    destruct (str_eqb p2 (lit "</")); cbn [bind].
    + destruct (next doc (end_ anchor) 1) as [n1|]; cbn [bind]; [|discriminate].
      destruct (str_eqb n1 (lit ">")); [destruct (findMatchedStartTag _ _)|];
        cbn [bind]; intros H; inversion H; eexists; reflexivity.
    + intros H; inversion H; eexists; reflexivity.
Qed.

(** C9: [prev] builds [new Position(line, character - length)], which
    the editor refuses when the column is negative.  With the cursor on
    a word that starts at column 0, or at column 1 after a code unit
    other than [<], the provider throws where the claim has it return
    the range of the anchor.  [u] is what stands on the line before the
    word: nothing, or one code unit.  The editor hands out the word
    whole: the line has at most 1000 code units, or the word fewer than
    500. *)
Theorem provideDocumentHighlights_throws_at_line_start :
  forall (doc : TextDocument) (l : nat) (u w post : str) (c : nat),
    l < length (lines doc) ->
    lineAt doc l = u ++ w ++ post ->
    tagName w -> stops isTagChar post = true ->
    length u <= 1 -> endsClean u -> u <> [ch_lt] ->
    wordFits (lineAt doc l) w ->
    length u <= c <= length u + length w ->
    getWordRangeAtPosition doc (at_ l c) WordRegexp
    = Some (rangeAt l (length u) (length u + length w)) /\
    provideDocumentHighlights doc (at_ l c)
    = Throw "Illegal argument: character must be non-negative".
Proof.
  intros doc l u w post c Hl Hline [Hne Hw] Hpost Hu1 Hclean Hlt Hfits Hc.
  pose proof (getWordRangeAtPosition_at doc l Hl u w post c Hline Hne Hw Hpost
                Hclean Hc Hfits) as Hword.
  split; [exact Hword|].
  assert (Hlen : length u + length w <= length (lineAt doc l))
    by (rewrite Hline, !length_app; lia).
  unfold provideDocumentHighlights. rewrite Hword. unfold rangeAt. cbn [start end_].
  destruct u as [|x [|y u]]; [| |simpl in Hu1; lia].
  - cbn [length]. rewrite (prev_at_throws_1 doc l Hl 0) by lia. reflexivity.
  - cbn [length] in *.
    rewrite (prev_at_1 doc l Hl 1) by lia.
    assert (Hx : substring (lineAt doc l) (1 - 1) 1 = [x]).
    { apply substring_at with (rest := w ++ post); [|reflexivity].
      rewrite Hline. reflexivity. }
    rewrite Hx. cbn [bind].
    rewrite (str_eqb_neq [x] (lit "<") Hlt).
    rewrite (prev_at_throws_2 doc l Hl 1) by lia. reflexivity.
Qed.

Lemma provideDocumentHighlights_throws_at_line_start_witness :
  provideDocumentHighlights (mkTextDocument [lit "view"] [ch_lf]) (at_ 0 0)
  = Throw "Illegal argument: character must be non-negative" /\
  provideDocumentHighlights (mkTextDocument [lit " class=x"] [ch_lf]) (at_ 0 3)
  = Throw "Illegal argument: character must be non-negative".
Proof.
  split.
  - apply (provideDocumentHighlights_throws_at_line_start
             (mkTextDocument [lit "view"] [ch_lf]) 0 [] (lit "view") [] 0);
      try reflexivity; try (simpl; lia); try discriminate.
    + split; [discriminate | reflexivity].
    + left. vm_compute. lia.
  - apply (provideDocumentHighlights_throws_at_line_start
             (mkTextDocument [lit " class=x"] [ch_lf]) 0 (lit " ") (lit "class")
             (lit "=x") 3);
      try reflexivity; try (simpl; lia); try discriminate.
    + split; [discriminate | reflexivity].
    + left. vm_compute. lia.
Defined.

(* ================================================================== *)
(** ** The tokens of [TagRegexp] *)
(* ================================================================== *)

(** The longest prefix made of code units of a class. *)
Lemma span_class (p : char -> bool) (u : str) :
  exists r u', u = r ++ u' /\ forallb p r = true /\ stops p u' = true.
Proof.
  induction u as [|x u (r & u' & Hu & Hr & Hs)].
  - exists [], []. auto.
  - destruct (p x) eqn:Hx.
    + exists (x :: r), u'. subst u. simpl. rewrite Hx, Hr. auto.
    + exists [], (x :: u). simpl. rewrite Hx. auto.
Qed.

Lemma stops_app (p : char -> bool) (r u : str) :
  forallb p r = true -> stops p (r ++ u) = true -> r = [].
Proof.
  destruct r as [|x r]; [reflexivity|]. simpl. intros H Hs.
  apply andb_true_iff in H. destruct H as [Hx _]. rewrite Hx in Hs. discriminate.
Qed.

(** [</name] that is not followed by [>] is no token. *)
Lemma match_at_Tag_end_open pos (n rest : str) :
  forallb isTagChar n = true -> stops isTagChar rest = true ->
  stops (fun c => (c =? ch_gt)%N) rest = true ->
  match_at TagRegexp pos (ch_lt :: ch_slash :: n ++ rest) = None.
Proof.
  intros Hn Hr Hgt. unfold match_at, TagRegexp. cbn [m]. rewrite N.eqb_refl.
  change (isTagChar ch_slash) with false. cbn [orelse]. rewrite N.eqb_refl.
  destruct n as [|y n].
  - cbn [app]. destruct rest as [|c rest]; [reflexivity|].
    simpl in Hr. apply negb_true_iff in Hr. rewrite Hr. reflexivity.
  - simpl in Hn. apply andb_true_iff in Hn. destruct Hn as [Hy Hn].
    cbn [app]. rewrite Hy. apply star_none; [exact Hn | exact Hr |].
    intros j Hj. destruct (skipn j n ++ rest) as [|c s] eqn:E; [reflexivity|].
    destruct (N.eqb_spec c ch_gt) as [->|]; [exfalso|reflexivity].
    destruct (skipn j n) as [|d q] eqn:Eq.
    + simpl in E. subst rest. simpl in Hgt. discriminate.
    + simpl in E. inversion E; subst d.
      assert (Hin : In ch_gt n).
      { rewrite <- (firstn_skipn j n), Eq. apply in_or_app. right. left. reflexivity. }
      rewrite forallb_forall in Hn. specialize (Hn _ Hin). discriminate.
Qed.

Lemma match_at_token pos (s : str) mat :
  match_at TagRegexp pos s = Some mat ->
  (exists n rest, s = ch_lt :: n ++ rest /\ tagName n /\ stops isTagChar rest = true /\
                  mat = mkMatch pos (pos + 1 + length n) [(1, n)]) \/
  (exists n rest, s = ch_lt :: ch_slash :: n ++ ch_gt :: rest /\ tagName n /\
                  mat = mkMatch pos (pos + 3 + length n) [(2, n)]).
Proof.
  intros H. destruct s as [|x s]; [discriminate|].
  destruct (notLt x) eqn:Hx; [rewrite match_at_Tag_other in H by exact Hx; discriminate|].
  assert (x = ch_lt) as ->.
  { unfold notLt in Hx. apply negb_false_iff, N.eqb_eq in Hx. exact Hx. }
  destruct s as [|y s]; [discriminate|].
  destruct (isTagChar y) eqn:Hy.
  - left. destruct (span_class isTagChar (y :: s)) as (r & u' & Hu & Hr & Hs).
    assert (Hne : r <> []).
    { intros ->. simpl in Hu. subst u'. simpl in Hs. rewrite Hy in Hs. discriminate. }
    rewrite Hu in H. rewrite (match_at_Tag_start pos r u' Hne Hr Hs) in H.
    inversion H; subst mat. exists r, u'. rewrite Hu. repeat split; assumption.
  - destruct (N.eqb_spec y ch_slash) as [->|Hy'].
    + right. destruct (span_class isTagChar s) as (r & u' & Hu & Hr & Hs).
      destruct (stops (fun c => (c =? ch_gt)%N) u') eqn:Hgt.
      * subst s. rewrite (match_at_Tag_end_open pos r u' Hr Hs Hgt) in H.
        discriminate.
      * destruct u' as [|c u']; [discriminate|]. simpl in Hgt.
        apply negb_false_iff, N.eqb_eq in Hgt. subst c.
        assert (Hne : r <> []).
        { intros ->. simpl in Hu. subst s. discriminate. }
        subst s. rewrite (match_at_Tag_end pos r u' Hne Hr) in H.
        inversion H; subst mat. exists r, u'. repeat split; assumption.
    + exfalso. unfold match_at, TagRegexp in H. cbn [m] in H.
      rewrite N.eqb_refl, Hy in H. cbn [orelse] in H.
      apply N.eqb_neq in Hy'. rewrite Hy' in H. discriminate.
Qed.

(** X1: every match [TagRegexp.exec] returns at or after its cursor is a
    start token, [<] and the whole run of name characters after it with
    the name in group 1, or an end token [</name>] with the name in
    group 2; never both groups, never an empty name. *)
Theorem TagRegexp_exec_token : forall (text : str) (from : nat) (mat : Match),
  exec TagRegexp text from = Some mat ->
  from <= index mat /\ token text mat.
Proof.
  intros text from mat H. split; [apply exec_bounds in H; lia|].
  apply exec_found in H.
  destruct (match_at_token _ _ _ H) as [(n & rest & Hs & Hn & Hr & ->)
                                       |(n & rest & Hs & Hn & ->)].
  - apply StartToken with (n := n) (rest := rest); auto.
  - apply EndToken with (n := n) (rest := rest); auto.
Qed.

Lemma TagRegexp_exec_token_witness :
  4 <= index (mkMatch 4 11 [(2, lit "view")]) /\
  token (lit "<a  </view>") (mkMatch 4 11 [(2, lit "view")]).
Proof.
  apply (TagRegexp_exec_token (lit "<a  </view>") 4 (mkMatch 4 11 [(2, lit "view")])).
  reflexivity.
Defined.

(* ================================================================== *)
(** ** The offset the backward matcher returns *)
(* ================================================================== *)

Lemma findMatchedStartTag_loop_tokens name text from stack :
  Forall (startTokenAt text) stack ->
  Forall (startTokenAt text) (findMatchedStartTag_loop name text from stack).
Proof.
  funelim (findMatchedStartTag_loop name text from stack); [|auto].
  intros Hst. cbv zeta.
  destruct (TagRegexp_progress _ _ _ Hexec) as [_ Hlen].
  pose proof (exec_found _ _ _ _ Hexec) as Hm.
  destruct (match_at_token _ _ _ Hm) as [(n & rest & Hs & Hn & Hr & Hmat)
                                        |(n & rest & Hs & Hn & Hmat)].
  - assert (Hg : groups mat = [(1, n)]) by (rewrite Hmat; reflexivity).
    rewrite Hg in H |- *. cbn [capture Nat.eqb] in H |- *.
    rewrite (truthy_Some n (proj1 Hn)).
    apply H. constructor; [|exact Hst].
    exists rest. cbn [fst snd]. auto.
  - assert (Hg : groups mat = [(2, n)]) by (rewrite Hmat; reflexivity).
    rewrite Hg. cbn [capture Nat.eqb]. change (truthy None) with false. cbv iota.
    rewrite (truthy_Some n (proj1 Hn)).
    destruct stack as [|l stack']; cbn [pop]; [constructor|].
    inversion Hst; subst.
    destruct (negb _) eqn:E; [assumption|].
    apply (H0 None stack' l). assumption.
Qed.

(** X2: the offset [findMatchedStartTag] returns is the offset of a
    start token of the text: a [<] followed by a whole run of name
    characters. *)
Theorem findMatchedStartTag_offset : forall (name text : str) (i : nat),
  findMatchedStartTag name text = Some i ->
  exists n rest,
    skipn i text = ch_lt :: n ++ rest /\ tagName n /\ stops isTagChar rest = true.
Proof.
  intros name text i. unfold findMatchedStartTag.
  pose proof (findMatchedStartTag_loop_tokens name text 0 [] (Forall_nil _)) as H.
  destruct (findMatchedStartTag_loop name text 0 []) as [|[n j] st]; [discriminate|].
  intros Hi. inversion Hi; subst i. inversion H as [|? ? (rest & Hs & Hn & Hr)]; subst.
  exists n, rest. auto.
Qed.

Lemma findMatchedStartTag_offset_witness :
  exists n rest,
    skipn 3 (lit "<a><view class>x") = ch_lt :: n ++ rest /\
    tagName n /\ stops isTagChar rest = true.
Proof.
  apply (findMatchedStartTag_offset (lit "view") (lit "<a><view class>x") 3).
  reflexivity.
Defined.

(* ================================================================== *)
(** ** [prev] and [next] *)
(* ================================================================== *)

Lemma validatePosition_clamp (doc : TextDocument) l c :
  l < length (lines doc) ->
  validatePosition doc (at_ l c) = at_ l (Nat.min c (length (lineAt doc l))).
Proof.
  intros Hl. unfold validatePosition, at_. cbn [line character].
  destruct (Z.eqb_spec (Z.of_nat (length (lines doc))) 0); [lia|].
  destruct (Z.ltb_spec (Z.of_nat l) 0); [lia|].
  destruct (Z.geb_spec (Z.of_nat l) (Z.of_nat (length (lines doc)))); [lia|].
  rewrite Nat2Z.id. f_equal. lia.
Qed.

Lemma getTextIn_clamp (doc : TextDocument) l a b :
  l < length (lines doc) -> a <= b ->
  getTextIn doc (rangeAt l a b)
  = substring (lineAt doc l) (Nat.min a (length (lineAt doc l)))
                             (Nat.min b (length (lineAt doc l))).
Proof.
  intros Hl Hab. unfold getTextIn, validateRange, rangeAt. cbn [start end_].
  rewrite !validatePosition_clamp by exact Hl.
  unfold at_. cbn [line character]. rewrite !Nat2Z.id, Nat.eqb_refl. reflexivity.
Qed.

(** X3: [prev(doc, pos, k)] is the [k] code units that stand before
    [pos] on its line; when fewer than [k] code units stand before it,
    the call throws, for [new Position] refuses the negative column. *)
Theorem prev_spec : forall (doc : TextDocument) (l c k : nat),
  l < length (lines doc) -> c <= length (lineAt doc l) ->
  (k <= c ->
   prev doc (at_ l c) (Z.of_nat k) = Ok (substring (lineAt doc l) (c - k) c) /\
   length (substring (lineAt doc l) (c - k) c) = k) /\
  (c < k ->
   prev doc (at_ l c) (Z.of_nat k)
   = Throw "Illegal argument: character must be non-negative").
Proof.
  intros doc l c k Hl Hc. split; intros Hk.
  - split; [exact (prev_at doc l Hl c k Hk Hc)|].
    unfold substring. rewrite length_firstn, length_skipn. lia.
  - exact (prev_at_throws doc l Hl c k Hk).
Qed.

Lemma prev_spec_witness :
  prev (mkTextDocument [lit "a"; lit "x </view>"] [ch_lf]) (at_ 1 4) 2 = Ok (lit "</") /\
  prev (mkTextDocument [lit "a"; lit "x </view>"] [ch_lf]) (at_ 1 1) 2
  = Throw "Illegal argument: character must be non-negative".
Proof.
  split.
  - apply (prev_spec (mkTextDocument [lit "a"; lit "x </view>"] [ch_lf]) 1 4 2);
      simpl; lia.
  - apply (prev_spec (mkTextDocument [lit "a"; lit "x </view>"] [ch_lf]) 1 1 2);
      simpl; lia.
Defined.

(** X4: [next(doc, pos, k)] never throws; it is the code units of the
    line from [pos] on, at most [k] of them, and stops at the end of the
    line: at the end of a line it is the empty string, not the line
    break. *)
Theorem next_spec : forall (doc : TextDocument) (l c k : nat),
  l < length (lines doc) -> c <= length (lineAt doc l) ->
  next doc (at_ l c) (Z.of_nat k)
  = Ok (substring (lineAt doc l) c (Nat.min (c + k) (length (lineAt doc l)))) /\
  (c = length (lineAt doc l) -> next doc (at_ l c) (Z.of_nat k) = Ok []).
Proof.
  intros doc l c k Hl Hc.
  assert (H : next doc (at_ l c) (Z.of_nat k)
              = Ok (substring (lineAt doc l) c (Nat.min (c + k) (length (lineAt doc l))))).
  { unfold next, newPosition, bind, at_. cbn [line character].
    destruct (Z.ltb_spec (Z.of_nat l) 0); [lia|].
    destruct (Z.ltb_spec (Z.of_nat c) 0); [lia|].
    destruct (Z.ltb_spec (Z.of_nat c + Z.of_nat k) 0); [lia|].
    replace (Z.of_nat c + Z.of_nat k)%Z with (Z.of_nat (c + k)) by lia.
    change (mkPosition (Z.of_nat l) (Z.of_nat (c + k))) with (at_ l (c + k)).
    change (mkPosition (Z.of_nat l) (Z.of_nat c)) with (at_ l c).
    rewrite newRange_at by lia. rewrite getTextIn_clamp by (exact Hl || lia).
    rewrite (Nat.min_l c) by exact Hc. reflexivity. }
  split; [exact H|].
  intros ->. rewrite H. f_equal. unfold substring.
  rewrite skipn_all. destruct (Nat.min _ _ - _); reflexivity.
Qed.

Lemma next_spec_witness :
  next (mkTextDocument [lit "</view"; lit ">"] [ch_lf]) (at_ 0 2) 2 = Ok (lit "vi") /\
  next (mkTextDocument [lit "</view"; lit ">"] [ch_lf]) (at_ 0 6) 1 = Ok [].
Proof.
  split.
  - apply (next_spec (mkTextDocument [lit "</view"; lit ">"] [ch_lf]) 0 2 2);
      simpl; lia.
  - apply (next_spec (mkTextDocument [lit "</view"; lit ">"] [ch_lf]) 0 6 1);
      simpl; lia.
Defined.

(* ================================================================== *)
(** ** The shape of the provider's result *)
(* ================================================================== *)

Lemma validatePosition_line (doc : TextDocument) (p : Position) :
  (0 <= line (validatePosition doc p))%Z.
Proof.
  unfold validatePosition.
  destruct (Z.eqb_spec (Z.of_nat (length (lines doc))) 0); [simpl; lia|].
  destruct (Z.ltb_spec (line p) 0); [simpl; lia|].
  destruct (Z.geb_spec (line p) (Z.of_nat (length (lines doc)))); simpl; lia.
Qed.

Lemma wordInText_bounds column re text textOffset a b :
  wordInText column re text textOffset = Some (a, b) -> 1 <= a <= b.
Proof.
  unfold wordInText. destruct (searchWindows _ _ _ _ _ _); [|discriminate].
  intros E. inversion E; subst. lia.
Qed.

Lemma getWordAtText_bounds column re text textOffset a b :
  getWordAtText column re text textOffset = Some (a, b) -> 1 <= a <= b.
Proof.
  unfold getWordAtText.
  destruct (maxLen <? length text); [destruct (_ <? 0)%Z|];
    apply wordInText_bounds.
Qed.

(** The word range the editor hands out lies on one line, at
    non-negative columns, its start not after its end. *)
Lemma getWordRangeAtPosition_range (doc : TextDocument) pos re anchor :
  getWordRangeAtPosition doc pos re = Some anchor ->
  (0 <= line (start anchor))%Z /\ line (end_ anchor) = line (start anchor) /\
  (0 <= character (start anchor) <= character (end_ anchor))%Z.
Proof.
  unfold getWordRangeAtPosition. intros H.
  pose proof (validatePosition_line doc pos) as Hq.
  destruct (getWordAtText _ re _ 0) as [[a b]|] eqn:E; [|discriminate].
  inversion H; subst anchor; clear H. cbn [start end_ line character].
  apply getWordAtText_bounds in E. repeat split; lia.
Qed.

Lemma prev_returns (doc : TextDocument) (p : Position) k :
  (0 <= line p)%Z -> (0 <= k <= character p)%Z -> exists s, prev doc p k = Ok s.
Proof.
  intros Hl Hk. unfold prev, newPosition, bind.
  destruct (Z.ltb_spec (line p) 0); [lia|].
  destruct (Z.ltb_spec (character p - k) 0); [lia|].
  destruct (Z.ltb_spec (character p) 0); [lia|]. eexists. reflexivity.
Qed.

Lemma next_returns (doc : TextDocument) (p : Position) k :
  (0 <= line p)%Z -> (0 <= character p)%Z -> (0 <= k)%Z ->
  exists s, next doc p k = Ok s.
Proof.
  intros Hl Hc Hk. unfold next, newPosition, bind.
  destruct (Z.ltb_spec (line p) 0); [lia|].
  destruct (Z.ltb_spec (character p) 0); [lia|].
  destruct (Z.ltb_spec (character p + k) 0); [lia|]. eexists. reflexivity.
Qed.

(** X5: whenever the provider returns, its result is the empty list
    when the editor finds no word at the cursor, and otherwise the range
    of that word first, followed by at most one more range. *)
Theorem provideDocumentHighlights_shape :
  forall (doc : TextDocument) (pos : Position) (res : list DocumentHighlight),
    provideDocumentHighlights doc pos = Ok res ->
    (getWordRangeAtPosition doc pos WordRegexp = None /\ res = []) \/
    (exists anchor others,
       getWordRangeAtPosition doc pos WordRegexp = Some anchor /\
       res = mkDocumentHighlight anchor :: others /\ length others <= 1).
Proof.
  intros doc pos res. unfold provideDocumentHighlights.
  destruct (getWordRangeAtPosition doc pos WordRegexp) as [anchor|].
  2:{ intros H. inversion H. left. auto. }
  intros H. right. exists anchor. revert H.
  destruct (prev doc (start anchor) 1) as [p1|]; cbn [bind]; [|discriminate].
  destruct (str_eqb p1 (lit "<")).
  - destruct (negb _); [destruct (findMatchedEndTag _ _)|];
      cbn [bind]; intros H; inversion H; eexists; (split; [reflexivity|]);
      (split; [reflexivity | simpl; lia]).
  - destruct (prev doc (start anchor) 2) as [p2|]; cbn [bind]; [|discriminate].
    destruct (str_eqb p2 (lit "</")); cbn [bind].
    + destruct (next doc (end_ anchor) 1) as [n1|]; cbn [bind]; [|discriminate].
      destruct (str_eqb n1 (lit ">")); [destruct (findMatchedStartTag _ _)|];
        cbn [bind]; intros H; inversion H; eexists; (split; [reflexivity|]);
        (split; [reflexivity | simpl; lia]).
    + intros H; inversion H; eexists; (split; [reflexivity|]);
        (split; [reflexivity | simpl; lia]).
Qed.

Lemma provideDocumentHighlights_shape_witness :
  (getWordRangeAtPosition pageDoc (at_ 1 5) WordRegexp = None /\
   [mkDocumentHighlight (rangeAt 1 3 7); mkDocumentHighlight (rangeAt 3 4 8)] = []) \/
  (exists anchor others,
     getWordRangeAtPosition pageDoc (at_ 1 5) WordRegexp = Some anchor /\
     [mkDocumentHighlight (rangeAt 1 3 7); mkDocumentHighlight (rangeAt 3 4 8)]
     = mkDocumentHighlight anchor :: others /\ length others <= 1).
Proof.
  apply (provideDocumentHighlights_shape pageDoc (at_ 1 5)). reflexivity.
Defined.

(** X6: the provider throws only at the start of a line: when the word
    under the cursor starts at column 2 or later, it returns. *)
Theorem provideDocumentHighlights_returns :
  forall (doc : TextDocument) (pos : Position) (anchor : Range),
    getWordRangeAtPosition doc pos WordRegexp = Some anchor ->
    (2 <= character (start anchor))%Z ->
    exists others,
      provideDocumentHighlights doc pos = Ok (mkDocumentHighlight anchor :: others).
Proof.
  intros doc pos anchor Hw Hc.
  destruct (getWordRangeAtPosition_range _ _ _ _ Hw) as (Hl & Hle & Hcs).
  unfold provideDocumentHighlights. rewrite Hw.
  destruct (prev_returns doc (start anchor) 1 Hl ltac:(lia)) as (p1 & ->).
  cbn [bind]. destruct (str_eqb p1 (lit "<")).
  - destruct (negb _); [destruct (findMatchedEndTag _ _)|];
      cbn [bind]; eexists; reflexivity.
  - destruct (prev_returns doc (start anchor) 2 Hl ltac:(lia)) as (p2 & ->).
    cbn [bind]. destruct (str_eqb p2 (lit "</")); cbn [bind].
    + destruct (next_returns doc (end_ anchor) 1 ltac:(lia) ltac:(lia) ltac:(lia))
        as (n1 & ->).
      cbn [bind].
      destruct (str_eqb n1 (lit ">")); [destruct (findMatchedStartTag _ _)|];
        cbn [bind]; eexists; reflexivity.
    + eexists. reflexivity.
Qed.

Lemma provideDocumentHighlights_returns_witness :
  exists others,
    provideDocumentHighlights (mkTextDocument [lit "a class=x"] [ch_lf]) (at_ 0 4)
    = Ok (mkDocumentHighlight (rangeAt 0 2 7) :: others).
Proof.
  apply (provideDocumentHighlights_returns
           (mkTextDocument [lit "a class=x"] [ch_lf]) (at_ 0 4) (rangeAt 0 2 7)).
  - reflexivity.
  - simpl. lia.
Defined.

(* ================================================================== *)
(** ** A cursor that touches no name character *)
(* ================================================================== *)

Lemma match_at_Word_stop pos (post : str) :
  stops isTagChar post = true -> match_at WordRegexp pos post = None.
Proof.
  destruct post as [|c post]; [reflexivity|]. simpl. intros H.
  apply match_at_Word_other, negb_true_iff, H.
Qed.

(** A search finds nothing when every match starts after [pos]. *)
Lemma find_none_after re text pos stopPos :
  forall n from,
    n = S (length text) - from ->
    (forall from' mat, from <= from' -> exec re text from' = Some mat ->
                       pos < index mat) ->
    findRegexMatchEnclosingPosition re text pos stopPos from = None.
Proof.
  induction n as [n IH] using lt_wf_ind. intros from Hn Hall.
  rewrite findRegexMatchEnclosingPosition_eq.
  destruct (exec re text from) as [mat|] eqn:E; [|reflexivity].
  pose proof (exec_bounds _ _ _ _ E) as Hb.
  pose proof (Hall from mat (le_n _) E) as Hi.
  destruct (Nat.leb_spec (index mat) pos); [lia|]. cbn [andb].
  destruct (_ && _)%Z; [reflexivity|].
  apply (IH (S (length text) -
             (if Nat.eqb (lastIndex mat) (index mat)
              then S (lastIndex mat) else lastIndex mat))).
  - destruct (Nat.eqb_spec (lastIndex mat) (index mat)); lia.
  - reflexivity.
  - intros from' mat' Hle. apply Hall.
    destruct (Nat.eqb_spec (lastIndex mat) (index mat)); lia.
Qed.

(** No word touches a column that has no name character on either
    side. *)
Lemma find_none (text post : str) pos stopPos :
  stops isTagChar post = true ->
  forall n (u : str) from,
    length u = n -> endsClean u ->
    skipn from text = u ++ post ->
    pos = from + length u ->
    findRegexMatchEnclosingPosition WordRegexp text pos stopPos from = None.
Proof.
  intros Hpost n. induction n as [n IH] using lt_wf_ind.
  intros u from Hlen Hclean H Hpos.
  destruct u as [|x u].
  - simpl in Hpos, H. rewrite Nat.add_0_r in Hpos. subst pos.
    apply (find_none_after _ _ _ _ _ from eq_refl). intros from' mat Hle E.
    pose proof (exec_bounds _ _ _ _ E) as Hb.
    pose proof (exec_found _ _ _ _ E) as Hm.
    destruct (Nat.eq_dec (index mat) from) as [Hi|Hi]; [|lia].
    rewrite Hi, H, (match_at_Word_stop from post Hpost) in Hm. discriminate.
  - assert (Hfrom : from + 1 <= length text).
    { apply (f_equal (@length char)) in H. rewrite length_skipn in H.
      simpl in H. lia. }
    destruct (isTagChar x) eqn:Hx.
    + destruct (span_run (x :: u)) as (r & u' & Hu & Hr & Hs).
      assert (Hrne : r <> []).
      { destruct r; [|discriminate]. simpl in Hu. subst u'. simpl in Hs.
        rewrite Hx in Hs. discriminate. }
      assert (Hune : u' <> []).
      { intros ->. rewrite app_nil_r in Hu. rewrite Hu in Hclean.
        exact (endsClean_not_run r Hrne Hr Hclean). }
      rewrite Hu in H, Hclean, Hlen, Hpos. rewrite <- app_assoc in H.
      rewrite length_app in Hlen, Hpos.
      assert (Hs' : stops isTagChar (u' ++ post) = true).
      { destruct u'; [contradiction | exact Hs]. }
      rewrite findRegexMatchEnclosingPosition_eq, exec_at by lia. rewrite H.
      rewrite (search_hit _ _ _ _ (match_at_Word_run from r _ Hrne Hr Hs')).
      cbn [index lastIndex].
      assert (Hul : 0 < length u') by (destruct u'; [contradiction | simpl; lia]).
      assert (Hrl : 0 < length r) by (destruct r; [contradiction | simpl; lia]).
      destruct (Nat.leb_spec pos (from + length r)); [lia|].
      rewrite andb_false_r.
      destruct (_ && _)%Z; [reflexivity|].
      destruct (Nat.eqb_spec (from + length r) from); [lia|].
      apply skipn_more in H.
      exact (IH (length u') ltac:(lia) u' (from + length r) eq_refl
               (endsClean_suffix r u' Hune Hclean) H ltac:(lia)).
    + assert (H1 : skipn (from + 1) text = u ++ post)
        by exact (skipn_more text from [x] _ H).
      assert (Hskip : exec WordRegexp text from = exec WordRegexp text (from + 1)).
      { rewrite !exec_at by lia. rewrite H1, H. cbn [app].
        rewrite search_skip by (apply match_at_Word_other, Hx).
        f_equal. lia. }
      rewrite (findRegexMatchEnclosingPosition_same_exec _ _ _ _ _ _ Hskip).
      simpl in Hlen, Hpos. clear H. rename H1 into H.
      assert (Hc : endsClean u).
      { destruct u as [|y u]; [reflexivity|].
        apply (endsClean_tail x); [discriminate | exact Hclean]. }
      exact (IH (length u) ltac:(lia) u (from + 1) eq_refl Hc H ltac:(lia)).
Qed.

(** None of the searches finds a word there. *)
Lemma searchWindows_none (text u post : str) :
  text = u ++ post -> endsClean u -> stops isTagChar post = true ->
  forall n i prevRegexIndex,
    n = length u + 1 - windowSize * i ->
    searchWindows WordRegexp text (length u) i prevRegexIndex None = None.
Proof.
  intros Htext Hu Hpost. induction n as [n IH] using lt_wf_ind.
  intros i prev Hn. rewrite searchWindows_eq. cbv zeta.
  set (r := (Z.of_nat (length u) - Z.of_nat (windowSize * i))%Z).
  set (from := Z.to_nat (Z.max 0 r)).
  assert (Hfrom : from <= length u) by (unfold from, r; lia).
  rewrite (find_none text post (length u) prev Hpost (length (skipn from u))
             (skipn from u) from eq_refl (endsClean_skipn u from Hu)).
  - destruct (Z.leb_spec r 0) as [Hr|Hr]; [reflexivity|].
    apply (IH (length u + 1 - windowSize * S i)); [|reflexivity].
    unfold r, windowSize in *. lia.
  - rewrite Htext, skipn_app. replace (from - length u) with 0 by lia. reflexivity.
  - rewrite length_skipn. lia.
Qed.

Lemma wordInText_none (text u post : str) column textOffset :
  text = u ++ post -> endsClean u -> stops isTagChar post = true ->
  column - 1 - textOffset = length u ->
  wordInText column WordRegexp text textOffset = None.
Proof.
  intros Htext Hu Hpost Hcol. unfold wordInText. rewrite Hcol.
  rewrite (searchWindows_none text u post Htext Hu Hpost _ 1 (-1) eq_refl).
  reflexivity.
Qed.

(** Nor does the cut of a long line bring a word to the column. *)
Lemma getWordAtText_none (text u post : str) :
  text = u ++ post -> endsClean u -> stops isTagChar post = true ->
  getWordAtText (length u + 1) WordRegexp text 0 = None.
Proof.
  intros Htext Hu Hpost. unfold getWordAtText.
  pose proof half_maxLen as Hh.
  destruct (maxLen <? length text).
  2:{ apply (wordInText_none text u post); auto. lia. }
  set (h := maxLen / 2) in *. set (st := length u + 1 - h).
  assert (Hsub : forall a, a = st ->
            substring text a (length u + 1 + h)
            = skipn st u ++ firstn (length u + 1 + h - st - length (skipn st u)) post).
  { intros a ->. unfold substring. rewrite Htext, skipn_app.
    replace (st - length u) with 0 by (unfold st; lia). cbn [skipn].
    rewrite firstn_app, firstn_all2 by (rewrite length_skipn; unfold st; lia).
    reflexivity. }
  destruct (Z.ltb_spec (Z.of_nat (length u + 1) - Z.of_nat h) 0).
  - rewrite (Hsub 0) by (unfold st; lia).
    apply (wordInText_none _ _ _ _ _ eq_refl);
      [apply endsClean_skipn, Hu | apply stops_firstn, Hpost|].
    rewrite length_skipn. unfold st. lia.
  - rewrite (Hsub (Z.to_nat (Z.of_nat (length u + 1) - Z.of_nat h)))
      by (unfold st; lia).
    apply (wordInText_none _ _ _ _ _ eq_refl);
      [apply endsClean_skipn, Hu | apply stops_firstn, Hpost|].
    rewrite length_skipn. unfold st. lia.
Qed.

(** X7: with the cursor at a column that has no name character on
    either side (an empty line, white space, punctuation), the editor
    finds no word and the provider returns the empty list. *)
Theorem provideDocumentHighlights_off_word :
  forall (doc : TextDocument) (l : nat) (u post : str),
    l < length (lines doc) ->
    lineAt doc l = u ++ post ->
    endsClean u -> stops isTagChar post = true ->
    provideDocumentHighlights doc (at_ l (length u)) = Ok [].
Proof.
  intros doc l u post Hl Hline Hu Hpost.
  apply provideDocumentHighlights_no_word. unfold getWordRangeAtPosition.
  assert (Hlen : length u <= length (lineAt doc l))
    by (rewrite Hline, length_app; lia).
  rewrite (validatePosition_at doc l Hl (length u) Hlen).
  unfold at_. cbn [line character]. rewrite !Nat2Z.id.
  rewrite (getWordAtText_none (lineAt doc l) u post Hline Hu Hpost).
  reflexivity.
Qed.

Lemma provideDocumentHighlights_off_word_witness :
  provideDocumentHighlights (mkTextDocument [lit "<view>"; lit "a = b"] [ch_lf])
    (at_ 1 (length (lit "a =")))
  = Ok [] /\
  provideDocumentHighlights (mkTextDocument [lit "<view>"; []] [ch_lf])
    (at_ 1 (length (@nil char)))
  = Ok [].
Proof.
  split.
  - apply (provideDocumentHighlights_off_word
             (mkTextDocument [lit "<view>"; lit "a = b"] [ch_lf]) 1 (lit "a =") (lit " b"));
      try reflexivity. simpl. lia.
  - apply (provideDocumentHighlights_off_word
             (mkTextDocument [lit "<view>"; []] [ch_lf]) 1 [] []);
      try reflexivity. simpl. lia.
Defined.

(* ================================================================== *)
(** ** Matching does not look behind

    A pattern without [^] matches a text the same way wherever the text
    stands; only the indices of the match move.  So a global replace
    works through a text stretch by stretch. *)
(* ================================================================== *)

Lemma orelse_map R R' (g : R -> R') (a b : option R) :
  option_map g (orelse a b) = orelse (option_map g a) (option_map g b).
Proof. destruct a; reflexivity. Qed.

Section Shift.
Context {R R' : Type}.
Variables (g : R -> R') (d : nat) (k : cont R) (k' : cont R').
Hypothesis Hk : forall p s cs, k' (p + d) s cs = option_map g (k p s cs).

Lemma star_shift p : forall s pos cs,
  star p (pos + d) s cs k' = option_map g (star p pos s cs k).
Proof.
  induction s as [|c s IH]; intros pos cs; cbn [star]; [apply Hk|].
  destruct (p c); [|apply Hk].
  rewrite orelse_map, <- Hk, <- IH. reflexivity.
Qed.

Lemma lazy_star_shift p : forall s pos cs,
  lazy_star p (pos + d) s cs k' = option_map g (lazy_star p pos s cs k).
Proof.
  induction s as [|c s IH]; intros pos cs; cbn [lazy_star]; [apply Hk|].
  rewrite orelse_map, <- Hk. destruct (p c); [|reflexivity].
  rewrite <- IH. reflexivity.
Qed.
End Shift.

Lemma m_shift (r : regex) : bolFree r = true ->
  forall R R' (g : R -> R') d (k : cont R) (k' : cont R'),
    (forall p s cs, k' (p + d) s cs = option_map g (k p s cs)) ->
    forall pos s cs, m r (pos + d) s cs k' = option_map g (m r pos s cs k).
Proof.
  induction r as [c|p|r1 IH1 r2 IH2|r1 IH1 r2 IH2|p|p|p|i r IH|];
    cbn [bolFree m]; intros Hr R R' g d k k' Hk pos s cs.
  - destruct s as [|x s]; [reflexivity|].
    destruct (x =? c)%N; [apply (Hk (S pos))|reflexivity].
  - destruct s as [|x s]; [reflexivity|].
    destruct (p x); [apply (Hk (S pos))|reflexivity].
  - apply andb_true_iff in Hr. destruct Hr as [H1 H2].
    apply (IH1 H1). intros. apply (IH2 H2). exact Hk.
  - apply andb_true_iff in Hr. destruct Hr as [H1 H2].
    rewrite orelse_map, <- (IH1 H1 _ _ g d k k' Hk), <- (IH2 H2 _ _ g d k k' Hk).
    reflexivity.
  - apply star_shift. exact Hk.
  - destruct s as [|x s]; [reflexivity|].
    destruct (p x); [|reflexivity]. apply (star_shift g d k k' Hk p s (S pos)).
  - apply lazy_star_shift. exact Hk.
  - apply (IH Hr). intros q s' cs'.
    replace (q + d - (pos + d)) with (q - pos) by lia. apply Hk.
  - discriminate.
Qed.

Lemma match_at_shift re d pos s :
  bolFree re = true ->
  match_at re (pos + d) s = option_map (shiftMatch d) (match_at re pos s).
Proof.
  intros Hr. unfold match_at. apply (m_shift re Hr). reflexivity.
Qed.

Lemma search_shift re d : bolFree re = true -> forall s pos,
  search re (pos + d) s = option_map (shiftMatch d) (search re pos s).
Proof.
  intros Hr. induction s as [|c s IH]; intros pos; cbn [search];
    rewrite (match_at_shift re d pos _ Hr).
  - destruct (match_at re pos []); reflexivity.
  - destruct (match_at re pos (c :: s)); [reflexivity|]. apply (IH (S pos)).
Qed.

Lemma exec_shift re (pre s : str) from :
  bolFree re = true ->
  exec re (pre ++ s) (length pre + from)
  = option_map (shiftMatch (length pre)) (exec re s from).
Proof.
  intros Hr. unfold exec. rewrite length_app.
  destruct (Nat.ltb_spec (length s) from);
    destruct (Nat.ltb_spec (length pre + length s) (length pre + from)); try lia;
    [reflexivity|].
  rewrite (Nat.add_comm (length pre) from), <- skipn_skipn, skipn_prefix.
  apply search_shift. exact Hr.
Qed.

Lemma substring_shift (pre s : str) a b :
  substring (pre ++ s) (length pre + a) (length pre + b) = substring s a b.
Proof.
  unfold substring.
  rewrite (Nat.add_comm (length pre) a), <- skipn_skipn, skipn_prefix. f_equal. lia.
Qed.

Lemma replace_loop_shift re f (pre s : str) from copied :
  bolFree re = true ->
  replace_loop re f (pre ++ s) (length pre + from) (length pre + copied)
  = replace_loop re f s from copied.
Proof.
  intros Hr. remember (S (length s) - from) as n eqn:Hn.
  revert from copied Hn. induction n as [n IH] using lt_wf_ind. intros from copied Hn.
  rewrite (replace_loop_eq re f (pre ++ s)), (replace_loop_eq re f s).
  rewrite (exec_shift re pre s from Hr).
  destruct (exec re s from) as [mat|] eqn:E;
    cbn [option_map shiftMatch index lastIndex].
  - pose proof (exec_bounds _ _ _ _ E) as Hb.
    rewrite (Nat.add_comm (index mat)), (Nat.add_comm (lastIndex mat)).
    rewrite !substring_shift. do 2 f_equal.
    destruct (Nat.eqb_spec (lastIndex mat) (index mat));
      destruct (Nat.eqb_spec (length pre + lastIndex mat) (length pre + index mat));
      try lia.
    + rewrite <- Nat.add_succ_r.
      apply (IH (S (length s) - S (lastIndex mat))); lia.
    + apply (IH (S (length s) - lastIndex mat)); lia.
  - unfold sliceFrom.
    rewrite (Nat.add_comm (length pre)), <- skipn_skipn, skipn_prefix. reflexivity.
Qed.

(** A stretch in which no match starts is copied, and the replace goes
    on after it as if the text started there. *)
Lemma pass_dead re (blk : str) : bolFree re = true -> dead re blk -> pass re blk blk.
Proof.
  intros Hr Hd rest. rewrite (replace_dead re replacer blk rest Hd).
  rewrite <- (Nat.add_0_r (length blk)). rewrite (replace_loop_shift re replacer blk rest 0 0 Hr).
  reflexivity.
Qed.

(** A stretch that the pattern matches as a whole is blanked. *)
Lemma pass_match re (blk : str) :
  bolFree re = true -> blk <> [] ->
  (forall rest, exists cs,
     match_at re 0 (blk ++ rest) = Some (mkMatch 0 (length blk) cs)) ->
  pass re blk (replacer blk).
Proof.
  intros Hr Hne Hm rest. destruct (Hm rest) as (cs & Hmat).
  unfold replace. rewrite replace_loop_eq.
  rewrite exec_at by lia. cbn [skipn]. rewrite (search_hit _ _ _ _ Hmat).
  cbn [index lastIndex].
  assert (Hl : 0 < length blk) by (destruct blk; [contradiction | simpl; lia]).
  destruct (Nat.eqb_spec (length blk) 0); [lia|].
  rewrite substring_prefix. unfold substring at 1. cbn [Nat.sub firstn app].
  f_equal.
  rewrite <- (Nat.add_0_r (length blk)).
  apply (replace_loop_shift re replacer blk rest 0 0 Hr).
Qed.

Lemma pass_app re (a a' b b' : str) :
  pass re a a' -> pass re b b' -> pass re (a ++ b) (a' ++ b').
Proof. intros Ha Hb rest. rewrite <- !app_assoc, Ha, Hb. reflexivity. Qed.

Lemma pass_nil re : pass re [] [].
Proof. intros rest. reflexivity. Qed.

Lemma replace_nil re : replace re replacer [] = [].
Proof.
  pose proof (blanked_length _ _ (replace_blanked re [])) as Hl.
  destruct (replace re replacer []); [reflexivity | discriminate].
Qed.

Lemma normalize_nil : normalize [] = [].
Proof. unfold normalize. rewrite !replace_nil. reflexivity. Qed.

Lemma pass_whole re (a a' : str) : pass re a a' -> replace re replacer a = a'.
Proof.
  intros H. specialize (H []). rewrite replace_nil, !app_nil_r in H. exact H.
Qed.

Lemma pass_length re (a a' : str) : pass re a a' -> length a' = length a.
Proof.
  intros H. rewrite <- (pass_whole re a a' H).
  exact (blanked_length _ _ (replace_blanked re a)).
Qed.

Lemma norm_normalize (raw clean rest : str) :
  norm raw clean -> normalize (raw ++ rest) = clean ++ normalize rest.
Proof.
  intros (c1 & c2 & Hc & Hq & Hs). unfold normalize.
  rewrite (Hc rest), (Hq _), (Hs _). reflexivity.
Qed.

Lemma norm_whole (raw clean : str) : norm raw clean -> normalize raw = clean.
Proof.
  intros H. pose proof (norm_normalize raw clean [] H) as E.
  rewrite normalize_nil, !app_nil_r in E. exact E.
Qed.

Lemma norm_app (a a' b b' : str) : norm a a' -> norm b b' -> norm (a ++ b) (a' ++ b').
Proof.
  intros (a1 & a2 & Ha1 & Ha2 & Ha3) (b1 & b2 & Hb1 & Hb2 & Hb3).
  exists (a1 ++ b1), (a2 ++ b2). auto using pass_app.
Qed.

Lemma norm_nil : norm [] [].
Proof. exists [], []. auto using pass_nil. Qed.

Lemma norm_length (a a' : str) : norm a a' -> length a' = length a.
Proof.
  intros (c1 & c2 & H1 & H2 & H3).
  rewrite (pass_length _ _ _ H3), (pass_length _ _ _ H2). exact (pass_length _ _ _ H1).
Qed.

Lemma bolFree_Comment : bolFree CommentRegexp = true.
Proof. reflexivity. Qed.

Lemma bolFree_Quoted : bolFree QuotedRegexp = true.
Proof. reflexivity. Qed.

Lemma bolFree_SelfClosing : bolFree SelfClosingRegexp = true.
Proof. reflexivity. Qed.

(** A stretch that is dead for the three patterns is its own normal
    form. *)
Lemma norm_dead (blk : str) :
  dead CommentRegexp blk -> dead QuotedRegexp blk -> dead SelfClosingRegexp blk ->
  norm blk blk.
Proof.
  intros Hc Hq Hs. exists blk, blk.
  auto using pass_dead, bolFree_Comment, bolFree_Quoted, bolFree_SelfClosing.
Qed.

(* ================================================================== *)
(** ** A comment on one line *)
(* ================================================================== *)

(** The lazy star steps over a run after no prefix of which the rest of
    the pattern matches. *)
Lemma lazy_star_first {R} p (k : cont R) : forall (n : str) pos (rest : str) cs,
  forallb p n = true ->
  (forall j, j < length n -> k (pos + j) (skipn j n ++ rest) cs = None) ->
  lazy_star p pos (n ++ rest) cs k = lazy_star p (pos + length n) rest cs k.
Proof.
  induction n as [|c n IH]; cbn [app length]; intros pos rest cs Hn Hk.
  - rewrite Nat.add_0_r. reflexivity.
  - simpl in Hn. apply andb_true_iff in Hn. destruct Hn as [Hc Hn].
    cbn [lazy_star]. rewrite Hc.
    pose proof (Hk 0 (Nat.lt_0_succ _)) as H0. rewrite Nat.add_0_r in H0.
    simpl in H0. rewrite H0. cbn [orelse].
    rewrite (IH (S pos) rest cs Hn).
    + f_equal. lia.
    + intros j Hj. specialize (Hk (S j) (proj1 (Nat.succ_lt_mono _ _) Hj)).
      replace (S pos + j) with (pos + S j) by lia. exact Hk.
Qed.

Lemma closes_ext (s rest : str) : 3 <= length s -> closes (s ++ rest) = closes s.
Proof.
  destruct s as [|c1 [|c2 [|c3 s]]]; simpl; intros H; try lia. reflexivity.
Qed.

Lemma commentText_isDot : forall a, commentText a = true -> forallb isDot a = true.
Proof.
  induction a as [|c a IH]; [reflexivity|]. cbn [commentText forallb]. intros H.
  apply andb_true_iff in H. destruct H as [H Ha].
  apply andb_true_iff in H. destruct H as [Hc _].
  rewrite Hc, (IH Ha). reflexivity.
Qed.

Lemma commentText_open : forall a j rest,
  commentText a = true -> j < length a ->
  closes (skipn j a ++ lit "-->" ++ rest) = false.
Proof.
  induction a as [|c a IH]; intros j rest H Hj; [simpl in Hj; lia|].
  cbn [commentText] in H.
  apply andb_true_iff in H. destruct H as [H Ha].
  apply andb_true_iff in H. destruct H as [_ Hc].
  destruct j as [|j].
  - cbn [skipn]. rewrite app_assoc, closes_ext.
    + apply negb_true_iff. exact Hc.
    + rewrite length_app. simpl. lia.
  - cbn [skipn]. apply IH; [exact Ha | simpl in Hj; lia].
Qed.

Lemma match_at_Comment pos (a rest : str) :
  commentText a = true ->
  match_at CommentRegexp pos (comment a ++ rest)
  = Some (mkMatch pos (pos + length (comment a)) []).
Proof.
  intros Ha. unfold match_at, comment. rewrite CommentRegexp_eq.
  change (lit "<!--") with [ch_lt; ch_bang; ch_dash; ch_dash].
  rewrite <- !app_assoc. cbn [m app]. rewrite !N.eqb_refl.
  rewrite lazy_star_first.
  - change (lit "-->" ++ rest) with (ch_dash :: ch_dash :: ch_gt :: rest).
    cbn [lazy_star m]. rewrite !N.eqb_refl. cbn [orelse].
    f_equal. f_equal. cbn [length]. rewrite length_app. simpl. lia.
  - apply commentText_isDot, Ha.
  - intros j Hj. pose proof (commentText_open a j rest Ha Hj) as Hc.
    destruct (skipn j a ++ lit "-->" ++ rest) as [|c1 [|c2 [|c3 s]]];
      cbn [closes] in Hc; try reflexivity.
    + destruct (c1 =? ch_dash)%N; reflexivity.
    + destruct (c1 =? ch_dash)%N; [|reflexivity].
      destruct (c2 =? ch_dash)%N; reflexivity.
    + destruct (c1 =? ch_dash)%N; [|reflexivity].
      destruct (c2 =? ch_dash)%N; [|reflexivity].
      cbn [andb] in Hc. rewrite Hc. reflexivity.
Qed.

Lemma replacer_spaces (raw : str) : forallb plain (replacer raw) = true.
Proof. unfold replacer. induction (length raw); [reflexivity | exact IHn]. Qed.

Lemma norm_plain (t : str) : forallb plain t = true -> norm t t.
Proof.
  intros Ht. apply norm_dead; apply dead_plain;
    auto using blind_Comment, blind_Quoted, blind_SelfClosing.
Qed.

Lemma comment_nonempty a : comment a <> [].
Proof. discriminate. Qed.

Lemma norm_comment (a : str) :
  commentText a = true -> norm (comment a) (replacer (comment a)).
Proof.
  intros Ha. exists (replacer (comment a)), (replacer (comment a)).
  pose proof (replacer_spaces (comment a)) as Hs.
  split; [|split].
  - apply pass_match; [reflexivity | apply comment_nonempty |].
    intros rest. exists []. exact (match_at_Comment 0 a rest Ha).
  - apply pass_dead; [reflexivity|]. apply dead_plain; [apply blind_Quoted | exact Hs].
  - apply pass_dead; [reflexivity|].
    apply dead_plain; [apply blind_SelfClosing | exact Hs].
Qed.

(** X8: a comment that stands on one line is blanked as a whole,
    whatever it holds (tags, quotes), and the text after it is
    normalized as if it stood alone. *)
Theorem normalize_comment : forall (a rest : str),
  commentText a = true ->
  normalize (lit "<!--" ++ a ++ lit "-->" ++ rest)
  = repeat ch_space (length a + 7) ++ normalize rest.
Proof.
  intros a rest Ha.
  pose proof (norm_normalize (comment a) _ rest (norm_comment a Ha)) as H.
  unfold comment in H. rewrite <- !app_assoc in H. rewrite H. f_equal.
  unfold replacer. f_equal. rewrite !length_app. simpl. lia.
Qed.

Lemma normalize_comment_witness :
  normalize (lit "<!--" ++ lit " </view> it's " ++ lit "-->" ++ lit "</view>")
  = repeat ch_space (length (lit " </view> it's ") + 7) ++ normalize (lit "</view>").
Proof.
  apply (normalize_comment (lit " </view> it's ") (lit "</view>")). reflexivity.
Defined.

(* ================================================================== *)
(** ** Quoted values *)
(* ================================================================== *)

Lemma noBang_notLt (s : str) : forallb notLt s = true -> noBang s = true.
Proof.
  induction s as [|c s IH]; [reflexivity|]. cbn [forallb noBang]. intros H.
  apply andb_true_iff in H. destruct H as [Hc Hs].
  unfold notLt in Hc. apply negb_true_iff in Hc. rewrite Hc, (IH Hs). reflexivity.
Qed.

Lemma noBang_app (a b : str) :
  noBang a = true -> noBang b = true -> noBang (a ++ b) = true.
Proof.
  induction a as [|c a IH]; [auto|]. cbn [app noBang]. intros Ha Hb.
  apply andb_true_iff in Ha. destruct Ha as [Hc Ha].
  rewrite (IH Ha Hb), andb_true_r.
  destruct (c =? ch_lt)%N; [|reflexivity].
  destruct a as [|d a]; [discriminate | exact Hc].
Qed.

(** No comment starts in a text without [<!]. *)
Lemma dead_noBang : forall blk, noBang blk = true -> dead CommentRegexp blk.
Proof.
  induction blk as [|c blk IH]; [intros; apply dead_nil|].
  cbn [noBang]. intros H. apply andb_true_iff in H. destruct H as [Hc Hb].
  apply dead_cons; [|apply IH, Hb]. intros pos s.
  destruct (N.eqb_spec c ch_lt) as [->|Hne].
  - destruct blk as [|d blk]; [discriminate|]. cbn [app].
    apply Comment_lt, negb_true_iff, Hc.
  - apply Comment_other. unfold notLt. apply negb_true_iff, N.eqb_neq, Hne.
Qed.

Lemma isQuote_cases q : isQuote q = true -> q = ch_dquote \/ q = ch_squote.
Proof.
  unfold isQuote. intros H. apply orb_true_iff in H.
  destruct H as [H|H]; apply N.eqb_eq in H; auto.
Qed.

Lemma firstn_prefix (a b : str) n : n = length a -> firstn n (a ++ b) = a.
Proof.
  intros ->. rewrite <- (Nat.add_0_r (length a)), firstn_app_2.
  simpl. apply app_nil_r.
Qed.

Lemma match_at_Quoted pos q (body rest : str) :
  isQuote q = true -> forallb (fun c => negb (c =? q)%N) body = true ->
  match_at QuotedRegexp pos (quoted q body ++ rest)
  = Some (mkMatch pos (pos + length (quoted q body)) [(1, quoted q body)]).
Proof.
  intros Hq Hb. unfold match_at, QuotedRegexp, quoted.
  assert (Hlen : length (q :: body ++ [q]) = length body + 2)
    by (cbn [length]; rewrite length_app; simpl; lia).
  assert (Hcap : firstn (S (S pos + length body) - pos) ((q :: body ++ [q]) ++ rest)
                 = q :: body ++ [q]) by (apply firstn_prefix; lia).
  assert (Hend : S (S pos + length body) = pos + length (q :: body ++ [q])) by lia.
  cbn [app] in Hcap |- *. rewrite <- app_assoc in Hcap |- *. cbn [app] in Hcap |- *.
  destruct (isQuote_cases q Hq) as [-> | ->]; cbn [m].
  - rewrite N.eqb_refl.
    erewrite star_greedy; [| exact Hb | reflexivity |].
    + cbn [orelse]. reflexivity.
    + cbn [m]. rewrite N.eqb_refl, Hcap, Hend. reflexivity.
  - change (ch_squote =? ch_dquote)%N with false. cbn [orelse].
    rewrite N.eqb_refl.
    erewrite star_greedy; [| exact Hb | reflexivity |].
    + reflexivity.
    + cbn [m]. rewrite N.eqb_refl, Hcap, Hend. reflexivity.
Qed.

Lemma quote_notLt q : isQuote q = true -> (q =? ch_lt)%N = false.
Proof. intros H. destruct (isQuote_cases q H) as [-> | ->]; reflexivity. Qed.

Lemma norm_quoted q (body : str) :
  isQuote q = true -> forallb (fun c => negb (c =? q)%N) body = true ->
  noBang (body ++ [q]) = true ->
  norm (quoted q body) (replacer (quoted q body)).
Proof.
  intros Hq Hb Hn. exists (quoted q body), (replacer (quoted q body)).
  pose proof (replacer_spaces (quoted q body)) as Hs.
  split; [|split].
  - apply pass_dead; [reflexivity|]. apply dead_noBang. unfold quoted.
    cbn [noBang]. rewrite (quote_notLt q Hq), Hn. reflexivity.
  - apply pass_match; [reflexivity | discriminate |].
    intros rest. eexists. exact (match_at_Quoted 0 q body rest Hq Hb).
  - apply pass_dead; [reflexivity|].
    apply dead_plain; [apply blind_SelfClosing | exact Hs].
Qed.

(** X9: a quoted value, double or single, without [<!] in it is blanked
    as a whole, angle brackets and tags in it included, and the text
    after it is normalized as if it stood alone. *)
Theorem normalize_quoted : forall (q : char) (body rest : str),
  isQuote q = true ->
  forallb (fun c => negb (c =? q)%N) body = true ->
  noBang (body ++ [q]) = true ->
  normalize (q :: body ++ q :: rest)
  = repeat ch_space (length body + 2) ++ normalize rest.
Proof.
  intros q body rest Hq Hb Hn.
  pose proof (norm_normalize (quoted q body) _ rest (norm_quoted q body Hq Hb Hn)) as H.
  unfold quoted in H. cbn [app] in H. rewrite <- app_assoc in H. cbn [app] in H.
  rewrite H.
  f_equal. unfold replacer. f_equal. cbn [length]. rewrite length_app. simpl. lia.
Qed.

Lemma normalize_quoted_witness :
  normalize (ch_dquote :: lit "{{a > b}} </view>" ++ ch_dquote :: lit "></view>")
  = repeat ch_space (length (lit "{{a > b}} </view>") + 2) ++ normalize (lit "></view>").
Proof.
  apply (normalize_quoted ch_dquote (lit "{{a > b}} </view>") (lit "></view>"));
    reflexivity.
Defined.

(* ================================================================== *)
(** ** Attribute text and self-closing tags *)
(* ================================================================== *)

(** The greedy star gives back one code unit when the rest of the
    pattern fails after the whole run and matches one code unit
    earlier. *)
Lemma star_back1 {R} p (k : cont R) x : forall (n : str) pos c (rest : str) cs,
  forallb p n = true -> p c = true -> stops p rest = true ->
  k (pos + length n + 1) rest cs = None ->
  k (pos + length n) (c :: rest) cs = Some x ->
  star p pos (n ++ c :: rest) cs k = Some x.
Proof.
  induction n as [|y n IH]; cbn [app length]; intros pos c rest cs Hn Hc Hr Hno Hk.
  - rewrite Nat.add_0_r in Hno, Hk. cbn [star]. rewrite Hc.
    assert (Hs : star p (S pos) rest cs k = None).
    { destruct rest as [|d rest]; cbn [star].
      - rewrite <- Hno. f_equal. lia.
      - simpl in Hr. apply negb_true_iff in Hr. rewrite Hr, <- Hno. f_equal. lia. }
    rewrite Hs. exact Hk.
  - simpl in Hn. apply andb_true_iff in Hn. destruct Hn as [Hy Hn].
    cbn [star]. rewrite Hy.
    rewrite (IH (S pos) c rest cs Hn Hc Hr); [reflexivity | |].
    + rewrite <- Hno. f_equal. lia.
    + rewrite <- Hk. f_equal. lia.
Qed.

Lemma endsSlash_app (a b : str) : b <> [] -> endsSlash (a ++ b) = endsSlash b.
Proof.
  intros Hb. induction a as [|c a IH]; [reflexivity|].
  cbn [app endsSlash]. destruct (a ++ b) eqn:E; [|exact IH].
  destruct a; [contradiction | discriminate].
Qed.

Lemma endsSlash_skipn : forall (u : str) j,
  endsSlash u = false -> endsSlash (skipn j u) = false.
Proof.
  induction u as [|c u IH]; intros j H; [destruct j; reflexivity|].
  destruct j as [|j]; [exact H|]. cbn [skipn]. apply IH.
  destruct u as [|d u]; [reflexivity | exact H].
Qed.

Lemma endsSlash_blanked (a b : str) :
  blanked a b -> endsSlash a = false -> endsSlash b = false.
Proof.
  induction 1 as [|x y a b Hxy Hab IH]; [auto|].
  destruct Hab as [|x' y' a b Hxy' Hab]; cbn [endsSlash] in *.
  - intros H. destruct Hxy as [->| ->]; [exact H | reflexivity].
  - exact IH.
Qed.

(** After attribute text that does not end with [/], the pattern part
    [[^<>]*\/>] finds no [/>] before the [>] of the tag. *)
Lemma star_notAngle_open {R} (k : cont R) (u s : str) pos cs :
  forallb notAngle u = true -> endsSlash u = false ->
  star notAngle pos (u ++ ch_gt :: s) cs
    (fun pos' s' cs' => m (Seq (Chr ch_slash) (Chr ch_gt)) pos' s' cs' k)
  = None.
Proof.
  intros Hu He. apply star_none; [exact Hu | reflexivity |].
  intros j Hj. pose proof (endsSlash_skipn u j He) as Hej.
  assert (Hin : forallb notAngle (skipn j u) = true).
  { rewrite forallb_forall in *. intros c Hc. apply Hu.
    rewrite <- (firstn_skipn j u). apply in_or_app. right. exact Hc. }
  destruct (skipn j u) as [|c [|d r]]; cbn [app m].
  - reflexivity.
  - simpl in Hej. rewrite Hej. reflexivity.
  - destruct (c =? ch_slash)%N; [|reflexivity].
    simpl in Hin. apply andb_true_iff in Hin. destruct Hin as [_ Hin].
    apply andb_true_iff in Hin. destruct Hin as [Hd _].
    unfold notAngle in Hd. apply negb_true_iff, orb_false_iff in Hd.
    destruct Hd as [_ Hd]. rewrite Hd. reflexivity.
Qed.

(** The start tag [<name tail>] whose tail does not end with [/] is
    no self-closing tag. *)
Lemma SelfClosing_open pos (n t s : str) :
  tagName n -> forallb notAngle t = true -> endsSlash t = false ->
  stops isTagChar t = true ->
  match_at SelfClosingRegexp pos (ch_lt :: n ++ t ++ ch_gt :: s) = None.
Proof.
  intros [Hne Hn] Ht He Hst. unfold match_at, SelfClosingRegexp. cbn [m].
  rewrite N.eqb_refl. destruct n as [|y n]; [contradiction|]. cbn [app].
  simpl in Hn. apply andb_true_iff in Hn. destruct Hn as [Hy Hn]. rewrite Hy.
  apply star_none; [exact Hn | destruct t; [reflexivity | exact Hst] |].
  intros j Hj. destruct (skipn j n) as [|z r] eqn:E; cbn [app].
  - destruct t as [|sp t]; cbn [app]; [reflexivity|].
    destruct (isSpace sp); [|reflexivity].
    destruct (span_class isSpace t) as (ws & t' & Ht' & Hws & Hstop).
    assert (Hstop' : stops isSpace (t' ++ ch_gt :: s) = true)
      by (destruct t'; [reflexivity | exact Hstop]).
    subst t. rewrite <- app_assoc.
    apply star_none; [exact Hws | exact Hstop' |].
    intros i Hi. rewrite app_assoc.
    replace (skipn i ws ++ t') with (skipn i (ws ++ t'))
      by (rewrite skipn_app; replace (i - length ws) with 0 by lia; reflexivity).
    simpl in Ht. apply andb_true_iff in Ht. destruct Ht as [_ Ht].
    refine (star_notAngle_open (fun pos' _ cs => Some (mkMatch pos pos' cs))
              (skipn i (ws ++ t')) s _ [] _ _).
    + apply forallb_skipn, Ht.
    + apply endsSlash_skipn.
      destruct (ws ++ t') eqn:Ew; [reflexivity | exact He].
  - assert (Hz : isTagChar z = true).
    { assert (Hin : In z n).
      { rewrite <- (firstn_skipn j n), E. apply in_or_app. right. left. reflexivity. }
      rewrite forallb_forall in Hn. apply Hn. exact Hin. }
    rewrite (tagChar_not_space z Hz). reflexivity.
Qed.

Lemma notAngle_notLt c : notAngle c = true -> notLt c = true.
Proof.
  unfold notAngle, notLt. intros H. apply negb_true_iff, orb_false_iff in H.
  apply negb_true_iff. tauto.
Qed.

Lemma dead_SelfClosing_open (n t : str) :
  tagName n -> forallb notAngle t = true -> endsSlash t = false ->
  stops isTagChar t = true ->
  dead SelfClosingRegexp (ch_lt :: n ++ t ++ [ch_gt]).
Proof.
  intros Hn Ht He Hst. apply dead_cons.
  - intros pos s. rewrite <- !app_assoc. cbn [app].
    apply SelfClosing_open; assumption.
  - apply dead_chars with (ok := notLt); [apply SelfClosing_other|].
    rewrite !forallb_app. rewrite (forallb_impl isTagChar notLt n tagChar_notLt (proj2 Hn)).
    rewrite (forallb_impl notAngle notLt t notAngle_notLt Ht). reflexivity.
Qed.

(** [<name], white space, attribute text without angle brackets and
    [/>] is matched as a whole by the self-closing pattern. *)
Lemma match_at_SelfClosing pos (n : str) sp (t rest : str) :
  tagName n -> isSpace sp = true -> forallb notAngle t = true ->
  match_at SelfClosingRegexp pos (selfClosing n (sp :: t) ++ rest)
  = Some (mkMatch pos (pos + length (selfClosing n (sp :: t))) []).
Proof.
  intros [Hne Hn] Hsp Ht. unfold match_at, SelfClosingRegexp, selfClosing.
  assert (Hlen : length (ch_lt :: n ++ (sp :: t) ++ lit "/>") = length n + length t + 4).
  { cbn [length]. rewrite !length_app. simpl. lia. }
  rewrite Hlen. cbn [app]. rewrite <- !app_assoc. cbn [m app]. rewrite N.eqb_refl.
  destruct n as [|y n]; [contradiction|]. cbn [app].
  simpl in Hn. apply andb_true_iff in Hn. destruct Hn as [Hy Hn]. rewrite Hy.
  assert (Hnsp : isTagChar sp = false).
  { destruct (isTagChar sp) eqn:E; [|reflexivity].
    rewrite (tagChar_not_space sp E) in Hsp. discriminate. }
  erewrite star_greedy; [reflexivity | exact Hn | simpl; rewrite Hnsp; reflexivity |].
  cbn [m]. rewrite Hsp.
  destruct (span_class isSpace t) as (ws & t' & Et & Hws & Hstop).
  assert (Hstop' : stops isSpace (t' ++ ch_slash :: ch_gt :: rest) = true)
    by (destruct t'; [reflexivity | exact Hstop]).
  subst t. rewrite <- !app_assoc.
  change (lit "/>" ++ rest) with (ch_slash :: ch_gt :: rest).
  erewrite star_greedy; [reflexivity | exact Hws | exact Hstop' |].
  rewrite forallb_app in Ht. apply andb_true_iff in Ht. destruct Ht as [_ Ht'].
  erewrite star_back1; [reflexivity | exact Ht' | reflexivity | reflexivity | |].
  - reflexivity.
  - cbn [m]. rewrite !N.eqb_refl. f_equal. f_equal.
    cbn [length]. rewrite length_app. lia.
Qed.

Lemma plainAttr_notLt c : plainAttr c = true -> notLt c = true.
Proof.
  unfold plainAttr. intros H. apply andb_true_iff in H.
  apply notAngle_notLt. tauto.
Qed.

Lemma plainAttr_notAngle c : plainAttr c = true -> notAngle c = true.
Proof. unfold plainAttr. intros H. apply andb_true_iff in H. tauto. Qed.

Lemma plainAttr_notQuote c : plainAttr c = true -> notQuote c = true.
Proof. unfold plainAttr. intros H. apply andb_true_iff in H. tauto. Qed.

Lemma space_plainAttr c : isSpace c = true -> plainAttr c = true.
Proof.
  intros H. destruct (plainAttr c) eqn:E; [reflexivity|exfalso].
  unfold plainAttr, notQuote in E. char_facts.
Qed.

Lemma space_not_tagChar c : isSpace c = true -> isTagChar c = false.
Proof.
  intros H. destruct (isTagChar c) eqn:E; [|reflexivity].
  rewrite (tagChar_not_space c E) in H. discriminate.
Qed.

Lemma spaces_plainAttr n : forallb plainAttr (repeat ch_space n) = true.
Proof. induction n; [reflexivity | exact IHn]. Qed.

(** Text of plain attribute code units is left alone by the three
    passes. *)
Lemma pass_plainAttr (t : str) :
  forallb plainAttr t = true ->
  pass CommentRegexp t t /\ pass QuotedRegexp t t /\ pass SelfClosingRegexp t t.
Proof.
  intros Ht. repeat split; (apply pass_dead; [reflexivity|]).
  - apply dead_chars with (ok := notLt); [apply Comment_other|].
    exact (forallb_impl plainAttr notLt t plainAttr_notLt Ht).
  - apply dead_chars with (ok := notQuote); [apply Quoted_notQuote|].
    exact (forallb_impl plainAttr notQuote t plainAttr_notQuote Ht).
  - apply dead_chars with (ok := notLt); [apply SelfClosing_other|].
    exact (forallb_impl plainAttr notLt t plainAttr_notLt Ht).
Qed.

(** The passes over attribute text: the quoted pass blanks the quoted
    values, the other two change nothing. *)
Lemma attrText_passes (a : str) :
  attrText a ->
  exists a2, pass CommentRegexp a a /\ pass QuotedRegexp a a2 /\
             pass SelfClosingRegexp a2 a2 /\ forallb plainAttr a2 = true.
Proof.
  induction 1 as [|c Hc|q body Hq Hb Hn|a b _ (a2 & Ha1 & Ha2 & Ha3 & Ha4)
                                              _ (b2 & Hb1 & Hb2 & Hb3 & Hb4)].
  - exists []. auto using pass_nil.
  - exists [c].
    assert (Ht : forallb plainAttr [c] = true) by (simpl; rewrite Hc; reflexivity).
    destruct (pass_plainAttr [c] Ht) as (H1 & H2 & H3). auto.
  - exists (replacer (quoted q body)).
    assert (Hs : forallb plainAttr (replacer (quoted q body)) = true)
      by apply spaces_plainAttr.
    destruct (pass_plainAttr _ Hs) as (_ & _ & H3).
    repeat split; [| |exact H3|exact Hs].
    + apply pass_dead; [reflexivity|]. apply dead_noBang. unfold quoted.
      cbn [noBang]. rewrite (quote_notLt q Hq), Hn. reflexivity.
    + apply pass_match; [reflexivity | discriminate |].
      intros rest. eexists. exact (match_at_Quoted 0 q body rest Hq Hb).
  - exists (a2 ++ b2). rewrite forallb_app, Ha4, Hb4. auto using pass_app.
Qed.

Lemma pass_blanked re (a a' : str) : pass re a a' -> blanked a a'.
Proof. intros H. rewrite <- (pass_whole re a a' H). apply replace_blanked. Qed.

(** The passes over what stands between a tag name and [>]. *)
Lemma tagTail_passes (t : str) :
  tagTail t ->
  exists t2, pass CommentRegexp t t /\ pass QuotedRegexp t t2 /\
             pass SelfClosingRegexp t2 t2 /\ forallb plainAttr t2 = true /\
             stops isTagChar t2 = true /\ blanked t t2.
Proof.
  intros [|sp a Hsp Ha].
  - exists []. repeat split; auto using pass_nil. constructor.
  - destruct (attrText_passes a Ha) as (a2 & H1 & H2 & H3 & H4).
    assert (Ht : forallb plainAttr [sp] = true)
      by (simpl; rewrite (space_plainAttr sp Hsp); reflexivity).
    destruct (pass_plainAttr [sp] Ht) as (S1 & S2 & S3).
    exists (sp :: a2). repeat split.
    + exact (pass_app _ [sp] [sp] a a S1 H1).
    + exact (pass_app _ [sp] [sp] a a2 S2 H2).
    + exact (pass_app _ [sp] [sp] a2 a2 S3 H3).
    + simpl. rewrite (space_plainAttr sp Hsp). exact H4.
    + simpl. rewrite (space_not_tagChar sp Hsp). reflexivity.
    + constructor; [left; reflexivity | exact (pass_blanked _ _ _ H2)].
Qed.

Lemma tagName_noBang (n : str) : tagName n -> noBang (ch_lt :: n) = true.
Proof.
  intros [Hne Hn]. destruct n as [|y n]; [contradiction|].
  simpl in Hn. apply andb_true_iff in Hn. destruct Hn as [Hy Hn].
  cbn [noBang]. rewrite N.eqb_refl, (tagChar_not_bang y Hy). cbn [negb andb].
  change (noBang (y :: n) = true). apply noBang_notLt. simpl.
  rewrite (tagChar_notLt y Hy). exact (forallb_impl isTagChar notLt n tagChar_notLt Hn).
Qed.

(** [<name] is left alone by the comment pass and the quoted pass. *)
Lemma pass_tagOpen (n : str) :
  tagName n ->
  pass CommentRegexp (ch_lt :: n) (ch_lt :: n) /\
  pass QuotedRegexp (ch_lt :: n) (ch_lt :: n).
Proof.
  intros Hn. split; (apply pass_dead; [reflexivity|]).
  - apply dead_noBang, tagName_noBang, Hn.
  - apply dead_chars with (ok := notQuote); [apply Quoted_notQuote|].
    simpl. exact (tagName_notQuote n Hn).
Qed.

Lemma pass_notLt_notQuote (t : str) :
  forallb plainAttr t = true \/ forallb plain t = true ->
  pass CommentRegexp t t /\ pass QuotedRegexp t t.
Proof.
  intros [H|H].
  - destruct (pass_plainAttr t H) as (H1 & H2 & _). auto.
  - split; (apply pass_dead; [reflexivity|]); apply dead_plain;
      auto using blind_Comment, blind_Quoted.
Qed.

Lemma selfClosing_app (n tail : str) :
  selfClosing n tail = (ch_lt :: n) ++ tail ++ lit "/>".
Proof. reflexivity. Qed.

Lemma norm_selfClosing (n : str) sp (a : str) :
  tagName n -> isSpace sp = true -> attrText a ->
  norm (selfClosing n (sp :: a)) (replacer (selfClosing n (sp :: a))).
Proof.
  intros Hn Hsp Ha.
  destruct (tagTail_passes (sp :: a) (tail_attrs sp a Hsp Ha))
    as (t2 & T1 & T2 & T3 & T4 & T5 & T6).
  destruct (pass_tagOpen n Hn) as [O1 O2].
  destruct (pass_notLt_notQuote (lit "/>") (or_intror eq_refl)) as [E1 E2].
  exists (selfClosing n (sp :: a)), (selfClosing n t2). split; [|split].
  - rewrite selfClosing_app. auto using pass_app.
  - rewrite !selfClosing_app. auto using pass_app.
  - assert (Hlen : length (selfClosing n t2) = length (selfClosing n (sp :: a))).
    { rewrite !selfClosing_app, !length_app, (blanked_length _ _ T6). reflexivity. }
    unfold replacer at 1. rewrite <- Hlen. fold (replacer (selfClosing n t2)).
    inversion T6 as [|x y l l' Hxy Hl]; subst.
    assert (Hy : isSpace y = true) by (destruct Hxy as [->| ->]; [exact Hsp | reflexivity]).
    apply pass_match; [reflexivity | discriminate |].
    intros rest. exists [].
    apply match_at_SelfClosing; [exact Hn | exact Hy |].
    simpl in T4. apply andb_true_iff in T4. destruct T4 as [_ T4].
    exact (forallb_impl plainAttr notAngle l' plainAttr_notAngle T4).
Qed.

Lemma attrText_plain : forall t, forallb plainAttr t = true -> attrText t.
Proof.
  induction t as [|c t IH]; [constructor|]. simpl. intros H.
  apply andb_true_iff in H. destruct H as [Hc Ht].
  change (c :: t) with ([c] ++ t). apply attr_app; [apply attr_char, Hc | apply IH, Ht].
Qed.



(* ================================================================== *)
(** ** Markup with attributes, comments and self-closing tags *)
(* ================================================================== *)

Lemma element_app (n t b : str) :
  element n t b = (ch_lt :: n ++ t ++ [ch_gt]) ++ b ++ endTag n.
Proof. unfold element. cbn [app]. rewrite <- !app_assoc. reflexivity. Qed.

Lemma length_element (n t b : str) :
  length (element n t b) = length n + length t + length b + length n + 5.
Proof.
  rewrite element_app, !length_app, length_endTag.
  cbn [length]. rewrite !length_app. simpl. lia.
Qed.

Lemma plainAttr_all_notAngle (t : str) :
  forallb plainAttr t = true -> forallb notAngle t = true.
Proof. apply forallb_impl. exact plainAttr_notAngle. Qed.

Lemma notAngle_all_notLt (t : str) :
  forallb notAngle t = true -> forallb notLt t = true.
Proof. apply forallb_impl. exact notAngle_notLt. Qed.

Lemma norm_endTag (n : str) : tagName n -> norm (endTag n) (endTag n).
Proof.
  intros Hn. apply norm_dead.
  - apply (blind_end _ blind_Comment), Hn.
  - apply (blind_end _ blind_Quoted), Hn.
  - apply (blind_end _ blind_SelfClosing), Hn.
Qed.

(** The passes over the rest of a start tag, from the end of its name
    to its [>], and over the whole start tag. *)
Lemma tagTail_norm (t : str) :
  tagTail t -> endsSlash t = false ->
  exists t2,
    forallb notAngle t2 = true /\ stops isTagChar t2 = true /\
    endsSlash t2 = false /\
    norm (t ++ [ch_gt]) (t2 ++ [ch_gt]) /\
    (forall n, tagName n -> norm (ch_lt :: n ++ t ++ [ch_gt]) (ch_lt :: n ++ t2 ++ [ch_gt])).
Proof.
  intros Ht He.
  destruct (tagTail_passes t Ht) as (t2 & T1 & T2 & T3 & T4 & T5 & T6).
  pose proof (plainAttr_all_notAngle t2 T4) as Hna.
  pose proof (endsSlash_blanked t t2 T6 He) as He2.
  destruct (pass_notLt_notQuote [ch_gt] (or_intror eq_refl)) as [G1 G2].
  exists t2. repeat split; try assumption.
  - exists (t ++ [ch_gt]), (t2 ++ [ch_gt]). repeat split; auto using pass_app.
    apply pass_dead; [reflexivity|].
    apply dead_chars with (ok := notLt); [apply SelfClosing_other|].
    rewrite forallb_app, (notAngle_all_notLt t2 Hna). reflexivity.
  - intros n Hn. destruct (pass_tagOpen n Hn) as [O1 O2].
    exists (ch_lt :: n ++ t ++ [ch_gt]), (ch_lt :: n ++ t2 ++ [ch_gt]).
    repeat split.
    + exact (pass_app _ (ch_lt :: n) (ch_lt :: n) _ _ O1 (pass_app _ _ _ _ _ T1 G1)).
    + exact (pass_app _ (ch_lt :: n) (ch_lt :: n) _ _ O2 (pass_app _ _ _ _ _ T2 G2)).
    + apply pass_dead; [reflexivity|]. apply dead_SelfClosing_open; assumption.
Qed.

(** Markup is normalized stretch by stretch, and its normal form is
    tidy. *)
Lemma markup_norm (b : str) : markup b -> exists b', norm b b' /\ tidy b'.
Proof.
  induction 1 as [t Ht|a Ha|n sp a Hn Hsp Ha|n t b Hn Ht He Hb (b' & Nb & Tb)
                 |a b _ (a' & Na & Ta) _ (b' & Nb & Tb)].
  - exists t. split; [apply norm_plain, Ht | apply tidy_text, plain_all_notLt, Ht].
  - exists (replacer (comment a)). split; [apply norm_comment, Ha|].
    apply tidy_text, plain_all_notLt, replacer_spaces.
  - exists (replacer (selfClosing n (sp :: a))).
    split; [apply norm_selfClosing; assumption|].
    apply tidy_text, plain_all_notLt, replacer_spaces.
  - destruct (tagTail_norm t Ht He) as (t2 & H1 & H2 & H3 & _ & H5).
    exists (element n t2 b'). split.
    + rewrite !element_app.
      apply norm_app; [apply H5, Hn|]. apply norm_app; [exact Nb | apply norm_endTag, Hn].
    + apply tidy_elem; assumption.
  - exists (a' ++ b'). split; [apply norm_app | apply tidy_app]; assumption.
Qed.

Lemma leading_norm (p : str) : leading p -> exists p', norm p p' /\ ahead p'.
Proof.
  induction 1 as [|p b _ (p' & Np & Ap) Hb|p n t _ (p' & Np & Ap) Hn Ht He].
  - exists []. split; [apply norm_nil | constructor].
  - destruct (markup_norm b Hb) as (b' & Nb & Tb).
    exists (p' ++ b'). split; [apply norm_app | apply ahead_tidy]; assumption.
  - destruct (tagTail_norm t Ht He) as (t2 & H1 & H2 & H3 & _ & H5).
    exists (p' ++ ch_lt :: n ++ t2 ++ [ch_gt]).
    split; [apply norm_app; [exact Np | apply H5, Hn] | apply ahead_open; assumption].
Qed.

(* ------------------------------------------------------------------ *)
(** *** The matchers on tidy text *)

Lemma stops_tail (t s : str) :
  stops isTagChar t = true -> stops isTagChar (t ++ ch_gt :: s) = true.
Proof. destruct t; [reflexivity | auto]. Qed.

Lemma tail_notLt (t : str) :
  forallb notAngle t = true -> forallb notLt (t ++ [ch_gt]) = true.
Proof. intros H. rewrite forallb_app, (notAngle_all_notLt t H). reflexivity. Qed.

(** The forward matcher over a start tag with its tail. *)
Lemma fwd_open name text from (n t rest : str) stack :
  skipn from text = (ch_lt :: n ++ t ++ [ch_gt]) ++ rest ->
  tagName n -> forallb notAngle t = true -> stops isTagChar t = true ->
  findMatchedEndTag_loop name text from stack
  = findMatchedEndTag_loop name text (from + length (ch_lt :: n ++ t ++ [ch_gt]))
      (n :: stack).
Proof.
  intros H [Hne Hn] Ht Hs.
  assert (H1 : skipn from text = ch_lt :: n ++ (t ++ [ch_gt]) ++ rest)
    by (rewrite H; cbn [app]; rewrite <- !app_assoc; reflexivity).
  rewrite (fwd_start name text from n _ stack H1 Hne Hn).
  2:{ rewrite <- app_assoc. apply stops_tail, Hs. }
  assert (H2 : skipn (from + 1 + length n) text = (t ++ [ch_gt]) ++ rest).
  { replace (from + 1 + length n) with (from + length (ch_lt :: n)) by (simpl; lia).
    apply skipn_more. exact H1. }
  rewrite (fwd_text name text _ _ _ (n :: stack) H2 (tail_notLt t Ht)).
  f_equal. cbn [length]. rewrite !length_app. simpl. lia.
Qed.

Lemma fwd_tidy name text b :
  tidy b -> forall from rest stack,
  skipn from text = b ++ rest ->
  findMatchedEndTag_loop name text from stack
  = findMatchedEndTag_loop name text (from + length b) stack.
Proof.
  induction 1 as [t Ht|n t b Hn Ht Hs He Hb IH|a b Ha IHa Hb IHb];
    intros from rest stack H.
  - exact (fwd_text name text from t rest stack H Ht).
  - rewrite element_app, <- !app_assoc in H.
    rewrite (fwd_open name text from n t _ stack H Hn Ht Hs). apply skipn_more in H.
    rewrite (IH _ _ (n :: stack) H). apply skipn_more in H.
    rewrite (fwd_endTag_pop name text _ n rest stack H (proj1 Hn) (proj2 Hn)).
    f_equal. rewrite element_app, !length_app. lia.
  - rewrite <- app_assoc in H.
    rewrite (IHa _ _ stack H). apply skipn_more in H.
    rewrite (IHb _ _ stack H). f_equal. rewrite length_app. lia.
Qed.

(** The backward matcher over a start tag with its tail. *)
Lemma bwd_open name text from (n t rest : str) stack :
  skipn from text = (ch_lt :: n ++ t ++ [ch_gt]) ++ rest ->
  tagName n -> forallb notAngle t = true -> stops isTagChar t = true ->
  findMatchedStartTag_loop name text from stack
  = findMatchedStartTag_loop name text (from + length (ch_lt :: n ++ t ++ [ch_gt]))
      ((n, from) :: stack).
Proof.
  intros H [Hne Hn] Ht Hs.
  assert (H1 : skipn from text = ch_lt :: n ++ (t ++ [ch_gt]) ++ rest)
    by (rewrite H; cbn [app]; rewrite <- !app_assoc; reflexivity).
  rewrite findMatchedStartTag_loop_eq.
  rewrite (exec_Tag_start _ _ _ _ H1 Hne Hn).
  2:{ rewrite <- app_assoc. apply stops_tail, Hs. }
  token_step. rewrite (truthy_Some _ Hne).
  assert (H2 : skipn (from + 1 + length n) text = (t ++ [ch_gt]) ++ rest).
  { replace (from + 1 + length n) with (from + length (ch_lt :: n)) by (simpl; lia).
    apply skipn_more. exact H1. }
  rewrite (bwd_text name text _ _ _ _ H2 (tail_notLt t Ht)).
  f_equal. cbn [length]. rewrite !length_app. simpl. lia.
Qed.

Lemma bwd_tidy name text b :
  tidy b -> forall from rest stack,
  skipn from text = b ++ rest ->
  findMatchedStartTag_loop name text from stack
  = findMatchedStartTag_loop name text (from + length b) stack.
Proof.
  induction 1 as [t Ht|n t b Hn Ht Hs He Hb IH|a b Ha IHa Hb IHb];
    intros from rest stack H.
  - exact (bwd_text name text from t rest stack H Ht).
  - rewrite element_app, <- !app_assoc in H.
    rewrite (bwd_open name text from n t _ stack H Hn Ht Hs). apply skipn_more in H.
    rewrite (IH _ _ _ H). apply skipn_more in H.
    rewrite (bwd_endTag_pop name text _ n rest from stack H (proj1 Hn) (proj2 Hn)).
    f_equal. rewrite element_app, !length_app. lia.
  - rewrite <- app_assoc in H.
    rewrite (IHa _ _ stack H). apply skipn_more in H.
    rewrite (IHb _ _ stack H). f_equal. rewrite length_app. lia.
Qed.

Lemma bwd_ahead name text p :
  ahead p -> forall from rest stack,
  skipn from text = p ++ rest ->
  exists stack',
    findMatchedStartTag_loop name text from stack
    = findMatchedStartTag_loop name text (from + length p) stack'.
Proof.
  induction 1 as [|p b Hp IH Hb|p n t Hp IH Hn Ht Hs]; intros from rest stack H.
  - exists stack. rewrite Nat.add_0_r. reflexivity.
  - rewrite <- app_assoc in H. destruct (IH _ _ stack H) as (st & E).
    exists st. rewrite E. apply skipn_more in H.
    rewrite (bwd_tidy name text b Hb _ _ st H). f_equal. rewrite length_app. lia.
  - rewrite <- app_assoc in H. destruct (IH _ _ stack H) as (st & E).
    apply skipn_more in H.
    exists ((n, from + length p) :: st). rewrite E.
    rewrite (bwd_open name text _ n t rest st H Hn Ht Hs).
    f_equal. rewrite length_app. lia.
Qed.

Lemma fwd_ahead name text p :
  ahead p -> forall from rest stack,
  skipn from text = p ++ rest ->
  exists stack',
    findMatchedEndTag_loop name text from stack
    = findMatchedEndTag_loop name text (from + length p) stack'.
Proof.
  induction 1 as [|p b Hp IH Hb|p n t Hp IH Hn Ht Hs]; intros from rest stack H.
  - exists stack. rewrite Nat.add_0_r. reflexivity.
  - rewrite <- app_assoc in H. destruct (IH _ _ stack H) as (st & E).
    exists st. rewrite E. apply skipn_more in H.
    rewrite (fwd_tidy name text b Hb _ _ st H). f_equal. rewrite length_app. lia.
  - rewrite <- app_assoc in H. destruct (IH _ _ stack H) as (st & E).
    apply skipn_more in H.
    exists (n :: st). rewrite E.
    rewrite (fwd_open name text _ n t rest st H Hn Ht Hs).
    f_equal. rewrite length_app. lia.
Qed.

(** C5, as the code has it: an end token met with an empty stack whose
    name is not the searched one is dropped and the scan goes on with
    the empty stack; the next end token of the searched name at depth
    zero is the match.  The scan does end without a match at an end
    token whose name differs from the name popped from a stack that is
    not empty, even when an end tag of the searched name follows.
    Here [pre], [mid] and [b] are tidy text: text without [<] and
    complete elements.  The last two conjuncts are the two branches of
    the loop at an end token [</other>], at any place [from] of any
    text: with the empty stack the scan goes on after the token, with
    another name on top of the stack it ends. *)
Theorem findMatchedEndTag_skips_stray_closer :
  forall (name other pre mid rest : str),
    name <> [] -> forallb isTagChar name = true ->
    other <> [] -> forallb isTagChar other = true ->
    other <> name ->
    tidy pre -> tidy mid ->
    findMatchedEndTag name (pre ++ endTag other ++ mid ++ endTag name ++ rest)
    = Some (length pre + length (endTag other) + length mid) /\
    (forall top b : str,
       tagName top -> top <> other -> tidy b ->
       findMatchedEndTag name
         (pre ++ startTag top ++ b ++ endTag other ++ mid ++ endTag name ++ rest)
       = None) /\
    (forall (text after : str) (from : nat),
       skipn from text = endTag other ++ after ->
       findMatchedEndTag_loop name text from []
       = findMatchedEndTag_loop name text (from + length (endTag other)) []) /\
    (forall (text after top : str) (stack : list str) (from : nat),
       skipn from text = endTag other ++ after ->
       top <> [] -> top <> other ->
       findMatchedEndTag_loop name text from (top :: stack) = None).
Proof.
  intros name other pre mid rest Hn Hnc Ho Hoc Hd Hpre Hmid.
  split; [|split; [|split]].
  3:{ intros text after from H.
      exact (fwd_endTag_stray name text from other after H Ho Hoc Hd). }
  3:{ intros text after top stack from H Ht Hto.
      exact (fwd_endTag_mismatch name text from other after top stack H Ho Hoc Ht Hto). }
  - unfold findMatchedEndTag.
    set (text := pre ++ endTag other ++ mid ++ endTag name ++ rest).
    assert (H : skipn 0 text = pre ++ endTag other ++ mid ++ endTag name ++ rest)
      by reflexivity.
    rewrite (fwd_tidy name text pre Hpre 0 _ [] H). apply skipn_more in H.
    rewrite (fwd_endTag_stray name text _ _ _ H Ho Hoc Hd). apply skipn_more in H.
    rewrite (fwd_tidy name text mid Hmid _ _ [] H). apply skipn_more in H.
    rewrite (fwd_endTag_found name text _ _ H Hn Hnc). reflexivity.
  - intros top b [Ht Htc] Hto Hb. unfold findMatchedEndTag.
    set (text := pre ++ startTag top ++ b ++ endTag other ++ mid ++ endTag name ++ rest).
    assert (H : skipn 0 text
                = pre ++ startTag top ++ b ++ endTag other ++ mid ++ endTag name ++ rest)
      by reflexivity.
    rewrite (fwd_tidy name text pre Hpre 0 _ [] H). apply skipn_more in H.
    rewrite (fwd_startTag name text _ top _ [] H Ht Htc). apply skipn_more in H.
    rewrite (fwd_tidy name text b Hb _ _ [top] H). apply skipn_more in H.
    exact (fwd_endTag_mismatch name text _ other _ top [] H Ho Hoc Ht Hto).
Qed.

Lemma findMatchedEndTag_skips_stray_closer_witness :
  findMatchedEndTag (lit "a")
    (lit ">x" ++ endTag (lit "b") ++ lit "y" ++ endTag (lit "a") ++ lit "z")
  = Some (length (lit ">x") + length (endTag (lit "b")) + length (lit "y")) /\
  findMatchedEndTag (lit "a")
    (lit ">x" ++ startTag (lit "c") ++ lit "w" ++ endTag (lit "b") ++ lit "y"
     ++ endTag (lit "a") ++ lit "z")
  = None.
Proof.
  destruct (findMatchedEndTag_skips_stray_closer
              (lit "a") (lit "b") (lit ">x") (lit "y") (lit "z")
              ltac:(discriminate) eq_refl ltac:(discriminate) eq_refl
              ltac:(discriminate)
              (tidy_text (lit ">x") eq_refl) (tidy_text (lit "y") eq_refl))
    as (Hskip & Habort & _).
  split; [exact Hskip|].
  apply (Habort (lit "c") (lit "w")).
  - split; [discriminate | reflexivity].
  - discriminate.
  - apply tidy_text. reflexivity.
Defined.

(* ------------------------------------------------------------------ *)
(** *** The self-closing test on the tail of a start tag *)

Lemma test_SelfClosed_open (t s : str) :
  forallb notAngle t = true -> endsSlash t = false ->
  test SelfClosedRegexp (t ++ ch_gt :: s) = false.
Proof.
  intros Ht He. unfold test. rewrite exec_at by lia. cbn [skipn].
  assert (H0 : match_at SelfClosedRegexp 0 (t ++ ch_gt :: s) = None).
  { unfold match_at, SelfClosedRegexp. cbn [m Nat.eqb].
    exact (star_notAngle_open (fun pos' _ cs => Some (mkMatch 0 pos' cs)) t s 0 [] Ht He). }
  destruct (t ++ ch_gt :: s) as [|c r] eqn:E; [destruct t; discriminate|].
  rewrite search_skip by exact H0. rewrite search_SelfClosed_later. reflexivity.
Qed.

Lemma test_SelfClosed_closed (t s : str) :
  forallb notAngle t = true ->
  test SelfClosedRegexp (t ++ ch_slash :: ch_gt :: s) = true.
Proof.
  intros Ht. unfold test. rewrite exec_at by lia. cbn [skipn].
  assert (H0 : match_at SelfClosedRegexp 0 (t ++ ch_slash :: ch_gt :: s)
               = Some (mkMatch 0 (length t + 2) [])).
  { unfold match_at, SelfClosedRegexp. cbn [m Nat.eqb].
    erewrite star_back1; [reflexivity | exact Ht | reflexivity | reflexivity | |].
    - reflexivity.
    - cbn [m]. rewrite !N.eqb_refl. f_equal. f_equal. lia. }
  rewrite (search_hit _ _ _ _ H0). reflexivity.
Qed.

(* ------------------------------------------------------------------ *)
(** *** The matchers on markup as it is written *)

Lemma tail_assoc (t b e r : str) :
  ((t ++ [ch_gt]) ++ b ++ e) ++ r = t ++ ch_gt :: b ++ e ++ r.
Proof. rewrite <- !app_assoc. reflexivity. Qed.

(** From the end of the name of a start tag: the rest of the tag, the
    content and the end tag are normalized by themselves, the tag does
    not test as self-closing, and the forward matcher finds the end
    tag. *)
Lemma findMatchedEndTag_markup (name t b rest : str) :
  tagName name -> tagTail t -> endsSlash t = false -> markup b ->
  test SelfClosedRegexp (normalize (t ++ ch_gt :: b ++ endTag name ++ rest)) = false /\
  findMatchedEndTag name (normalize (t ++ ch_gt :: b ++ endTag name ++ rest))
  = Some (length t + 1 + length b).
Proof.
  intros Hn Ht He Hb.
  destruct (tagTail_norm t Ht He) as (t2 & H1 & H2 & H3 & H4 & _).
  destruct (markup_norm b Hb) as (b' & Nb & Tb).
  pose proof (norm_app _ _ _ _ H4 (norm_app _ _ _ _ Nb (norm_endTag name Hn))) as N.
  pose proof (norm_normalize _ _ rest N) as E.
  rewrite !tail_assoc in E. rewrite E. split.
  - apply test_SelfClosed_open; assumption.
  - pose proof (norm_length _ _ H4) as L1. pose proof (norm_length _ _ Nb) as L2.
    rewrite !length_app in L1. simpl in L1.
    unfold findMatchedEndTag.
    set (text := t2 ++ ch_gt :: b' ++ endTag name ++ normalize rest).
    assert (H : skipn 0 text = (t2 ++ [ch_gt]) ++ b' ++ endTag name ++ normalize rest).
    { unfold text. rewrite <- app_assoc. reflexivity. }
    rewrite (fwd_text name text 0 _ _ [] H (tail_notLt t2 H1)). apply skipn_more in H.
    rewrite (fwd_tidy name text b' Tb _ _ [] H). apply skipn_more in H.
    rewrite (fwd_endTag_found name text _ _ H (proj1 Hn) (proj2 Hn)).
    f_equal. rewrite length_app. simpl. lia.
Qed.

(** Up to the end tag: what precedes the element, its start tag and its
    content are normalized by themselves, and the backward matcher
    finds the start tag. *)
Lemma findMatchedStartTag_markup (anchor p name t b : str) :
  leading p -> tagName name -> tagTail t -> endsSlash t = false -> markup b ->
  findMatchedStartTag anchor (normalize (p ++ ch_lt :: name ++ t ++ ch_gt :: b))
  = Some (length p).
Proof.
  intros Hp Hn Ht He Hb.
  destruct (leading_norm p Hp) as (p' & Np & Ap).
  destruct (tagTail_norm t Ht He) as (t2 & H1 & H2 & H3 & _ & H5).
  destruct (markup_norm b Hb) as (b' & Nb & Tb).
  pose proof (norm_whole _ _ (norm_app _ _ _ _ Np (norm_app _ _ _ _ (H5 name Hn) Nb))) as E.
  replace (p ++ (ch_lt :: name ++ t ++ [ch_gt]) ++ b)
    with (p ++ ch_lt :: name ++ t ++ ch_gt :: b) in E
    by (cbn [app]; rewrite <- !app_assoc; reflexivity).
  rewrite E. pose proof (norm_length _ _ Np) as L.
  unfold findMatchedStartTag.
  set (text := p' ++ (ch_lt :: name ++ t2 ++ [ch_gt]) ++ b').
  assert (H : skipn 0 text = p' ++ (ch_lt :: name ++ t2 ++ [ch_gt]) ++ b' ++ []).
  { unfold text. rewrite app_nil_r. reflexivity. }
  destruct (bwd_ahead anchor text p' Ap 0 _ [] H) as (st & Est). rewrite Est.
  apply skipn_more in H.
  rewrite (bwd_open anchor text _ name t2 _ st H Hn H1 H2). apply skipn_more in H.
  rewrite (bwd_tidy anchor text b' Tb _ _ _ H). apply skipn_more in H.
  rewrite (bwd_done anchor text _ [] _ H eq_refl). cbn [snd]. f_equal. lia.
Qed.

(* ================================================================== *)
(** ** A tag name in a document *)
(* ================================================================== *)

Lemma place_range (doc : TextDocument) o len l c :
  lineBreak doc ->
  placed doc o len l c ->
  newRange (positionAt doc (Z.of_nat o)) (positionAt doc (Z.of_nat o + Z.of_nat len))
  = rangeAt l c (c + len).
Proof.
  intros Hb [Hl Ho Hfit]. subst o. apply lineBreak_eol in Hb.
  replace (Z.of_nat (lineOffset doc l + c) + Z.of_nat len)%Z
    with (Z.of_nat (lineOffset doc l + (c + len))) by lia.
  rewrite !(positionAt_at_le doc l Hl) by (auto; lia). apply newRange_at. lia.
Qed.

Lemma endsClean_app (u lead : str) : lead <> [] -> endsClean lead -> endsClean (u ++ lead).
Proof.
  unfold endsClean. intros Hne H. rewrite rev_app_distr.
  destruct (rev lead) as [|y r] eqn:E; [|exact H].
  apply (f_equal (@rev char)) in E. rewrite rev_involutive in E. contradiction.
Qed.

Lemma stops_prefix (p : char -> bool) (a b : str) :
  stops p (a ++ b) = true -> stops p a = true.
Proof. destruct a; [reflexivity | exact (fun H => H)]. Qed.

Section Anchor.
Variables (doc : TextDocument) (p lead name after : str) (l c : nat).
Hypothesis Hin : tagIn doc p lead name after l c.
Hypothesis Hname : tagName name.
Hypothesis Hafter : stops isTagChar after = true.
Hypothesis Hlead : lead <> [].
Hypothesis Hclean : endsClean lead.
Hypothesis Hfits : wordFits (lineAt doc l) name.

(** The line of the name, taken apart around it; what follows the line
    in the text is its end or a line break. *)
Lemma anchor_line :
  exists u post tail,
    lineAt doc l = (u ++ lead) ++ name ++ post /\
    length u = c - length lead /\
    post ++ tail = after /\
    (tail = [] \/ exists more, tail = eol doc ++ more).
Proof.
  destruct Hin as [Htext [Hl Hoff Hfit] Hle].
  assert (Hs : skipn (length p) (getText doc) = (lead ++ name) ++ after).
  { rewrite Htext, skipn_prefix, <- !app_assoc. reflexivity. }
  destruct (line_around doc l Hl (length p) (c - length lead) (lead ++ name) _
              Hs ltac:(lia) ltac:(rewrite !length_app; lia)) as [Hline Hlen].
  destruct (line_rest doc l Hl (length p) (c - length lead) (lead ++ name) _
              Hs ltac:(lia) ltac:(rewrite !length_app; lia)) as (tail & Hr & Hb).
  exists (firstn (c - length lead) (lineAt doc l)),
         (skipn (c - length lead + length (lead ++ name)) (lineAt doc l)), tail.
  repeat split; [|exact Hlen|exact Hr|exact Hb].
  rewrite Hline at 1. rewrite <- !app_assoc. reflexivity.
Qed.

Lemma anchor_word cur :
  c <= cur <= c + length name ->
  getWordRangeAtPosition doc (at_ l cur) WordRegexp = Some (nameRange l c name).
Proof.
  intros Hc. destruct Hname as [Hne Hn].
  destruct anchor_line as (u & post & tail & Hline & Hu & Hr & _).
  destruct Hin as [_ [Hl _ _] Hle].
  assert (Hlen : length (u ++ lead) = c) by (rewrite length_app; lia).
  unfold nameRange. rewrite <- Hlen.
  apply (getWordRangeAtPosition_at doc l Hl (u ++ lead) name post cur
           Hline Hne Hn); [| |lia|exact Hfits].
  - apply (stops_prefix _ post tail). rewrite Hr. exact Hafter.
  - apply endsClean_app; assumption.
Qed.

Lemma anchor_text : getTextIn doc (nameRange l c name) = name.
Proof.
  destruct anchor_line as (u & post & tail & Hline & Hu & _).
  destruct Hin as [_ [Hl _ Hfit] Hle].
  unfold nameRange. rewrite (getTextIn_at doc l Hl) by lia.
  apply substring_at with (rest := post); [|reflexivity].
  rewrite Hline. replace c with (length (u ++ lead)) by (rewrite length_app; lia).
  apply skipn_prefix.
Qed.

Lemma anchor_start_offset :
  offsetAt doc (start (nameRange l c name)) = Z.of_nat (length p + length lead).
Proof.
  destruct Hin as [_ [Hl Hoff Hfit] _]. unfold nameRange, rangeAt. cbn [start].
  rewrite (offsetAt_at doc l Hl) by lia. f_equal. exact Hoff.
Qed.

Lemma anchor_end_offset :
  offsetAt doc (end_ (nameRange l c name))
  = Z.of_nat (length p + length lead + length name).
Proof.
  destruct Hin as [_ [Hl Hoff Hfit] _]. unfold nameRange, rangeAt. cbn [end_].
  rewrite (offsetAt_at doc l Hl) by lia. f_equal. lia.
Qed.

(** The [k] code units before the name are the last [k] of [lead]. *)
Lemma anchor_prev k :
  k <= length lead ->
  prev doc (start (nameRange l c name)) (Z.of_nat k)
  = Ok (skipn (length lead - k) lead).
Proof.
  intros Hk. destruct anchor_line as (u & post & tail & Hline & Hu & _).
  destruct Hin as [_ [Hl _ Hfit] Hle].
  unfold nameRange, rangeAt. cbn [start].
  rewrite (prev_at doc l Hl c k) by lia. f_equal.
  apply substring_at with (rest := name ++ post); [|rewrite length_skipn; lia].
  rewrite Hline, <- app_assoc.
  replace (c - k) with (length u + (length lead - k)) by lia.
  rewrite Nat.add_comm, <- skipn_skipn, skipn_prefix, skipn_app.
  replace (length lead - k - length lead) with 0 by lia. reflexivity.
Qed.

Lemma anchor_prev_1 :
  1 <= length lead ->
  prev doc (start (nameRange l c name)) 1 = Ok (skipn (length lead - 1) lead).
Proof. exact (anchor_prev 1). Qed.

Lemma anchor_prev_2 :
  2 <= length lead ->
  prev doc (start (nameRange l c name)) 2 = Ok (skipn (length lead - 2) lead).
Proof. exact (anchor_prev 2). Qed.

(** The [>] that follows the name of an end tag stands on the line of
    the name: no line break begins with it. *)
Lemma anchor_next (rest : str) :
  lineBreak doc -> after = ch_gt :: rest ->
  next doc (end_ (nameRange l c name)) 1 = Ok [ch_gt].
Proof.
  intros Hbreak Ha.
  destruct anchor_line as (u & post & tail & Hline & Hu & Hr & Hb).
  destruct Hin as [_ [Hl _ Hfit] Hle].
  assert (Hpost : exists post', post = ch_gt :: post').
  { destruct post as [|y post'].
    - exfalso. cbn [app] in Hr. rewrite Ha in Hr.
      destruct Hb as [->|(more & ->)]; [discriminate|].
      destruct Hbreak as [E|E]; rewrite E in Hr; discriminate.
    - rewrite Ha in Hr. inversion Hr. eexists. reflexivity. }
  destruct Hpost as (post' & ->).
  assert (Hlen : length (lineAt doc l) = length u + length lead + length name
                                        + S (length post')).
  { rewrite Hline, !length_app. simpl. lia. }
  unfold nameRange, rangeAt. cbn [end_].
  rewrite (next_at doc l Hl) by lia. f_equal.
  apply substring_at with (rest := post'); [|reflexivity].
  rewrite Hline.
  replace (c + length name) with (length ((u ++ lead) ++ name))
    by (rewrite !length_app; lia).
  rewrite app_assoc. apply skipn_prefix.
Qed.

Lemma anchor_nextText : nextTextOf doc (nameRange l c name) = normalize after.
Proof.
  unfold nextTextOf. rewrite anchor_end_offset.
  destruct Hin as [Htext _ _].
  rewrite slice_from by (rewrite Htext, !length_app; lia).
  rewrite Htext. f_equal.
  replace (length p + length lead + length name) with (length (p ++ lead ++ name))
    by (rewrite !length_app; lia).
  rewrite (app_assoc lead name after), (app_assoc p (lead ++ name) after).
  apply skipn_prefix.
Qed.

Lemma anchor_prevText :
  2 <= length lead ->
  prevTextOf doc (nameRange l c name)
  = normalize (p ++ firstn (length lead - 2) lead).
Proof.
  intros H2. unfold prevTextOf. rewrite anchor_start_offset.
  destruct Hin as [Htext _ _].
  replace (Z.of_nat (length p + length lead) - 2)%Z
    with (Z.of_nat (length p + (length lead - 2))) by lia.
  rewrite slice_to by (rewrite Htext, !length_app; lia).
  rewrite Htext. f_equal. rewrite firstn_app_2.
  f_equal. rewrite firstn_app.
  replace (length lead - 2 - length lead) with 0 by lia.
  rewrite firstn_O, app_nil_r. reflexivity.
Qed.
End Anchor.

(* ================================================================== *)
(** ** The provider on markup with attributes and comments *)
(* ================================================================== *)

Lemma path_end_lost (doc : TextDocument) (pos : Position) (anchor : Range) (p1 : str) :
  getWordRangeAtPosition doc pos WordRegexp = Some anchor ->
  prev doc (start anchor) 1 = Ok p1 -> p1 <> lit "<" ->
  prev doc (start anchor) 2 = Ok (lit "</") ->
  next doc (end_ anchor) 1 = Ok (lit ">") ->
  findMatchedStartTag (getTextIn doc anchor) (prevTextOf doc anchor) = None ->
  provideDocumentHighlights doc pos = Ok [mkDocumentHighlight anchor].
Proof.
  intros Hword Hp Hd Hp2 Hn Hf. unfold provideDocumentHighlights.
  rewrite Hword, Hp. cbn [bind]. rewrite (str_eqb_neq _ _ Hd), Hp2.
  cbn [bind]. rewrite str_eqb_refl, Hn. cbn [bind]. rewrite str_eqb_refl.
  fold (prevTextOf doc anchor). rewrite Hf. reflexivity.
Qed.

Lemma tagTail_head (t s : str) :
  tagTail t -> exists x y, t ++ ch_gt :: s = x :: y /\ isTagChar x = false.
Proof.
  intros [|sp a Hsp Ha].
  - exists ch_gt, s. auto.
  - exists sp, (a ++ ch_gt :: s). split; [reflexivity | apply space_not_tagChar, Hsp].
Qed.

Lemma endsClean_lt : endsClean (lit "<").
Proof. reflexivity. Qed.

Lemma endsClean_lt_slash : endsClean (lit "</").
Proof. reflexivity. Qed.

Lemma tagTail_stops (t s : str) :
  tagTail t -> stops isTagChar (t ++ ch_gt :: s) = true.
Proof.
  intros Ht. destruct (tagTail_head t s Ht) as (x & y & -> & Hx).
  simpl. rewrite Hx. reflexivity.
Qed.

Section StartAnchor.
Variables (doc : TextDocument) (p name after : str) (l c cur : nat).
Hypothesis Hname : tagName name.
Hypothesis Hin : tagIn doc p (lit "<") name after l c.
Hypothesis Hcur : c <= cur <= c + length name.
Hypothesis Hafter : stops isTagChar after = true.
Hypothesis Hfits : wordFits (lineAt doc l) name.

Lemma start_anchor_word :
  getWordRangeAtPosition doc (at_ l cur) WordRegexp = Some (nameRange l c name).
Proof.
  exact (anchor_word doc p _ name after l c Hin Hname Hafter ltac:(discriminate)
           endsClean_lt Hfits cur Hcur).
Qed.

(** The cursor on the name of a start tag whose end tag the forward
    matcher finds at offset [i] of the normalized text after the name. *)
Lemma start_anchor_found i l2 c2 :
  lineBreak doc ->
  test SelfClosedRegexp (normalize after) = false ->
  findMatchedEndTag name (normalize after) = Some i ->
  placed doc (length p + 1 + length name + i + 2) (length name) l2 c2 ->
  provideDocumentHighlights doc (at_ l cur)
  = Ok [mkDocumentHighlight (nameRange l c name);
        mkDocumentHighlight (nameRange l2 c2 name)].
Proof.
  intros Hbr Ht Hf Hpl.
  rewrite (path_start_found doc (at_ l cur) (nameRange l c name) start_anchor_word i).
  - rewrite (anchor_end_offset doc p _ name after l c Hin).
    rewrite (anchor_text doc p _ name after l c Hin).
    replace (Z.of_nat (length p + length (lit "<") + length name) + Z.of_nat i + 2)%Z
      with (Z.of_nat (length p + 1 + length name + i + 2)) by (simpl; lia).
    rewrite (place_range doc _ _ l2 c2 Hbr Hpl). reflexivity.
  - exact (anchor_prev_1 doc p _ name after l c Hin (Nat.le_refl 1)).
  - rewrite (anchor_nextText doc p _ name after l c Hin). exact Ht.
  - rewrite (anchor_nextText doc p _ name after l c Hin),
            (anchor_text doc p _ name after l c Hin).
    exact Hf.
Qed.

(** The same cursor when the forward matcher finds nothing. *)
Lemma start_anchor_lost :
  test SelfClosedRegexp (normalize after) = false ->
  findMatchedEndTag name (normalize after) = None ->
  provideDocumentHighlights doc (at_ l cur)
  = Ok [mkDocumentHighlight (nameRange l c name)].
Proof.
  intros Ht Hf.
  apply (path_start_lost doc (at_ l cur) (nameRange l c name) start_anchor_word).
  - exact (anchor_prev_1 doc p _ name after l c Hin (Nat.le_refl 1)).
  - rewrite (anchor_nextText doc p _ name after l c Hin). exact Ht.
  - rewrite (anchor_nextText doc p _ name after l c Hin),
            (anchor_text doc p _ name after l c Hin).
    exact Hf.
Qed.

(** The same cursor when the tag tests as self-closing. *)
Lemma start_anchor_self_closing :
  test SelfClosedRegexp (normalize after) = true ->
  provideDocumentHighlights doc (at_ l cur)
  = Ok [mkDocumentHighlight (nameRange l c name)].
Proof.
  intros Ht.
  apply (path_self_closing doc (at_ l cur) (nameRange l c name) start_anchor_word).
  - exact (anchor_prev_1 doc p _ name after l c Hin (Nat.le_refl 1)).
  - rewrite (anchor_nextText doc p _ name after l c Hin). exact Ht.
Qed.
End StartAnchor.

Section EndAnchor.
Variables (doc : TextDocument) (p name rest : str) (l c cur : nat).
Hypothesis Hname : tagName name.
Hypothesis Hin : tagIn doc p (lit "</") name (ch_gt :: rest) l c.
Hypothesis Hcur : c <= cur <= c + length name.
Hypothesis Hfits : wordFits (lineAt doc l) name.
Hypothesis Hbreak : lineBreak doc.

Lemma end_anchor_word :
  getWordRangeAtPosition doc (at_ l cur) WordRegexp = Some (nameRange l c name).
Proof.
  exact (anchor_word doc p _ name _ l c Hin Hname eq_refl ltac:(discriminate)
           endsClean_lt_slash Hfits cur Hcur).
Qed.

Lemma end_anchor_prevText : prevTextOf doc (nameRange l c name) = normalize p.
Proof.
  rewrite (anchor_prevText doc p _ name _ l c Hin (Nat.le_refl 2)).
  cbn [length Nat.sub firstn]. rewrite app_nil_r. reflexivity.
Qed.

(** The cursor on the name of an end tag whose start tag the backward
    matcher finds at offset [i]. *)
Lemma end_anchor_found i l1 c1 :
  findMatchedStartTag name (normalize p) = Some i ->
  placed doc (i + 1) (length name) l1 c1 ->
  provideDocumentHighlights doc (at_ l cur)
  = Ok [mkDocumentHighlight (nameRange l c name);
        mkDocumentHighlight (nameRange l1 c1 name)].
Proof.
  intros Hf Hpl.
  rewrite (path_end_found doc (at_ l cur) (nameRange l c name) end_anchor_word
             [ch_slash] i).
  - rewrite (anchor_text doc p _ name _ l c Hin).
    replace (Z.of_nat i + 1)%Z with (Z.of_nat (i + 1)) by lia.
    rewrite (place_range doc _ _ l1 c1 Hbreak Hpl). reflexivity.
  - exact (anchor_prev_1 doc p _ name _ l c Hin ltac:(simpl; lia)).
  - discriminate.
  - exact (anchor_prev_2 doc p _ name _ l c Hin (Nat.le_refl 2)).
  - exact (anchor_next doc p _ name _ l c Hin rest Hbreak eq_refl).
  - rewrite end_anchor_prevText, (anchor_text doc p _ name _ l c Hin).
    exact Hf.
Qed.

Lemma end_anchor_lost :
  findMatchedStartTag name (normalize p) = None ->
  provideDocumentHighlights doc (at_ l cur)
  = Ok [mkDocumentHighlight (nameRange l c name)].
Proof.
  intros Hf.
  apply (path_end_lost doc (at_ l cur) (nameRange l c name) [ch_slash] end_anchor_word).
  - exact (anchor_prev_1 doc p _ name _ l c Hin ltac:(simpl; lia)).
  - discriminate.
  - exact (anchor_prev_2 doc p _ name _ l c Hin (Nat.le_refl 2)).
  - exact (anchor_next doc p _ name _ l c Hin rest Hbreak eq_refl).
  - rewrite end_anchor_prevText, (anchor_text doc p _ name _ l c Hin).
    exact Hf.
Qed.
End EndAnchor.

Lemma placed_at (doc : TextDocument) o o' len l c :
  o = o' -> placed doc o len l c -> placed doc o' len l c.
Proof. intros ->. auto. Qed.


Lemma markup_cardContent : markup cardContent.
Proof.
  unfold cardContent.
  apply (markup_app (ch_lf :: lit "  ")); [apply markup_text; reflexivity|].
  apply (markup_app (comment (lit " </view> "))); [apply markup_comment; reflexivity|].
  apply (markup_app (ch_lf :: lit "  ")); [apply markup_text; reflexivity|].
  apply (markup_app (selfClosing (lit "image")
                       (ch_space :: lit "src=" ++ quoted ch_dquote (lit "x.png") ++ lit " ")));
    [|apply markup_text; reflexivity].
  apply markup_selfClosing; [split; [discriminate | reflexivity] | reflexivity |].
  apply attr_app; [apply attrText_plain; reflexivity|].
  apply attr_app; [|apply attrText_plain; reflexivity].
  apply attr_quoted; reflexivity.
Defined.

Lemma tagTail_cardTail : tagTail cardTail.
Proof.
  unfold cardTail. apply tail_attrs; [reflexivity|].
  apply attr_app; [apply attrText_plain; reflexivity|].
  apply attr_quoted; reflexivity.
Defined.

Lemma lineBreak_lf (ls : list str) : lineBreak (mkTextDocument ls [ch_lf]).
Proof. left. reflexivity. Defined.

Lemma wordFits_short (line w : str) :
  (length line <=? maxLen) = true -> wordFits line w.
Proof. intros H. left. apply Nat.leb_le, H. Defined.


(* ------------------------------------------------------------------ *)
(** *** Tags without a partner *)

Lemma fwd_end name text stack :
  findMatchedEndTag_loop name text (length text) stack = None.
Proof.
  rewrite findMatchedEndTag_loop_eq.
  rewrite (exec_Tag_done text (length text) [] (skipn_all text) eq_refl). reflexivity.
Qed.

(** After a start tag that is never closed the forward matcher finds
    nothing. *)
Lemma findMatchedEndTag_unclosed (name t q : str) :
  tagTail t -> endsSlash t = false -> leading q ->
  test SelfClosedRegexp (normalize (t ++ ch_gt :: q)) = false /\
  findMatchedEndTag name (normalize (t ++ ch_gt :: q)) = None.
Proof.
  intros Ht He Hq.
  destruct (tagTail_norm t Ht He) as (t2 & H1 & H2 & H3 & H4 & _).
  destruct (leading_norm q Hq) as (q' & Nq & Aq).
  pose proof (norm_whole _ _ (norm_app _ _ _ _ H4 Nq)) as E.
  rewrite <- !app_assoc in E. cbn [app] in E. rewrite E. split.
  - apply test_SelfClosed_open; assumption.
  - unfold findMatchedEndTag. set (text := t2 ++ ch_gt :: q').
    assert (H : skipn 0 text = (t2 ++ [ch_gt]) ++ q' ++ []).
    { unfold text. rewrite app_nil_r, <- app_assoc. reflexivity. }
    rewrite (fwd_text name text 0 _ _ [] H (tail_notLt t2 H1)). apply skipn_more in H.
    destruct (fwd_ahead name text q' Aq _ _ [] H) as (st & Est). rewrite Est.
    replace (0 + length (t2 ++ [ch_gt]) + length q') with (length text).
    + apply fwd_end.
    + unfold text. rewrite !length_app. simpl. lia.
Qed.

(** Before an end tag that nothing opened the backward matcher finds
    nothing. *)
Lemma findMatchedStartTag_unopened (name b : str) :
  markup b -> findMatchedStartTag name (normalize b) = None.
Proof.
  intros Hb. destruct (markup_norm b Hb) as (b' & Nb & Tb).
  rewrite (norm_whole _ _ Nb). unfold findMatchedStartTag.
  assert (H : skipn 0 b' = b' ++ []) by (rewrite app_nil_r; reflexivity).
  rewrite (bwd_tidy name b' b' Tb 0 [] [] H). apply skipn_more in H.
  rewrite (bwd_done name b' _ [] [] H eq_refl). reflexivity.
Qed.







(* ================================================================== *)
(** ** Normalizing a slice *)
(* ================================================================== *)



(** X16: text without comments, quotes and self-closing tags, made of
    plain text, complete elements and start tags without attributes, is
    its own normal form. *)
Theorem normalize_opening_unchanged : forall p : str, opening p -> normalize p = p.
Proof.
  intros p Hp. apply normalize_dead; apply opening_dead;
    auto using blind_Comment, blind_Quoted, blind_SelfClosing.
Qed.

Lemma normalize_opening_unchanged_witness :
  normalize (lit "<page>" ++ ch_lf :: lit "  ") = lit "<page>" ++ ch_lf :: lit "  ".
Proof.
  apply (normalize_opening_unchanged (lit "<page>" ++ ch_lf :: lit "  ")).
  exact opening_page.
Defined.

(* ================================================================== *)
(** ** An end tag of another name *)
(* ================================================================== *)



(* ================================================================== *)
(** ** A word that is no tag name *)
(* ================================================================== *)

Lemma substring_tail (u rest : str) k :
  k <= length u -> substring (u ++ rest) (length u - k) (length u) = skipn (length u - k) u.
Proof.
  intros Hk. apply substring_at with (rest := rest).
  - rewrite skipn_app. replace (length u - k - length u) with 0 by lia. reflexivity.
  - rewrite length_skipn. lia.
Qed.

Lemma substring_head (u post : str) k :
  substring (u ++ post) (length u) (Nat.min (length u + k) (length (u ++ post)))
  = firstn k post.
Proof.
  unfold substring. rewrite skipn_prefix, length_app.
  replace (Nat.min (length u + k) (length u + length post) - length u)
    with (Nat.min k (length post)) by lia.
  destruct (Nat.le_ge_cases k (length post)) as [H|H].
  - rewrite Nat.min_l by exact H. reflexivity.
  - rewrite Nat.min_r by exact H. rewrite !firstn_all2 by lia. reflexivity.
Qed.

(** X18: a word that is not the name of a tag, an attribute name or a
    word of the text, is highlighted alone: when the word under the
    cursor starts at column 2 or later, is not preceded by [<], and is
    not both preceded by [</] and followed by [>], the provider returns
    the range of the word and nothing else.  So [</name] that is not
    directly followed by [>] is not taken for an end tag.  The editor
    hands out the word whole (a line of at most 1000 code units, or a
    word of fewer than 500). *)
Theorem highlights_plain_word :
  forall (doc : TextDocument) (l : nat) (u w post : str) (cur : nat),
    l < length (lines doc) -> lineAt doc l = u ++ w ++ post ->
    tagName w -> stops isTagChar post = true -> endsClean u ->
    2 <= length u ->
    skipn (length u - 1) u <> lit "<" ->
    skipn (length u - 2) u <> lit "</" \/ firstn 1 post <> lit ">" ->
    wordFits (lineAt doc l) w ->
    length u <= cur <= length u + length w ->
    provideDocumentHighlights doc (at_ l cur)
    = Ok [mkDocumentHighlight (rangeAt l (length u) (length u + length w))].
Proof.
  intros doc l u w post cur Hl Hline [Hne Hw] Hpost Hclean Hu Hlt Hend Hfit Hcur.
  pose proof (getWordRangeAtPosition_at doc l Hl u w post cur Hline Hne Hw Hpost
                Hclean Hcur Hfit) as Hword.
  assert (Hlen : length (lineAt doc l) = length u + length w + length post)
    by (rewrite Hline, !length_app; lia).
  assert (P1 : prev doc (at_ l (length u)) 1 = Ok (skipn (length u - 1) u)).
  { rewrite (prev_at_1 doc l Hl (length u)) by lia.
    rewrite Hline, (substring_tail u (w ++ post) 1) by lia. reflexivity. }
  assert (P2 : prev doc (at_ l (length u)) 2 = Ok (skipn (length u - 2) u)).
  { rewrite (prev_at_2 doc l Hl (length u)) by lia.
    rewrite Hline, (substring_tail u (w ++ post) 2) by lia. reflexivity. }
  assert (N1 : next doc (at_ l (length u + length w)) 1 = Ok (firstn 1 post)).
  { destruct (next_spec doc l (length u + length w) 1 Hl ltac:(lia)) as [Hnext _].
    change (Z.of_nat 1) with 1%Z in Hnext. rewrite Hnext.
    rewrite Hline, app_assoc, <- length_app, substring_head. reflexivity. }
  unfold provideDocumentHighlights. rewrite Hword. unfold rangeAt. cbn [start end_].
  rewrite P1. cbn [bind]. rewrite (str_eqb_neq _ _ Hlt), P2. cbn [bind].
  destruct Hend as [Hend|Hend]; [rewrite (str_eqb_neq _ _ Hend); reflexivity|].
  destruct (str_eqb _ (lit "</")); [|reflexivity].
  rewrite N1. cbn [bind]. rewrite (str_eqb_neq _ _ Hend). reflexivity.
Qed.

Lemma highlights_plain_word_witness :
  provideDocumentHighlights (mkTextDocument [lit "<view class=x>"] [ch_lf]) (at_ 0 8)
  = Ok [mkDocumentHighlight (rangeAt 0 (length (lit "<view ")) (length (lit "<view ") + length (lit "class")))] /\
  provideDocumentHighlights (mkTextDocument [lit "a </view >"] [ch_lf]) (at_ 0 5)
  = Ok [mkDocumentHighlight (rangeAt 0 (length (lit "a </")) (length (lit "a </") + length (lit "view")))].
Proof.
  split.
  - apply (highlights_plain_word (mkTextDocument [lit "<view class=x>"] [ch_lf]) 0
             (lit "<view ") (lit "class") (lit "=x>") 8);
      try reflexivity; try (simpl; lia); try discriminate.
    + split; [discriminate | reflexivity].
    + left. discriminate.
    + apply wordFits_short. reflexivity.
  - apply (highlights_plain_word (mkTextDocument [lit "a </view >"] [ch_lf]) 0
             (lit "a </") (lit "view") (lit " >") 5);
      try reflexivity; try (simpl; lia); try discriminate.
    + split; [discriminate | reflexivity].
    + right. discriminate.
    + apply wordFits_short. reflexivity.
Defined.

(* ================================================================== *)
(** ** A word on a line of more than 1000 code units *)
(* ================================================================== *)

(** X11: on a line of more than 1000 code units the editor looks for
    the word only in the stretch from 499 code units before the cursor
    to 501 code units after it, so that the anchor is what this stretch
    holds of the word under the cursor; whenever the provider returns,
    the range of this part of the word is the first range of its
    result. *)
Theorem highlights_cut_word :
  forall (doc : TextDocument) (l : nat) (u w post : str) (c : nat),
    l < length (lines doc) -> lineAt doc l = u ++ w ++ post ->
    tagName w -> stops isTagChar post = true -> endsClean u ->
    length u <= c <= length u + length w ->
    maxLen < length (lineAt doc l) ->
    getWordRangeAtPosition doc (at_ l c) WordRegexp
    = Some (rangeAt l (Nat.max (length u) (c + 1 - maxLen / 2))
              (Nat.min (length u + length w) (c + 1 + maxLen / 2))) /\
    (forall res,
       provideDocumentHighlights doc (at_ l c) = Ok res ->
       exists others,
         res = mkDocumentHighlight
                 (rangeAt l (Nat.max (length u) (c + 1 - maxLen / 2))
                    (Nat.min (length u + length w) (c + 1 + maxLen / 2)))
               :: others).
Proof.
  intros doc l u w post c Hl Hline [Hne Hw] Hpost Hu Hc Hlong.
  assert (Hword := getWordRangeAtPosition_window doc l Hl u w post c Hline Hne Hw
                     Hpost Hu Hc).
  apply Nat.ltb_lt in Hlong. rewrite Hlong in Hword.
  split; [exact Hword|].
  intros res. apply provideDocumentHighlights_anchor_first. exact Hword.
Qed.

Lemma highlights_cut_word_witness :
  getWordRangeAtPosition longDoc (at_ 0 1) WordRegexp = Some (rangeAt 0 1 502) /\
  (forall res,
     provideDocumentHighlights longDoc (at_ 0 1) = Ok res ->
     exists others, res = mkDocumentHighlight (rangeAt 0 1 502) :: others).
Proof.
  apply (highlights_cut_word longDoc 0 [ch_lt] (repeat 97%N 1000)
           (lit ">x</" ++ repeat 97%N 1000 ++ lit ">") 1).
  - simpl. lia.
  - reflexivity.
  - split; [discriminate | reflexivity].
  - reflexivity.
  - reflexivity.
  - rewrite repeat_length. simpl. lia.
  - apply Nat.ltb_lt. reflexivity.
Defined.
